(** * DECA decode pipeline: a shallow embedding of [decalib/deca.py]

  The tensors of the program are modelled as nested lists, the Python
  dictionaries as insertion-ordered association lists, exceptions as an
  error type threaded through a small result monad.  Tensor elements are
  exact rationals ([Qc]): the arithmetic of the model is that of the
  program without the rounding of float32.  The one place where a
  property below depends on the rounding, the blend of line 314, is also
  modelled in float32 on one texel (module [Float32]). *)

From Stdlib Require Import String Bool Arith ZArith QArith Qcanon Qround Qpower
  Lia Lqa List.
From Stdlib Require SpecFloat.
Import ListNotations.

Set Implicit Arguments.
Open Scope string_scope.
Open Scope nat_scope.
Open Scope list_scope.

(** ** Exceptions and the result monad *)

Inductive error : Type :=
| RuntimeError (msg : string)       (* raised by torch on a shape mismatch *)
| AssertionError
| ZeroDivisionError
| ValueError
| IndexError
| UnboundLocalError (var : string)
| ExternalError (callee : string).  (* an exception raised inside a collaborator *)

Inductive result (A : Type) : Type :=
| Ok (a : A)
| Err (e : error).

Arguments Ok {A} a.
Arguments Err {A} e.

Definition bind {A B} (r : result A) (k : A -> result B) : result B :=
  match r with
  | Ok a => k a
  | Err e => Err e
  end.

Notation "x <- c ;; k" := (bind c (fun x => k))
  (at level 61, c at next level, right associativity).

Fixpoint mapM {A B} (f : A -> result B) (l : list A) : result (list B) :=
  match l with
  | [] => Ok []
  | x :: xs => y <- f x ;; ys <- mapM f xs ;; Ok (y :: ys)
  end.

(** ** Python containers *)

(** [l[start:stop]] with Python's treatment of negative and out-of-range
  bounds (step 1). *)
Definition py_bound (len i : Z) : Z :=
  if (i <? 0)%Z then Z.max (i + len) 0 else Z.min i len.

Definition py_slice {A} (l : list A) (start stop : Z) : list A :=
  let len := Z.of_nat (length l) in
  let s := py_bound len start in
  let e := py_bound len stop in
  firstn (Z.to_nat (e - s)) (skipn (Z.to_nat s) l).

(** A [dict]: keys in insertion order, assignment to an existing key keeps
  its position. *)
Definition dict (V : Type) : Type := list (string * V).

Fixpoint dict_set {V} (k : string) (v : V) (d : dict V) : dict V :=
  match d with
  | [] => [(k, v)]
  | (k', v') :: d' =>
      if String.eqb k' k then (k', v) :: d' else (k', v') :: dict_set k v d'
  end.

Fixpoint dict_get {V} (k : string) (d : dict V) : option V :=
  match d with
  | [] => None
  | (k', v') :: d' => if String.eqb k' k then Some v' else dict_get k d'
  end.

Definition dict_keys {V} (d : dict V) : list string := map fst d.

(** ** Shapes of nested lists *)

(** [k] consecutive groups of [n] elements: one step of a [reshape]. *)
Fixpoint chunks {A} (k n : nat) (l : list A) : list (list A) :=
  match k with
  | O => []
  | S k' => firstn n l :: chunks k' n (skipn n l)
  end.

Definition has_shape3 {A} (t : list (list (list A))) (b n c : nat) : Prop :=
  length t = b /\
  Forall (fun m => length m = n /\ Forall (fun r => length r = c) m) t.

(** ** Parameter codec: [DECA.decompose_code] *)

Module Codec.
Section Codec.

Variable A : Type.

(** A value stored in [code_dict]: a (batch, width) slice, or the lighting
  block after [reshape(batch, 9, 3)]. *)
Inductive block : Type :=
  | Flat (t : list (list A))
  | Light (t : list (list (list A))).

(** [code[:, start:end]] *)
Definition slice_cols (code : list (list A)) (start stop : Z) : list (list A) :=
  map (fun row => py_slice row start stop) code.

(** [t.reshape(t.shape[0], 9, 3)] on a (batch, width) tensor: every row
  must hold exactly 27 elements (nothing to check in an empty batch). *)
Definition reshape_light (t : list (list A)) : result (list (list (list A))) :=
  mapM (fun row =>
          if Nat.eqb (length row) 27
          then Ok (chunks 9 3 row)
          else Err (RuntimeError "shape is invalid for input size"))
       t.

(** The loop of lines 116-121.  The [reshape] of line 121 reads back the
  entry stored two lines above it, which is the slice [sl]. *)
Fixpoint decompose_loop (code : list (list A)) (items : dict Z)
         (start : Z) (code_dict : dict block) : result (dict block) :=
  match items with
  | [] => Ok code_dict
  | (key, n) :: rest =>
      let stop := (start + n)%Z in
      let sl := slice_cols code start stop in
      let code_dict := dict_set key (Flat sl) code_dict in
      if String.eqb key "light"
      then r <- reshape_light sl ;;
           decompose_loop code rest stop (dict_set key (Light r) code_dict)
      else decompose_loop code rest stop code_dict
  end.

Definition decompose_code (code : list (list A)) (num_dict : dict Z)
  : result (dict block) :=
  decompose_loop code num_dict 0 [].

(** *** Vocabulary of the round-trip property *)

(** [torch.cat([a, b], dim=1)] on two (batch, _) tensors. *)
Fixpoint hcat (a b : list (list A)) : list (list A) :=
  match a, b with
  | ra :: a', rb :: b' => (ra ++ rb) :: hcat a' b'
  | _, _ => []
  end.

(** The lighting block flattened back to (batch, 27). *)
Definition flatten_block (b : block) : list (list A) :=
  match b with
  | Flat t => t
  | Light t => map (@concat A) t
  end.

(** Concatenate the blocks of [d] along the columns, in the order of
  [keys], to the right of [acc]. *)
Fixpoint recompose (keys : list string) (d : dict block)
         (acc : list (list A)) : option (list (list A)) :=
  match keys with
  | [] => Some acc
  | k :: ks =>
      match dict_get k d with
      | Some b => recompose ks d (hcat acc (flatten_block b))
      | None => None
      end
  end.

Definition sum_widths (num_dict : dict Z) : Z :=
  fold_right (fun kv s => (snd kv + s)%Z) 0%Z num_dict.

(** Column at which the lighting block starts, when the spec has one. *)
Fixpoint light_offset (items : dict Z) (start : Z) : option Z :=
  match items with
  | [] => None
  | (key, n) :: rest =>
      if String.eqb key "light" then Some start
      else light_offset rest (start + n)%Z
  end.

Definition has_shape2 (t : list (list A)) (b : nat) (w : Z) : Prop :=
  length t = b /\ Forall (fun row => Z.of_nat (length row) = w) t.

(** The invariants of a ParameterBlockSpec: distinct names, widths that are
  sizes, 27 lighting coefficients. *)
Definition valid_spec (num_dict : dict Z) : Prop :=
  NoDup (dict_keys num_dict) /\
  Forall (fun kv => (0 <= snd kv)%Z) num_dict /\
  (forall n, In ("light"%string, n) num_dict -> n = 27%Z).

End Codec.

(** *** Concrete inputs and vocabulary used by the properties *)

Definition demo_spec : dict Z := [("shape", 2%Z); ("light", 27%Z); ("cam", 3%Z)].

Definition demo_code : list (list Z) := [map Z.of_nat (seq 0 32)].

(** The columns [start:end] that the loop of [decompose_code] hands to
  [key]: [start] is the sum of the widths declared before it. *)
Fixpoint columns_of (key : string) (items : dict Z) (start : Z) : option (Z * Z) :=
  match items with
  | [] => None
  | (k, n) :: rest =>
      if String.eqb k key then Some (start, (start + n)%Z)
      else columns_of key rest (start + n)%Z
  end.

End Codec.

(** ** Tensors *)

Module Tensor.

(** Nested lists, outermost dimension first; a 4-d tensor is indexed
  (batch, channel, row, column). *)
Definition T1 : Type := list Qc.
Definition T2 : Type := list T1.
Definition T3 : Type := list T2.
Definition T4 : Type := list T3.

Definition get4 (t : T4) (b c y x : nat) : Qc :=
  nth x (nth y (nth c (nth b t []) []) []) 0%Qc.

Definition has_shape4 (t : T4) (b c h w : nat) : Prop :=
  length t = b /\
  Forall (fun img =>
    length img = c /\
    Forall (fun ch =>
      length ch = h /\ Forall (fun row => length row = w) ch) img) t.

Definition size_mismatch : error :=
  RuntimeError "The size of tensor a must match the size of tensor b".

Fixpoint zipM {A B C} (f : A -> B -> result C) (xs : list A) (ys : list B)
  : result (list C) :=
  match xs, ys with
  | [], [] => Ok []
  | x :: xs', y :: ys' =>
      z <- f x y ;; zs <- zipM f xs' ys' ;; Ok (z :: zs)
  | _, _ => Err size_mismatch
  end.

(** Broadcasting along one dimension: sizes agree, or one of them is 1. *)
Definition broadcast {A B C} (f : A -> B -> result C) (xs : list A) (ys : list B)
  : result (list C) :=
  match xs, ys with
  | [x], _ => mapM (f x) ys
  | _, [y] => mapM (fun x => f x y) xs
  | _, _ => zipM f xs ys
  end.

(** An elementwise binary operator on two 4-d tensors. *)
Definition lift4 (op : Qc -> Qc -> Qc) : T4 -> T4 -> result T4 :=
  broadcast (broadcast (broadcast (broadcast (fun a b => Ok (op a b))))).

Definition tmul : T4 -> T4 -> result T4 := lift4 Qcmult.
Definition tadd : T4 -> T4 -> result T4 := lift4 Qcplus.

Definition map4 (f : Qc -> Qc) (t : T4) : T4 :=
  map (map (map (map f))) t.

(** [1 - t] *)
Definition one_minus (t : T4) : T4 := map4 (fun x => (1 - x)%Qc) t.

(** [t[:, :3, :, :]] *)
Definition channels3 (t : T4) : T4 := map (firstn 3) t.

(** [t[:, [0], ...]] *)
Definition channel0 (t : T4) : result T4 :=
  mapM (fun img => match img with
                   | ch :: _ => Ok [ch]
                   | [] => Err (RuntimeError "index 0 is out of bounds")
                   end) t.

(** [n] values given by their index. *)
Definition tab {A} (n : nat) (f : nat -> A) : list A := map f (seq 0 n).

Definition tab4 (b c h w : nat) (f : nat -> nat -> nat -> nat -> Qc) : T4 :=
  tab b (fun i => tab c (fun j => tab h (fun y => tab w (fun x => f i j y x)))).

(** Index read by a dimension of size [n] under broadcasting. *)
Definition bidx (n i : nat) : nat := if Nat.eqb n 1 then 0 else i.

(** Sizes [n1] and [n2] broadcast to [n]. *)
Definition bdim (n1 n2 n : nat) : Prop :=
  (n1 = n /\ n2 = n) \/ (n1 = 1 /\ n2 = n) \/ (n1 = n /\ n2 = 1).

(** The shape of a rectangular tensor, read off its first entries. *)
Definition dims4 (t : T4) : nat * nat * nat * nat :=
  (length t,
   length (hd [] t),
   length (hd [] (hd [] t)),
   length (hd [] (hd [] (hd [] t)))).

Definition dims3 (t : T3) : nat * nat * nat :=
  (length t, length (hd [] t), length (hd [] (hd [] t))).

End Tensor.

(** ** Texture compositing: the end of the rendering block of [DECA.decode]
  and of [DECA.decode_coarse] *)

Module Texture.
Import Tensor.

(** Lines 309-319 of [decode].  [uv_gt] and [uv_gt_mask] are the two
  [F.grid_sample] results, [uv_texture] is [albedo*uv_shading].  Returns
  [(uv_face_eye_mask, uv_texture_gt)]. *)
Definition composite (use_tex : bool)
           (static_mask uv_gt uv_gt_mask uv_texture : T4) : result (T4 * T4) :=
  if use_tex then
    uv_face_eye_mask <- tmul static_mask uv_gt_mask ;;
    sampled <- tmul (channels3 uv_gt) uv_face_eye_mask ;;
    synthesized <- tmul (channels3 uv_texture) (one_minus uv_face_eye_mask) ;;
    uv_texture_gt <- tadd sampled synthesized ;;
    Ok (uv_face_eye_mask, uv_texture_gt)
  else
    uv_face_eye_mask <- tmul static_mask uv_gt_mask ;;
    Ok (uv_face_eye_mask, channels3 uv_gt).

(** Lines 219-230 of [decode_coarse]: the validity buffer is first
  reduced to its channel 0. *)
Definition composite_coarse (use_tex : bool)
           (static_mask uv_gt uv_gt_ones uv_texture : T4) : result (T4 * T4) :=
  uv_gt_mask <- channel0 uv_gt_ones ;;
  composite use_tex static_mask uv_gt uv_gt_mask uv_texture.


Local Open Scope Qc_scope.

(** *** Concrete inputs and vocabulary used by the properties *)

(** Entry of the composite mask: static face/eye mask times validity. *)
Definition mask_at (static_mask uv_gt_mask : T4) (i j y x : nat) : Qc :=
  get4 static_mask 0 0 y x * get4 uv_gt_mask i j y x.

(** Entry of the blend of line 314. *)
Definition blend_at (static_mask uv_gt uv_gt_mask uv_texture : T4)
           (i j y x : nat) : Qc :=
  get4 uv_gt i j y x * mask_at static_mask uv_gt_mask i j y x
  + get4 uv_texture i j y x * (1 - mask_at static_mask uv_gt_mask i j y x).

Definition half : Qc := Q2Qc (1 # 2).

(** One texel, three channels. *)
Definition rgb (r g b : Qc) : T4 := [[[[r]]; [[g]]; [[b]]]].

Definition plane (v : Qc) : T4 := [[[[v]]]].

(** One texel with an alpha channel. *)
Definition rgba (r g b a : Qc) : T4 := [[[[r]]; [[g]]; [[b]]; [[a]]]].

End Texture.

(** ** Lines 313-314 of [decode] on one texel, in float32 *)

Module Float32.
Import SpecFloat.

(** IEEE binary32: 24 bits of precision, exponents below 128, rounding to
  nearest, ties to even. *)
Definition prec : Z := 24.
Definition emax : Z := 128.

Definition mul : spec_float -> spec_float -> spec_float := SFmul prec emax.
Definition add : spec_float -> spec_float -> spec_float := SFadd prec emax.
Definition sub : spec_float -> spec_float -> spec_float := SFsub prec emax.

(** The Python literal [1]. *)
Definition one : spec_float := S754_finite false 8388608 (-23).

(** [uv_face_eye_mask = self.uv_face_eye_mask * uv_gt_mask] and
  [uv_gt*uv_face_eye_mask + uv_texture*(1 - uv_face_eye_mask)] at one
  texel. *)
Definition composite_texel (static_mask uv_gt uv_gt_mask uv_texture : spec_float)
  : spec_float * spec_float :=
  let uv_face_eye_mask := mul static_mask uv_gt_mask in
  (uv_face_eye_mask,
   add (mul uv_gt uv_face_eye_mask) (mul uv_texture (sub one uv_face_eye_mask))).

(** *** Concrete inputs and vocabulary used by the properties *)

(** The number a float stands for. *)
Definition value (x : spec_float) : Qc :=
  match x with
  | S754_finite s m e =>
      Q2Qc ((if s then -1 else 1) * inject_Z (Z.pos m) * (2 # 1) ^ e)
  | _ => 0%Qc
  end.

(** A float of [0,1]: a zero, or a positive finite float m*2^e with
  e <= 0 and m <= 2^-e. *)
Definition in_unit (x : spec_float) : bool :=
  match x with
  | S754_zero _ => true
  | S754_finite false m e => ((e <=? 0) && (Z.pos m <=? 2 ^ (- e)))%Z
  | _ => false
  end.

(** The float32 nearest to 0.1. *)
Definition tenth : spec_float := S754_finite false 13421773 (-27).

(** The record that the rounding reaches from the mantissa [m] after [k]
  shifts to the right: the quotient, and flags that are set only when a
  bit was lost. *)
Definition shifted (m k : Z) (R : shr_record) : Prop :=
  (shr_m R = m / 2 ^ k /\
   (shr_r R || shr_s R = true -> m mod 2 ^ k <> 0))%Z.

End Float32.

(** ** Geometric projection: the projection lines of [DECA.decode] *)

Module Projection.
Import Tensor.
Local Open Scope Qc_scope.

(** Modelled from the spec: [util.batch_orth_proj] is imported from
  [decalib/utils/util.py], which is not part of the sources at hand.
  The specification (4.2) says: "apply uniform scale and 2D translation
  to the first two coordinates, leave a third coordinate usable for
  occlusion ordering", with [cam = (scale, tx, ty)].  The text fixes
  neither the order of scale and translation nor whether the depth is
  scaled, so both are left open: [translate_first] chooses [s*(x+t)] over
  [s*x+t], [scale_depth] chooses [s*z] over [z]. *)
Definition project_point (translate_first scale_depth : bool)
           (cam p : T1) : result T1 :=
  match cam, p with
  | [s; tx; ty], [x; y; z] =>
      Ok [ if translate_first then s * (x + tx) else s * x + tx;
           if translate_first then s * (y + ty) else s * y + ty;
           if scale_depth then s * z else z ]
  | _, _ => Err size_mismatch
  end.

Definition batch_orth_proj (translate_first scale_depth : bool)
           (X : T3) (camera : T2) : result T3 :=
  zipM (fun pts cam => mapM (project_point translate_first scale_depth cam) pts)
       X camera.

(** [t[:,:,1:] = -t[:,:,1:]] *)
Definition negate_from1 (t : T3) : T3 :=
  map (map (fun p => firstn 1 p ++ map Qcopp (skipn 1 p))) t.

(** [t[:,:,:2]] *)
Definition first2 (t : T3) : T3 := map (map (firstn 2)) t.

(** Line 270 of [decode]. *)
Definition project_landmarks2d (tf sd : bool) (landmarks2d : T3) (cam : T2)
  : result T3 :=
  r <- batch_orth_proj tf sd landmarks2d cam ;;
  Ok (negate_from1 (first2 r)).

(** Lines 271 and 272 of [decode]: [landmarks3d] and [trans_verts]. *)
Definition project_points (tf sd : bool) (points : T3) (cam : T2)
  : result T3 :=
  r <- batch_orth_proj tf sd points cam ;;
  Ok (negate_from1 r).

(** *** Vocabulary of the properties *)

(** The point set with the vertical coordinate of every point negated. *)
Definition flip_point (p : T1) : T1 :=
  match p with
  | x :: y :: rest => x :: - y :: rest
  | _ => p
  end.

Definition flip_vertical (t : T3) : T3 := map (map flip_point) t.

Definition result_map {A B} (f : A -> B) (r : result A) : result B :=
  match r with
  | Ok a => Ok (f a)
  | Err e => Err e
  end.

(** [b] batches of [n] copies of one point. *)
Definition constant_points (b n : nat) (p : T1) : T3 := repeat (repeat p n) b.


(** *** Concrete inputs and vocabulary used by the properties *)

Definition two : Qc := Q2Qc 2.

(** The vertical coordinate of the first projected point. *)
Definition vertical_of (r : result T3) : Q :=
  match r with
  | Ok ((( _ :: y :: _) :: _) :: _) => this y
  | _ => 0%Q
  end.

Definition flip_commutes (tf sd : bool) (X : T3) (cam : T2) : Prop :=
  project_points tf sd (flip_vertical X) cam =
  result_map flip_vertical (project_points tf sd X cam).

End Projection.

(** ** Landmark visibility: [DECA.visofp] and its use in [DECA.decode] *)

Module Visibility.
Import Tensor.
Local Open Scope Qc_scope.



Section Visibility.

(** [self.flame.seletec_3d68], a collaborator. *)
Variable seletec_3d68 : T3 -> T3.




End Visibility.

(** *** Concrete inputs and vocabulary used by the properties *)



End Visibility.

(** ** UV displacement to normals: [DECA.displacement2normal] *)

Module Normal.
Import Tensor.
Local Open Scope Qc_scope.

(** [t.permute(0,2,3,1)]: (b,c,h,w) to (b,h,w,c). *)
Definition permute_0231 (t : T4) : T4 :=
  let '(b, c, h, w) := dims4 t in
  tab b (fun i => tab h (fun y => tab w (fun x => tab c (fun j => get4 t i j y x)))).

(** [t.permute(0,3,1,2)]: (b,h,w,c) to (b,c,h,w). *)
Definition permute_0312 (t : T4) : T4 :=
  let '(b, h, w, c) := dims4 t in
  tab b (fun i => tab c (fun j => tab h (fun y => tab w (fun x => get4 t i y x j)))).

(** The entries of a tensor in storage order. *)
Definition flatten4 (t : T4) : T1 := concat (concat (concat t)).
Definition flatten3 (t : T3) : T1 := concat (concat t).

Definition invalid_shape : error := RuntimeError "shape is invalid for input size".

(** [.reshape([b, -1, 3])] of [flat]. *)
Definition reshape_b_m_3 (b : nat) (flat : T1) : result T3 :=
  let n := length flat in
  if (b =? 0)%nat then Err invalid_shape
  else if (n mod (b * 3) =? 0)%nat
       then let m := (n / (b * 3))%nat in
            Ok (chunks b m (chunks (b * m) 3 flat))
       else Err invalid_shape.

(** [.reshape([b, h, w, 3])] of [flat]. *)
Definition reshape_b_h_w_3 (b h w : nat) (flat : T1) : result T4 :=
  if (length flat =? b * h * w * 3)%nat
  then Ok (chunks b h (chunks (b * h) w (chunks (b * h * w) 3 flat)))
  else Err invalid_shape.

(** [t.expand(b, -1, -1)] *)
Definition expand_batch {A} (b : nat) (t : list A) : result (list A) :=
  match t with
  | [x] => Ok (repeat x b)
  | _ => if (length t =? b)%nat then Ok t
         else Err (RuntimeError "The expanded size of the tensor must match the existing size")
  end.

Section Normal.

(** Collaborators and assets of the model object. *)
Variable world2uv_coarse : T3 -> T4.            (* self.render.world2uv(., coarse=True) *)
Variable vertex_normals : T3 -> list (list (list Z)) -> T3.   (* util.vertex_normals *)
Variable interpolate : T4 -> nat -> nat -> T4.   (* F.interpolate *)
Variable dense_faces : list (list (list Z)).     (* self.render.dense_faces *)
Variable uv_face_eye_mask_coarse : T4.
Variable fixed_uv_dis : T2.
Variable uv_size : nat.

(** Lines 127-138: the normal raster at coarse UV resolution. *)
Definition displacement2normal_coarse (uv_z : T4) (coarse_verts coarse_normals : T3)
  : result T4 :=
  let batch_size := length uv_z in
  let uv_coarse_vertices := world2uv_coarse coarse_verts in
  let uv_coarse_normals := world2uv_coarse coarse_normals in
  uv_z <- tmul uv_z uv_face_eye_mask_coarse ;;
  displaced <- tmul uv_z uv_coarse_normals ;;
  moved <- tadd uv_coarse_vertices displaced ;;
  biased <- tmul [[fixed_uv_dis]] uv_coarse_normals ;;
  uv_detail_vertices <- tadd moved biased ;;
  dense_vertices <-
    reshape_b_m_3 batch_size (flatten4 (permute_0231 uv_detail_vertices)) ;;
  faces <- expand_batch batch_size dense_faces ;;
  let normals := vertex_normals dense_vertices faces in
  let '(_, _, h, w) := dims4 uv_coarse_vertices in
  raster <- reshape_b_h_w_3 batch_size h w (flatten3 normals) ;;
  let uv_detail_normals := permute_0312 raster in
  inside <- tmul uv_detail_normals uv_face_eye_mask_coarse ;;
  outside <- tmul uv_coarse_normals (one_minus uv_face_eye_mask_coarse) ;;
  tadd inside outside.

(** Lines 139-141: resampled to the texture resolution. *)
Definition displacement2normal (uv_z : T4) (coarse_verts coarse_normals : T3)
  : result T4 :=
  uv_detail_normals <- displacement2normal_coarse uv_z coarse_verts coarse_normals ;;
  Ok (interpolate uv_detail_normals uv_size uv_size).

End Normal.

(** *** Concrete inputs and vocabulary used by the properties *)

(** A one-texel atlas: the unwrapping yields the same raster for every
  input, the normals of the collaborator are the positions themselves. *)
Definition demo_world2uv (pts : T3) : T4 := [[[[1]]; [[1]]; [[1]]]].

Definition demo_vertex_normals (v : T3) (faces : list (list (list Z))) : T3 := v.

(** An atlas of one row with one texel per vertex: texel [k] of image [i]
  holds the three coordinates of point [k]. *)
Definition texel_atlas (pts : T3) : T4 :=
  map (fun img => tab 3 (fun j => [map (fun p => nth j p 0) img])) pts.




End Normal.

(** ** Visualization composer: [DECA.visualize] *)

Module Visualize.
Import Tensor.
Local Open Scope Z_scope.

(** [int(a*size/b)]: true division, then truncation.  The quotient is
  taken exactly.  The program takes it in double precision: as long as
  the product [a*size] is at most 2^53 in absolute value the correctly
  rounded quotient truncates to the same integer; beyond, the two may
  differ. *)
Definition scaled (a size b : Z) : result Z :=
  if b =? 0 then Err ZeroDivisionError else Ok (Z.quot (a * size) b).

(** [torch.cat([a, b], dim)] on two (C, H, W) tensors. *)
Definition cat3 (dim : Z) (a b : T3) : result T3 :=
  let '(ca, ha, wa) := dims3 a in
  let '(cb, hb, wb) := dims3 b in
  if dim =? 1 then
    if ((ca =? cb) && (wa =? wb))%nat
    then zipM (fun x y => Ok (x ++ y)) a b
    else Err size_mismatch
  else if dim =? 2 then
    if ((ca =? cb) && (ha =? hb))%nat
    then zipM (zipM (fun r1 r2 => Ok (r1 ++ r2))) a b
    else Err size_mismatch
  else Err IndexError.

(** [torch.cat(tensors, dim)].  On an empty list torch raises; the class
  and the message of that exception depend on its version. *)
Definition torch_cat (tensors : list T3) (dim : Z) : result T3 :=
  match tensors with
  | [] => Err (RuntimeError "torch.cat(): expected a non-empty list of Tensors")
  | t :: rest => fold_left (fun acc u => a <- acc ;; cat3 dim a u) rest (Ok t)
  end.

(** [grid.transpose(1,2,0)]: (C, H, W) to (H, W, C). *)
Definition transpose_120 (t : T3) : T3 :=
  let '(c, h, w) := dims3 t in
  tab h (fun y => tab w (fun x => tab c (fun j =>
    nth x (nth y (nth j t []) []) 0%Qc))).

(** [px[[2,1,0]]] on the channels of one pixel. *)
Definition bgr_pixel (px : T1) : result T1 :=
  match px with
  | c0 :: c1 :: c2 :: _ => Ok [c2; c1; c0]
  | _ => Err IndexError
  end.

(** [np.minimum(np.maximum(v, 0), 255)] *)
Definition clamp (v : Qc) : Qc :=
  let lo := if Qclt_le_dec v 0 then 0%Qc else v in
  if Qclt_le_dec lo (Q2Qc 255) then lo else Q2Qc 255.

(** [.astype(np.uint8)]: truncation toward zero, then the low 8 bits. *)
Definition to_uint8 (v : Qc) : Z :=
  Z.quot (Qnum v) (Z.pos (Qden v)) mod 256.

Section Visualize.

(** [F.interpolate(t, [new_h, new_w])] and [torchvision.utils.make_grid]. *)
Variable interpolate : T4 -> Z -> Z -> result T4.
Variable make_grid : T4 -> result T3.

(** The body of the loop of lines 457-463 for one buffer. *)
Definition grid_of (size dim : Z) (buf : T4) : result T3 :=
  let '(_, _, h, w) := dims4 buf in
  sizes <- (if dim =? 2 then
              new_w <- scaled (Z.of_nat w) size (Z.of_nat h) ;; Ok (size, new_w)
            else if dim =? 1 then
              new_h <- scaled (Z.of_nat h) size (Z.of_nat w) ;; Ok (new_h, size)
            else Err (UnboundLocalError "new_h")) ;;
  resized <- interpolate buf (fst sizes) (snd sizes) ;;
  make_grid resized.

Fixpoint make_grids (size dim : Z) (visdict : dict T4) (grids : dict T3)
  : result (dict T3) :=
  match visdict with
  | [] => Ok grids
  | (key, buf) :: rest =>
      g <- grid_of size dim buf ;;
      make_grids size dim rest (dict_set key g grids)
  end.

Definition visualize (visdict : dict T4) (size dim : Z)
  : result (list (list (list Z))) :=
  if negb ((dim =? 1) || (dim =? 2)) then Err AssertionError
  else
    grids <- make_grids size dim visdict [] ;;
    grid <- torch_cat (map snd grids) dim ;;
    let scaled255 := map (map (map (fun v => (v * Q2Qc 255)%Qc))) (transpose_120 grid) in
    grid_image <- mapM (mapM bgr_pixel) scaled255 ;;
    Ok (map (map (map (fun v => to_uint8 (clamp v)))) grid_image).

(** *** Vocabulary of the properties *)


End Visualize.

(** *** Concrete inputs and vocabulary used by the properties *)

(** Stand-ins for the two library calls: no resizing, and the grid of a
  batch is its first image. *)
Definition demo_interpolate (buf : T4) (new_h new_w : Z) : result T4 := Ok buf.

Definition demo_make_grid (buf : T4) : result T3 := Ok (hd [] buf).

(** *** Vocabulary of the layout properties *)

(** One entry of the image: the value times 255, clamped, cast to 8 bits. *)
Definition pixel_value (v : Qc) : Z := to_uint8 (clamp (v * Q2Qc 255)%Qc).

(** Row [y] of channel [j] of a (C, H, W) grid. *)
Definition grid_row (g : T3) (j y : nat) : T1 := nth y (nth j g []) [].

(** The pixels of one image row, from the rows of the channels 2, 1 and 0. *)
Definition pixels (r2 r1 r0 : T1) : list (list Z) :=
  tab (length r0) (fun x => [pixel_value (nth x r2 0%Qc);
                             pixel_value (nth x r1 0%Qc);
                             pixel_value (nth x r0 0%Qc)]).

(** Row [y] of the image of one grid, and the whole image. *)
Definition panel_row (g : T3) (y : nat) : list (list Z) :=
  pixels (grid_row g 2 y) (grid_row g 1 y) (grid_row g 0 y).

Definition panel (g : T3) : list (list (list Z)) :=
  tab (length (nth 0%nat g [])) (panel_row g).




(** Two buffers of one texel: one with entries 2.0, 0.5 and -1.0, and a
  white one. *)
Definition demo_pair : dict T4 :=
  [("inputs", [[[[Q2Qc 2]]; [[Q2Qc (1 # 2)]]; [[Q2Qc (-1)]]]]);
   ("mask", [[[[1%Qc]]; [[1%Qc]]; [[1%Qc]]]])].

End Visualize.

(** ** Control flow and local variables of [DECA.decode] *)

Module Decode.

(** The options of a call that decide which branches run. *)
Record flags : Type := {
  rendering : bool;
  return_vis : bool;
  vis_lmk : bool;
  use_tex : bool;                 (* self.cfg.model.use_tex *)
  iddict_given : bool;            (* iddict is not None *)
  has_attributes : bool;          (* 'attributes' in codedict *)
  has_dense_attributes : bool;    (* 'dense_attributes' in codedict *)
  render_orig : bool;
  original_image_given : bool;    (* original_image is not None *)
  tform_given : bool              (* tform is not None *)
}.

Section Decode.

(** Tensors, dictionaries and arrays are opaque values.  Every operation on
  them (a collaborator, a library function, indexing, arithmetic) is a
  call that returns a value or raises; unpacking a value into [n] names
  asks for its [n] components. *)
Variable val : Type.
Variable call : string -> list val -> option val.
Variable unpack : nat -> val -> option (list val).

(** The local variables of the running frame. *)
Definition env : Type := dict val.

(** A computation on the frame that returns a value or raises. *)
Definition M (A : Type) : Type := env -> result (A * env).

Definition ret {A} (a : A) : M A := fun e => Ok (a, e).

Definition raise {A} (err : error) : M A := fun _ => Err err.

Definition mbind {A B} (m : M A) (k : A -> M B) : M B :=
  fun e => match m e with
           | Ok (a, e') => k a e'
           | Err err => Err err
           end.

(** Statement sequencing. *)
Definition seq {A} (s : M unit) (k : M A) : M A := mbind s (fun _ => k).

(** Reading a local: unassigned names raise [UnboundLocalError]. *)
Definition read (x : string) : M val :=
  fun e => match dict_get x e with
           | Some v => Ok (v, e)
           | None => Err (UnboundLocalError x)
           end.

Fixpoint read_all (xs : list string) : M (list val) :=
  match xs with
  | [] => ret []
  | x :: xs' => mbind (read x) (fun v => mbind (read_all xs') (fun vs => ret (v :: vs)))
  end.

(** The expression [f(...)] whose evaluation reads the locals [xs], in
  this order, before [f] runs. *)
Definition ext (f : string) (xs : list string) : M val :=
  mbind (read_all xs) (fun vs =>
    match call f vs with
    | Some v => ret v
    | None => raise (ExternalError f)
    end).

Definition store (x : string) (v : val) : M unit :=
  fun e => Ok (tt, dict_set x v e).

(** [x = expr] *)
Definition set (x : string) (expr : M val) : M unit :=
  mbind expr (store x).

Fixpoint store_all (xs : list string) (vs : list val) : M unit :=
  match xs, vs with
  | x :: xs', v :: vs' => seq (store x v) (store_all xs' vs')
  | _, _ => ret tt
  end.

(** [x1, ..., xn = expr] *)
Definition set_tuple (xs : list string) (expr : M val) : M unit :=
  mbind expr (fun v =>
    match unpack (length xs) v with
    | Some vs => if Nat.eqb (length vs) (length xs)
                 then store_all xs vs
                 else raise ValueError
    | None => raise ValueError
    end).

(** An expression statement. *)
Definition run (expr : M val) : M unit := mbind expr (fun _ => ret tt).

Definition skip : M unit := ret tt.

Notation "s ;;; k" := (seq s k) (at level 62, right associativity).

(** Lines 283-320: the rendering block. *)
Definition rendering_block (fl : flags) : M unit :=
  set "uv_z" (ext "self.D_detail(torch.cat([codedict['pose'][:,3:], codedict['exp'], codedict['detail']]))"
                  ["codedict"; "codedict"; "codedict"]) ;;;
  (if iddict_given fl
   then set "uv_z" (ext "self.D_detail(torch.cat([iddict['pose'][:,3:], iddict['exp'], codedict['detail']]))"
                        ["iddict"; "iddict"; "codedict"])
   else skip) ;;;
  set "normals" (ext "util.vertex_normals(verts, self.render.faces.expand(batch_size, -1, -1))"
                     ["verts"; "batch_size"]) ;;;
  set "uv_detail_normals" (ext "self.displacement2normal" ["uv_z"; "verts"; "normals"]) ;;;
  set "uv_shading" (ext "self.render.add_SHlight(uv_detail_normals, codedict['light'])"
                        ["uv_detail_normals"; "codedict"]) ;;;
  set "uv_texture" (ext "albedo*uv_shading" ["albedo"; "uv_shading"]) ;;;
  run (ext "opdict['uv_texture'] = uv_texture" ["uv_texture"; "opdict"]) ;;;
  run (ext "opdict['normals'] = normals" ["normals"; "opdict"]) ;;;
  run (ext "opdict['uv_detail_normals'] = uv_detail_normals" ["uv_detail_normals"; "opdict"]) ;;;
  run (ext "opdict['displacement_map'] = uv_z+self.fixed_uv_dis[None,None,:,:]" ["uv_z"; "opdict"]) ;;;
  (if has_attributes fl
   then set "uv_pverts" (ext "self.render.world2uv(trans_verts, attributes=codedict['attributes'])"
                             ["trans_verts"; "codedict"])
   else set "uv_pverts" (ext "self.render.world2uv" ["trans_verts"]) ;;;
        set "face_vertices" (ext "util.face_vertices(trans_verts, self.render.faces.expand(trans_verts.shape[0], -1, -1))"
                                 ["trans_verts"; "trans_verts"]) ;;;
        run (ext "opdict['attributes'] = face_vertices" ["face_vertices"; "opdict"])) ;;;
  set "uv_gt" (ext "F.grid_sample(hr_images, uv_pverts.permute(0,2,3,1)[:,:,:,:2])"
                   ["hr_images"; "uv_pverts"]) ;;;
  set "uv_gt_mask" (ext "F.grid_sample(torch.ones_like(hr_images), uv_pverts.permute(0,2,3,1)[:,:,:,:2])"
                        ["hr_images"; "uv_pverts"]) ;;;
  (if use_tex fl
   then set "uv_face_eye_mask" (ext "self.uv_face_eye_mask * uv_gt_mask" ["uv_gt_mask"]) ;;;
        set "uv_texture_gt" (ext "uv_gt[:,:3,:,:]*uv_face_eye_mask + (uv_texture[:,:3,:,:]*(1-uv_face_eye_mask))"
                                 ["uv_gt"; "uv_face_eye_mask"; "uv_texture"; "uv_face_eye_mask"])
   else set "uv_face_eye_mask" (ext "self.uv_face_eye_mask * uv_gt_mask" ["uv_gt_mask"]) ;;;
        set "uv_texture_gt" (ext "uv_gt[:,:3,:,:]" ["uv_gt"])) ;;;
  run (ext "opdict['uv_texture_gt'] = uv_texture_gt" ["uv_texture_gt"; "opdict"]) ;;;
  run (ext "save_image(uv_texture_gt[0].cpu(), './coarse_uv_texture.png')" ["uv_texture_gt"]).

(** [render_orig and original_image is not None and tform is not None] *)
Definition on_original (fl : flags) : bool :=
  render_orig fl && original_image_given fl && tform_given fl.

(** Lines 326-445: the visualization block, ending in [return]. *)
Definition visualization_block (fl : flags) : M val :=
  (if on_original fl
   then set "points_scale" (ext "[self.image_size, self.image_size]" []) ;;;
        set_tuple ["_"; "_"; "h"; "w"] (ext "original_image.shape" ["original_image"]) ;;;
        set "trans_verts" (ext "transform_points" ["trans_verts"; "tform"; "points_scale"; "h"; "w"]) ;;;
        set "landmarks2d" (ext "transform_points" ["landmarks2d"; "tform"; "points_scale"; "h"; "w"]) ;;;
        set "landmarks3d" (ext "transform_points" ["landmarks3d"; "tform"; "points_scale"; "h"; "w"]) ;;;
        set "background" (read "original_image") ;;;
        set "images" (read "original_image")
   else run (ext "print('no tform available')" []) ;;;
        set "h" (ext "self.image_size" []) ;;;
        set "w" (ext "self.image_size" []) ;;;
        set "background" (ext "None" [])) ;;;
  (* line 341 *)
  set "ops" (ext "self.render"
                 ["verts"; "trans_verts"; "uv_texture_gt"; "h"; "w"; "background";
                  "uv_face_eye_mask"]) ;;;
  run (ext "opdict['grid'] = ops['grid']" ["ops"; "opdict"]) ;;;
  run (ext "opdict['rendered_images'] = ops['images']" ["ops"; "opdict"]) ;;;
  run (ext "opdict['alpha_images'] = ops['alpha_images']" ["ops"; "opdict"]) ;;;
  run (ext "opdict['normal_images'] = ops['normal_images']" ["ops"; "opdict"]) ;;;
  (if vis_lmk fl
   then set "landmarks3d_vis" (ext "self.visofp(ops['transformed_normals'])" ["ops"]) ;;;
        set "landmarks3d" (ext "torch.cat([landmarks3d, landmarks3d_vis], dim=2)"
                               ["landmarks3d"; "landmarks3d_vis"]) ;;;
        run (ext "opdict['landmarks3d'] = landmarks3d" ["landmarks3d"; "opdict"])
   else skip) ;;;
  set_tuple ["shape_images"; "_"; "grid"; "alpha_images"]
            (ext "self.render.render_shape(verts, trans_verts, h=h, w=w, images=background, return_grid=True)"
                 ["verts"; "trans_verts"; "h"; "w"; "background"]) ;;;
  set "detail_normal_images" (ext "F.grid_sample(uv_detail_normals, grid)*alpha_images"
                                  ["uv_detail_normals"; "grid"; "alpha_images"]) ;;;
  set "shape_detail_images"
      (ext "self.render.render_shape(verts, trans_verts, detail_normal_images=detail_normal_images, h=h, w=w, images=background)"
           ["verts"; "trans_verts"; "detail_normal_images"; "h"; "w"; "background"]) ;;;
  set "vertices" (ext "opdict['verts'][0].cpu().numpy()" ["opdict"]) ;;;
  set "faces" (ext "self.render.faces[0].cpu().numpy()" []) ;;;
  set "texture" (ext "util.tensor2image(opdict['uv_texture_gt'][0])" ["opdict"]) ;;;
  set "texture" (ext "texture[:,:,[2,1,0]]" ["texture"]) ;;;
  set "normals" (ext "opdict['normals'][0].cpu().numpy()" ["opdict"]) ;;;
  set "displacement_map" (ext "opdict['displacement_map'][0].cpu().detach().numpy().squeeze()" ["opdict"]) ;;;
  set_tuple ["dense_vertices"; "dense_colors"; "dense_faces"; "dense_uvcoords"; "dense_uvfaces"]
            (ext "util.upsample_mesh"
                 ["vertices"; "normals"; "faces"; "displacement_map"; "texture"]) ;;;
  set "dense_uvcoords" (ext "torch.from_numpy(dense_uvcoords).cuda().unsqueeze(0) / np.max(dense_uvcoords)"
                            ["dense_uvcoords"; "dense_uvcoords"]) ;;;
  set "dense_uvcoords" (ext "torch.cat([dense_uvcoords, dense_uvcoords[:,:,0:1]*0.+1.], -1)"
                            ["dense_uvcoords"; "dense_uvcoords"]) ;;;
  set "dense_uvcoords" (ext "dense_uvcoords*2 - 1" ["dense_uvcoords"]) ;;;
  set "dense_uvfaces" (ext "torch.from_numpy(dense_uvfaces).cuda().unsqueeze(0)" ["dense_uvfaces"]) ;;;
  set "dense_vertices" (ext "torch.from_numpy(dense_vertices.astype(np.float32)).unsqueeze(0).cuda()"
                            ["dense_vertices"]) ;;;
  set "dense_trans_verts" (ext "util.batch_orth_proj(dense_vertices, codedict['cam'])"
                               ["dense_vertices"; "codedict"]) ;;;
  run (ext "dense_trans_verts[:,:,1:] = -dense_trans_verts[:,:,1:]"
           ["dense_trans_verts"; "dense_trans_verts"]) ;;;
  set "dense_faces" (ext "torch.from_numpy(dense_faces).cuda().unsqueeze(0)" ["dense_faces"]) ;;;
  set "detail_normal_images" (ext "F.grid_sample(uv_detail_normals, grid)*alpha_images"
                                  ["uv_detail_normals"; "grid"; "alpha_images"]) ;;;
  set "detail_face_uvcoords" (ext "util.face_vertices" ["dense_uvcoords"; "dense_uvfaces"]) ;;;
  set "visdict" (ext "{'hr_inputs': ..., 'landmarks2d': ..., 'shape_images': ..., 'shape_detail_images': ..., 'mask': ...}"
                     ["hr_images"; "images"; "landmarks2d"; "shape_images";
                      "shape_detail_images"; "ops"]) ;;;
  run (ext "visdict['rendered_images'] = ops['images']" ["ops"; "visdict"]) ;;;
  run (ext "visdict['mask'] = ops['mask']" ["ops"; "visdict"]) ;;;
  (if has_dense_attributes fl
   then set "uv_pverts" (ext "self.render.world2uv_dense(..., attributes=codedict['dense_attributes'], debug=True)"
                             ["dense_trans_verts"; "dense_faces"; "dense_uvcoords";
                              "dense_uvfaces"; "codedict"])
   else set "uv_pverts" (ext "self.render.world2uv_dense(..., debug=True)"
                             ["dense_trans_verts"; "dense_faces"; "dense_uvcoords";
                              "dense_uvfaces"]) ;;;
        set "dense_face_vertices"
            (ext "util.face_vertices(dense_trans_verts, dense_faces.expand(dense_vertices.shape[0], -1, -1))"
                 ["dense_trans_verts"; "dense_faces"; "dense_vertices"]) ;;;
        run (ext "opdict['dense_attributes'] = dense_face_vertices"
                 ["dense_face_vertices"; "opdict"])) ;;;
  set "uv_gt" (ext "F.grid_sample(hr_images, uv_pverts.permute(0,2,3,1)[:,:,:,:2])"
                   ["hr_images"; "uv_pverts"]) ;;;
  set "uv_gt_mask" (ext "F.grid_sample(torch.ones_like(hr_images), uv_pverts.permute(0,2,3,1)[:,:,:,:2])"
                        ["hr_images"; "uv_pverts"]) ;;;
  (if use_tex fl
   then set "uv_face_eye_mask" (ext "self.uv_face_eye_mask * uv_gt_mask" ["uv_gt_mask"]) ;;;
        set "uv_texture_gt" (ext "uv_gt[:,:3,:,:]*uv_face_eye_mask + (uv_texture[:,:3,:,:]*(1-uv_face_eye_mask))"
                                 ["uv_gt"; "uv_face_eye_mask"; "uv_texture"; "uv_face_eye_mask"])
   else set "uv_face_eye_mask" (ext "self.uv_face_eye_mask * uv_gt_mask" ["uv_gt_mask"]) ;;;
        set "uv_texture_gt" (ext "uv_gt[:,:3,:,:]" ["uv_gt"])) ;;;
  run (ext "save_image(uv_texture_gt[0].cpu(), './dense_uv_texture.png')" ["uv_texture_gt"]) ;;;
  (if on_original fl
   then set "points_scale" (ext "[self.image_size, self.image_size]" []) ;;;
        set_tuple ["_"; "_"; "h"; "w"] (ext "original_image.shape" ["original_image"]) ;;;
        set "dense_trans_verts" (ext "transform_points"
                                     ["dense_trans_verts"; "tform"; "points_scale"; "h"; "w"])
   else skip) ;;;
  set "ops" (ext "self.render.render_dense"
                 ["dense_vertices"; "dense_faces"; "dense_uvcoords"; "dense_uvfaces";
                  "dense_trans_verts"; "uv_texture_gt"; "h"; "w"; "background";
                  "uv_face_eye_mask"]) ;;;
  run (ext "visdict['rendered_images_detailed'] = ops['images']" ["ops"; "visdict"]) ;;;
  run (ext "visdict['mask_detailed'] = ops['mask']" ["ops"; "visdict"]) ;;;
  ext "(opdict, visdict)" ["opdict"; "visdict"].

(** Lines 257-448. *)
Definition decode (fl : flags) : M val :=
  set "images" (ext "codedict['images']" ["codedict"]) ;;;
  set "hr_images" (ext "codedict['hr_images']" ["codedict"]) ;;;
  set "batch_size" (ext "images.shape[0]" ["images"]) ;;;
  set_tuple ["verts"; "landmarks2d"; "landmarks3d"; "_"]
            (ext "self.flame(shape_params=codedict['shape'], expression_params=codedict['exp'], pose_params=codedict['pose'])"
                 ["codedict"; "codedict"; "codedict"]) ;;;
  (if use_tex fl
   then set "albedo" (ext "self.flametex(codedict['tex'])" ["codedict"])
   else set "albedo" (ext "torch.zeros([batch_size, 3, self.uv_size, self.uv_size], device=images.device)"
                          ["batch_size"; "images"])) ;;;
  set "landmarks3d_world" (ext "landmarks3d.clone()" ["landmarks3d"]) ;;;
  set "landmarks2d" (ext "util.batch_orth_proj(landmarks2d, codedict['cam'])[:,:,:2]"
                         ["landmarks2d"; "codedict"]) ;;;
  run (ext "landmarks2d[:,:,1:] = -landmarks2d[:,:,1:]" ["landmarks2d"; "landmarks2d"]) ;;;
  set "landmarks3d" (ext "util.batch_orth_proj(landmarks3d, codedict['cam'])"
                         ["landmarks3d"; "codedict"]) ;;;
  run (ext "landmarks3d[:,:,1:] = -landmarks3d[:,:,1:]" ["landmarks3d"; "landmarks3d"]) ;;;
  set "trans_verts" (ext "util.batch_orth_proj(verts, codedict['cam'])" ["verts"; "codedict"]) ;;;
  run (ext "trans_verts[:,:,1:] = -trans_verts[:,:,1:]" ["trans_verts"; "trans_verts"]) ;;;
  set "opdict" (ext "{'verts': ..., 'trans_verts': ..., 'landmarks2d': ..., 'landmarks3d': ..., 'landmarks3d_world': ...}"
                    ["verts"; "trans_verts"; "landmarks2d"; "landmarks3d";
                     "landmarks3d_world"]) ;;;
  (if rendering fl then rendering_block fl else skip) ;;;
  (if use_tex fl
   then run (ext "opdict['albedo'] = albedo" ["albedo"; "opdict"])
   else skip) ;;;
  (if return_vis fl
   then visualization_block fl
   else read "opdict").

(** *** Vocabulary of the properties *)

(** [P] before, then either a normal end in [Q] or an exception of [E]. *)
Definition triple {A} (P : env -> Prop) (m : M A)
           (Q : A -> env -> Prop) (E : error -> Prop) : Prop :=
  forall e, P e ->
            match m e with
            | Ok (a, e') => Q a e'
            | Err err => E err
            end.

(** The names of [bound] are assigned, those of [unbound] are not. *)
Definition frame (bound unbound : list string) (e : env) : Prop :=
  Forall (fun x => dict_get x e <> None) bound /\
  Forall (fun x => dict_get x e = None) unbound.

Definition subset (xs ys : list string) : bool :=
  forallb (fun x => existsb (String.eqb x) ys) xs.

Definition without (x : string) (ys : list string) : list string :=
  filter (fun y => negb (String.eqb x y)) ys.

Definition inter (xs ys : list string) : list string :=
  filter (fun x => existsb (String.eqb x) ys) xs.

(** The exceptions other than an unassigned local. *)
Definition never_unbound (err : error) : Prop :=
  forall x, err <> UnboundLocalError x.

(** The frame on entry: the parameters that the body reads. *)
Definition entry_frame (codedict iddict original_image tform : val) : env :=
  [("codedict", codedict); ("iddict", iddict);
   ("original_image", original_image); ("tform", tform)].

End Decode.

(** *** Concrete inputs and vocabulary used by the properties *)

Definition parameters : list string :=
  ["codedict"; "iddict"; "original_image"; "tform"].

(** Callees that always return. *)
Definition demo_call (f : string) (args : list nat) : option nat := Some 0.

Definition demo_unpack (n : nat) (v : nat) : option (list nat) := Some (repeat 0 n).

Definition demo_flags (with_rendering : bool) : flags :=
  {| rendering := with_rendering; return_vis := true; vis_lmk := true;
     use_tex := true; iddict_given := false; has_attributes := false;
     has_dense_attributes := false; render_orig := false;
     original_image_given := false; tform_given := false |}.

End Decode.

(** ** Control flow and local variables of [DECA.decode_coarse] *)

Module Coarse.
Import Decode.

Section Coarse.

(** Values and calls are opaque, as for [decode]. *)
Variable val : Type.
Variable call : string -> list val -> option val.
Variable unpack : nat -> val -> option (list val).

Local Notation "s ;;; k" := (seq s k) (at level 62, right associativity).
Local Abbreviation ext := (Decode.ext call).
Local Abbreviation set_tuple := (Decode.set_tuple unpack).
Local Abbreviation read := (@Decode.read val).
Local Abbreviation skip := (@Decode.skip val).

(** Lines 195-230: the rendering block. *)
Definition rendering_block (fl : flags) : M val unit :=
  set "uv_z" (ext "self.D_detail(torch.cat([codedict['pose'][:,3:], codedict['exp'], codedict['detail']]))"
                  ["codedict"; "codedict"; "codedict"]) ;;;
  (if iddict_given fl
   then set "uv_z" (ext "self.D_detail(torch.cat([iddict['pose'][:,3:], iddict['exp'], codedict['detail']]))"
                        ["iddict"; "iddict"; "codedict"])
   else skip) ;;;
  set "normals" (ext "util.vertex_normals(verts, self.render.faces.expand(batch_size, -1, -1))"
                     ["verts"; "batch_size"]) ;;;
  set "uv_detail_normals" (ext "self.displacement2normal" ["uv_z"; "verts"; "normals"]) ;;;
  set "uv_shading" (ext "self.render.add_SHlight(uv_detail_normals, codedict['light'])"
                        ["uv_detail_normals"; "codedict"]) ;;;
  set "uv_texture" (ext "albedo*uv_shading" ["albedo"; "uv_shading"]) ;;;
  run (ext "opdict['uv_texture'] = uv_texture" ["uv_texture"; "opdict"]) ;;;
  run (ext "opdict['normals'] = normals" ["normals"; "opdict"]) ;;;
  run (ext "opdict['uv_detail_normals'] = uv_detail_normals" ["uv_detail_normals"; "opdict"]) ;;;
  run (ext "opdict['displacement_map'] = uv_z+self.fixed_uv_dis[None,None,:,:]" ["uv_z"; "opdict"]) ;;;
  (if has_attributes fl
   then set "uv_pverts" (ext "self.render.world2uv(trans_verts, attributes=codedict['attributes'])"
                             ["trans_verts"; "codedict"])
   else set "uv_pverts" (ext "self.render.world2uv" ["trans_verts"]) ;;;
        set "face_vertices" (ext "util.face_vertices(trans_verts, self.render.faces.expand(trans_verts.shape[0], -1, -1))"
                                 ["trans_verts"; "trans_verts"]) ;;;
        run (ext "opdict['attributes'] = face_vertices" ["face_vertices"; "opdict"])) ;;;
  set "uv_gt" (ext "F.grid_sample(hr_images, uv_pverts.permute(0,2,3,1)[:,:,:,:2])"
                   ["hr_images"; "uv_pverts"]) ;;;
  set "uv_gt_mask" (ext "F.grid_sample(torch.ones_like(hr_images), uv_pverts.permute(0,2,3,1)[:,:,:,:2])[:, [0], ...]"
                        ["hr_images"; "uv_pverts"]) ;;;
  (if use_tex fl
   then set "uv_face_eye_mask" (ext "self.uv_face_eye_mask * uv_gt_mask" ["uv_gt_mask"]) ;;;
        set "uv_texture_gt" (ext "uv_gt[:,:3,:,:]*uv_face_eye_mask + (uv_texture[:,:3,:,:]*(1-uv_face_eye_mask))"
                                 ["uv_gt"; "uv_face_eye_mask"; "uv_texture"; "uv_face_eye_mask"])
   else set "uv_face_eye_mask" (ext "self.uv_face_eye_mask * uv_gt_mask" ["uv_gt_mask"]) ;;;
        set "uv_texture_gt" (ext "uv_gt[:,:3,:,:]" ["uv_gt"])) ;;;
  run (ext "opdict['uv_texture_gt'] = uv_texture_gt" ["uv_texture_gt"; "opdict"]).

(** Lines 233-252: the visualization block, ending in [return]. *)
Definition visualization_block (fl : flags) : M val val :=
  (if on_original fl
   then set "points_scale" (ext "[self.image_size, self.image_size]" []) ;;;
        set_tuple ["_"; "_"; "h"; "w"] (ext "original_image.shape" ["original_image"]) ;;;
        set "trans_verts" (ext "transform_points" ["trans_verts"; "tform"; "points_scale"; "h"; "w"]) ;;;
        set "background" (read "original_image") ;;;
        set "images" (read "original_image")
   else run (ext "print('no tform available')" []) ;;;
        set "h" (ext "self.image_size" []) ;;;
        set "w" (ext "self.image_size" []) ;;;
        set "background" (ext "None" [])) ;;;
  (* line 245 *)
  set "ops" (ext "self.render"
                 ["verts"; "trans_verts"; "uv_texture_gt"; "h"; "w"; "background";
                  "uv_face_eye_mask"]) ;;;
  run (ext "opdict['trans_verts'] = trans_verts" ["trans_verts"; "opdict"]) ;;;
  set "visdict" (ext "{'inputs': images, 'mask': ops['mask'].repeat(1, 3, 1, 1), 'rendered_images': ops['images']}"
                     ["images"; "ops"; "ops"]) ;;;
  ext "(opdict, visdict)" ["opdict"; "visdict"].

(** Lines 173-252.  The result is [Some v] where a [return] statement
  gives [v], and [None] where the end of the body is reached: the function
  has no [return] outside the visualization block. *)
Definition decode_coarse (fl : flags) : M val (option val) :=
  set "images" (ext "codedict['images']" ["codedict"]) ;;;
  set "hr_images" (ext "codedict['hr_images']" ["codedict"]) ;;;
  set "batch_size" (ext "images.shape[0]" ["images"]) ;;;
  set_tuple ["verts"; "landmarks2d"; "landmarks3d"; "freeze_eyes"]
            (ext "self.flame(shape_params=codedict['shape'], expression_params=codedict['exp'], pose_params=codedict['pose'], pca_index=pca_index, pca_scale=pca_scale, all_scale=all_scale, freeze_eyes=freeze_eyes)"
                 ["codedict"; "codedict"; "codedict"; "pca_index"; "pca_scale";
                  "all_scale"; "freeze_eyes"]) ;;;
  (if use_tex fl
   then set "albedo" (ext "self.flametex(codedict['tex'])" ["codedict"])
   else set "albedo" (ext "torch.zeros([batch_size, 3, self.uv_size, self.uv_size], device=images.device)"
                          ["batch_size"; "images"])) ;;;
  set "landmarks3d_world" (ext "landmarks3d.clone()" ["landmarks3d"]) ;;;
  set "trans_verts" (ext "util.batch_orth_proj(verts, codedict['cam'])" ["verts"; "codedict"]) ;;;
  run (ext "trans_verts[:,:,1:] = -trans_verts[:,:,1:]" ["trans_verts"; "trans_verts"]) ;;;
  set "opdict" (ext "{'verts': verts, 'trans_verts': trans_verts, 'freeze_eyes': freeze_eyes}"
                    ["verts"; "trans_verts"; "freeze_eyes"]) ;;;
  (if rendering fl then rendering_block fl else skip) ;;;
  (if return_vis fl
   then mbind (visualization_block fl) (fun v => ret (Some v))
   else ret None).

(** The frame on entry: the parameters that the body reads. *)
Definition entry_frame
           (codedict iddict original_image tform
            pca_index pca_scale all_scale freeze_eyes : val) : env val :=
  [("codedict", codedict); ("iddict", iddict);
   ("original_image", original_image); ("tform", tform);
   ("pca_index", pca_index); ("pca_scale", pca_scale);
   ("all_scale", all_scale); ("freeze_eyes", freeze_eyes)].

End Coarse.

Definition parameters : list string :=
  ["codedict"; "iddict"; "original_image"; "tform";
   "pca_index"; "pca_scale"; "all_scale"; "freeze_eyes"].

(** The default options but for the two that the properties vary. *)
Definition demo_options (with_rendering with_vis : bool) : flags :=
  {| rendering := with_rendering; return_vis := with_vis; vis_lmk := true;
     use_tex := true; iddict_given := false; has_attributes := false;
     has_dense_attributes := false; render_orig := false;
     original_image_given := false; tform_given := false |}.

End Coarse.

(** ** Encoding: [DECA.encode] *)

Module Encode.
Import Tensor Codec.

(** An entry of [codedict] as the program holds it.  The blocks stored by
  [decompose_code] are slices of the tensor [parameters], so they are
  views that share its storage, and the [reshape] of a column slice of 27
  entries is a view of it too; the other entries are tensors with storage
  of their own. *)
Inductive ref : Type :=
| View (start stop : Z)        (* parameters[:, start:stop] *)
| LightView (start stop : Z)   (* parameters[:, start:stop].reshape(batch, 9, 3) *)
| Images (t : T4)
| Own (t : T2).

(** The tensor read through an entry. *)
Inductive value : Type :=
| Dim2 (t : T2)
| Dim3 (t : T3)
| Dim4 (t : T4).

(** A dictionary with every value replaced by its image under [f]. *)
Definition dict_map {V W} (f : V -> W) (d : dict V) : dict W :=
  map (fun kv => (fst kv, f (snd kv))) d.

Definition deref (parameters : T2) (r : ref) : value :=
  match r with
  | View start stop => Dim2 (slice_cols parameters start stop)
  | LightView start stop =>
      Dim3 (map (chunks 9 3) (slice_cols parameters start stop))
  | Images t => Dim4 t
  | Own t => Dim2 t
  end.

(** The loop of [decompose_code] (lines 116-121) with its entries kept as
  views; the [reshape] of line 121 raises as in [Codec.reshape_light]. *)
Fixpoint decompose_views (code : T2) (items : dict Z)
         (start : Z) (code_dict : dict ref) : result (dict ref) :=
  match items with
  | [] => Ok code_dict
  | (key, n) :: rest =>
      let stop := (start + n)%Z in
      let code_dict := dict_set key (View start stop) code_dict in
      if String.eqb key "light"
      then _ <- reshape_light (slice_cols code start stop) ;;
           decompose_views code rest stop
                           (dict_set key (LightView start stop) code_dict)
      else decompose_views code rest stop code_dict
  end.

(** [t[:, 3:]] *)
Definition from3 (t : T2) : T2 :=
  map (fun row => py_slice row 3 (Z.of_nat (length row))) t.

(** Broadcasting of a source dimension to a target of size [n]: sizes
  agree, or the source has size 1. *)
Definition expand_to {A} (n : nat) (l : list A) : result (list A) :=
  match l with
  | [x] => Ok (repeat x n)
  | _ => if (length l =? n)%nat then Ok l
         else Err (RuntimeError "The expanded size of the tensor must match the existing size")
  end.

(** One row of [view[:, 3:] = src] where [view] is [parameters[:, start:stop]]:
  the slice covers [n] positions of the row from [first] on, and the
  positions after its first three receive the values. *)
Definition write_row (start stop : Z) (row src : T1) : result T1 :=
  let len := Z.of_nat (length row) in
  let first := Z.to_nat (py_bound len start) in
  let n := Z.to_nat (py_bound len stop - py_bound len start) in
  let k := Nat.min 3 n in
  vals <- expand_to (n - k) src ;;
  Ok (firstn (first + k) row ++ vals ++ skipn (first + n) row).

(** [view[:, 3:] = src]: the write goes to the storage of [parameters].
  The source is broadcast to the shape of the target, first along the
  batch, then along the columns of every row (a nested list carries no
  width for an empty batch, so nothing is checked there). *)
Definition write_from3 (parameters : T2) (start stop : Z) (src : T2) : result T2 :=
  rows <- expand_to (length parameters) src ;;
  zipM (write_row start stop) parameters rows.

Section Encode.

(** The two encoders, the rotation converter, and the configuration. *)
Variable E_flame : T4 -> result T2.
Variable E_detail : T4 -> result T2.
Variable batch_euler2axis : T2 -> result T2.
Variable param_dict : dict Z.            (* self.param_dict *)
Variable jaw_type_is_euler : bool.       (* self.cfg.model.jaw_type == 'euler' *)

(** Lines 152-168: the tensor [parameters] after the call, and [codedict].
  The two branches of lines 152-157 differ in gradient tracking only.  A
  missing key raises inside the subscript [codedict['pose']]. *)
Definition encode_refs (images : T4) (use_detail : bool)
  : result (T2 * dict ref) :=
  parameters <- E_flame images ;;
  codedict <- decompose_views parameters param_dict 0 [] ;;
  let codedict := dict_set "images" (Images images) codedict in
  codedict <- (if use_detail
               then detailcode <- E_detail images ;;
                    Ok (dict_set "detail" (Own detailcode) codedict)
               else Ok codedict) ;;
  if jaw_type_is_euler then
    match dict_get "pose" codedict with
    | Some (View start stop) =>
        let posecode := slice_cols parameters start stop in
        let euler_jaw_pose := from3 posecode in                 (* .clone() *)
        axis <- batch_euler2axis euler_jaw_pose ;;
        parameters <- write_from3 parameters start stop axis ;;
        let codedict := dict_set "pose" (View start stop) codedict in
        let codedict := dict_set "euler_jaw_pose" (Own euler_jaw_pose) codedict in
        Ok (parameters, codedict)
    | Some _ =>
        (* not reached: only the loop stores under the key [pose], and it
           stores a view that is not reshaped *)
        Err (RuntimeError "codedict['pose'] is not a slice of parameters")
    | None => Err (ExternalError "codedict['pose']")
    end
  else Ok (parameters, codedict).

(** The dictionary that [encode] returns, every entry read at the time of
  the return. *)
Definition encode (images : T4) (use_detail : bool) : result (dict value) :=
  r <- encode_refs images use_detail ;;
  Ok (dict_map (deref (fst r)) (snd r)).

End Encode.

(** *** Vocabulary of the properties *)

(** A block of [decompose_code] as a value of [codedict]. *)
Definition of_block (b : block Qc) : value :=
  match b with
  | Flat t => Dim2 t
  | Light t => Dim3 t
  end.

Definition of_blocks (d : dict (block Qc)) : dict value := dict_map of_block d.

(** The rows of [pose] with the entries after the first three replaced
  by the rows of [axis]. *)
Fixpoint with_jaw (pose axis : T2) : T2 :=
  match pose, axis with
  | row :: pose', a :: axis' => (firstn 3 row ++ a) :: with_jaw pose' axis'
  | _, _ => []
  end.

(** *** Concrete inputs used by the properties *)

Definition demo_images : T4 := [[[[1%Qc]]]].

(** One row of eight parameters: 0, 1, ..., 7. *)
Definition demo_parameters : T2 :=
  [map (fun n => Q2Qc (inject_Z (Z.of_nat n))) (seq 0 8)].

Definition demo_E_flame (images : T4) : result T2 := Ok demo_parameters.

Definition demo_E_detail (images : T4) : result T2 := Ok [[1%Qc]].

(** A stand-in for the rotation converter that keeps the shape. *)
Definition demo_euler2axis (t : T2) : result T2 := Ok (map (map Qcopp) t).

Definition demo_param_dict : dict Z := [("shape", 2%Z); ("pose", 6%Z)].

End Encode.

(** ** The entry point: [DECA.run] *)

Module Run.
Import Tensor Decode.

(** The objects that [decode] handles in a call from [run]: the dictionary
  built by [encode], its entries, and the results of the collaborators,
  which stay opaque. *)
Inductive object (opaque : Type) : Type :=
| Codedict (d : dict Encode.value)
| Entry (v : Encode.value)
| Other (x : opaque).

Arguments Codedict {opaque} d.
Arguments Entry {opaque} v.
Arguments Other {opaque} x.

Section Run.

Variable opaque : Type.
Variable none : opaque.                       (* None *)

(** [datasets.TestData(imagepath)[0]['image'].to(self.device)[None,...]] *)
Variable load : string -> result T4.

(** The collaborators and the configuration of [encode]. *)
Variable E_flame : T4 -> result T2.
Variable E_detail : T4 -> result T2.
Variable batch_euler2axis : T2 -> result T2.
Variable param_dict : dict Z.
Variable jaw_type_is_euler : bool.

(** The configuration and the collaborators of [decode]. *)
Variable cfg_use_tex : bool.                 (* self.cfg.model.use_tex *)
Variable extern : string -> list (object opaque) -> option (object opaque).
Variable unpack : nat -> object opaque -> option (list (object opaque)).

(** The calls of [decode].  The subscripts of lines 257 and 258 read the
  dictionary handed over by [run]; a missing key raises inside the
  subscript.  Everything else is left to the collaborators. *)
Definition call (f : string) (args : list (object opaque))
  : option (object opaque) :=
  match args with
  | [Codedict d] =>
      if String.eqb f "codedict['images']"
      then option_map Entry (dict_get "images" d)
      else if String.eqb f "codedict['hr_images']"
           then option_map Entry (dict_get "hr_images" d)
           else extern f args
  | _ => extern f args
  end.

(** The options of the call [self.decode(codedict)]: the defaults. *)
Definition default_flags (codedict : dict Encode.value) : flags :=
  {| rendering := true; return_vis := true; vis_lmk := true;
     use_tex := cfg_use_tex; iddict_given := false;
     has_attributes := existsb (String.eqb "attributes") (dict_keys codedict);
     has_dense_attributes :=
       existsb (String.eqb "dense_attributes") (dict_keys codedict);
     render_orig := false; original_image_given := false;
     tform_given := false |}.

(** Lines 502-506. *)
Definition run (imagepath : string)
  : result (dict Encode.value * object opaque * object opaque) :=
  images <- load imagepath ;;
  codedict <- Encode.encode E_flame E_detail batch_euler2axis param_dict
                            jaw_type_is_euler images true ;;
  match decode call unpack (default_flags codedict)
               (entry_frame (Codedict codedict) (Other none) (Other none)
                            (Other none)) with
  | Ok (r, _) =>
      match unpack 2 r with
      | Some [opdict; visdict] => Ok (codedict, opdict, visdict)
      | _ => Err ValueError
      end
  | Err e => Err e
  end.

End Run.

(** *** Concrete inputs used by the properties *)

Definition demo_load (imagepath : string) : result T4 := Ok Encode.demo_images.

(** Collaborators that always return. *)
Definition demo_extern (f : string) (args : list (object unit))
  : option (object unit) := Some (Other tt).

Definition demo_unpack (n : nat) (v : object unit)
  : option (list (object unit)) := Some (repeat (Other tt) n).

End Run.

(* ================================================================== *)
(** * Part II: properties *)
(* ================================================================== *)

(** Equality of closed rational expressions. *)
Ltac qc_eq :=
  lazymatch goal with
  | |- @eq Qc _ _ => apply Qc_is_canon; reflexivity
  | |- _ => first [ reflexivity | f_equal; qc_eq ]
  end.

(** ** Generic facts about the containers *)

Section ContainerFacts.

Variable A : Type.

Lemma py_bound_nonneg (len i : Z) :
    (0 <= i)%Z -> py_bound len i = Z.min i len.
  Proof.
    intros Hi. unfold py_bound.
    destruct (Z.ltb_spec i 0); [lia | reflexivity].
  Qed.

Lemma py_slice_nonneg (l : list A) (a b : Z) :
    (0 <= a)%Z -> (0 <= b)%Z ->
    py_slice l a b =
    firstn (Z.to_nat (Z.min b (Z.of_nat (length l)) - Z.min a (Z.of_nat (length l))))
           (skipn (Z.to_nat (Z.min a (Z.of_nat (length l)))) l).
  Proof.
    intros Ha Hb. unfold py_slice.
    now rewrite !py_bound_nonneg by assumption.
  Qed.

Lemma py_slice_length (l : list A) (a b : Z) :
    (0 <= a <= b)%Z ->
    Z.of_nat (length (py_slice l a b)) =
    (Z.min b (Z.of_nat (length l)) - Z.min a (Z.of_nat (length l)))%Z.
  Proof.
    intros H. rewrite py_slice_nonneg by lia.
    rewrite length_firstn, length_skipn. lia.
  Qed.

Lemma firstn_skipn_app (l : list A) (s n m : nat) :
    firstn n (skipn s l) ++ firstn m (skipn (s + n) l) = firstn (n + m) (skipn s l).
  Proof.
    rewrite Nat.add_comm, <- skipn_skipn.
    generalize (skipn s l) as r. clear l s.
    induction n as [|n IH]; intros r; simpl.
    - reflexivity.
    - destruct r as [|x r]; simpl.
      + now rewrite firstn_nil.
      + now rewrite IH.
  Qed.

Lemma py_slice_app (l : list A) (a b c : Z) :
    (0 <= a <= b)%Z -> (b <= c)%Z ->
    py_slice l a b ++ py_slice l b c = py_slice l a c.
  Proof.
    intros Hab Hbc. rewrite !py_slice_nonneg by lia.
    set (len := Z.of_nat (length l)).
    assert (0 <= len)%Z by (unfold len; lia).
    replace (Z.to_nat (Z.min b len)) with
      (Z.to_nat (Z.min a len) + Z.to_nat (Z.min b len - Z.min a len))%nat by lia.
    rewrite firstn_skipn_app. f_equal. lia.
  Qed.

Lemma py_slice_prefix (l : list A) (b : Z) :
    (0 <= b)%Z -> py_slice l 0 b = firstn (Z.to_nat b) l.
  Proof.
    intros Hb. rewrite py_slice_nonneg by lia.
    rewrite (Z.min_l 0) by lia. rewrite Z.sub_0_r. simpl.
    destruct (Z.le_ge_cases b (Z.of_nat (length l))).
    - now rewrite Z.min_l by lia.
    - rewrite Z.min_r by lia. rewrite !firstn_all2 by lia. reflexivity.
  Qed.

Lemma py_slice_empty (l : list A) (a : Z) : (0 <= a)%Z -> py_slice l a a = [].
  Proof.
    intros Ha. rewrite py_slice_nonneg by lia.
    now rewrite Z.sub_diag.
  Qed.

Lemma mapM_ok {B} (f : A -> result B) (g : A -> B) (l : list A) :
    Forall (fun x => f x = Ok (g x)) l -> mapM f l = Ok (map g l).
  Proof.
    induction 1 as [|x l Hx _ IH]; simpl.
    - reflexivity.
    - now rewrite Hx, IH.
  Qed.

Lemma dict_get_set_same (k : string) (v : A) (d : dict A) :
    dict_get k (dict_set k v d) = Some v.
  Proof.
    induction d as [|[k' v'] d IH]; simpl.
    - now rewrite String.eqb_refl.
    - destruct (String.eqb k' k) eqn:E; simpl; now rewrite E.
  Qed.

Lemma dict_get_set_other (k k' : string) (v : A) (d : dict A) :
    k <> k' -> dict_get k' (dict_set k v d) = dict_get k' d.
  Proof.
    intros Hne. induction d as [|[k0 v0] d IH]; simpl.
    - destruct (String.eqb_spec k k'); [contradiction | reflexivity].
    - destruct (String.eqb_spec k0 k) as [->|Hk]; simpl.
      + destruct (String.eqb_spec k k'); [contradiction | reflexivity].
      + now rewrite IH.
  Qed.

Lemma concat_chunks (k n : nat) (l : list A) :
    concat (chunks k n l) = firstn (k * n) l.
  Proof.
    revert l. induction k as [|k IH]; intros l; simpl.
    - reflexivity.
    - rewrite IH. exact (firstn_skipn_app l 0 n (k * n)).
  Qed.

Lemma chunks_shape (k n : nat) (l : list A) :
    k * n <= length l ->
    length (chunks k n l) = k /\ Forall (fun r => length r = n) (chunks k n l).
  Proof.
    revert l. induction k as [|k IH]; intros l Hl; simpl.
    - split; [reflexivity | constructor].
    - simpl in Hl. destruct (IH (skipn n l)) as [H1 H2].
      { rewrite length_skipn. lia. }
      split; [now rewrite H1|]. constructor; [|assumption].
      rewrite length_firstn. lia.
  Qed.

Lemma dict_keys_set {V} (k : string) (v : V) (d : dict V) :
  dict_keys (dict_set k v d) =
  if existsb (String.eqb k) (dict_keys d) then dict_keys d else dict_keys d ++ [k].
Proof.
  unfold dict_keys. induction d as [|[k' v'] d IH]; cbn [dict_set map fst existsb].
  - reflexivity.
  - rewrite (String.eqb_sym k k').
    destruct (String.eqb k' k) eqn:E; cbn [map fst orb].
    + reflexivity.
    + rewrite IH. now destruct (existsb (String.eqb k) (map fst d)).
Qed.

Lemma existsb_eqb_In (k : string) (l : list string) :
  existsb (String.eqb k) l = true <-> In k l.
Proof.
  rewrite existsb_exists. split.
  - intros (x & Hx & E). apply String.eqb_eq in E. now subst.
  - intros H. exists k. split; [assumption | apply String.eqb_refl].
Qed.

Lemma dict_keys_set_fresh {V} (k : string) (v : V) (d : dict V) :
  ~ In k (dict_keys d) -> dict_keys (dict_set k v d) = dict_keys d ++ [k].
Proof.
  intros H. rewrite dict_keys_set.
  destruct (existsb (String.eqb k) (dict_keys d)) eqn:E; [|reflexivity].
  apply existsb_eqb_In in E. contradiction.
Qed.

Lemma dict_keys_set_present {V} (k : string) (v : V) (d : dict V) :
  In k (dict_keys d) -> dict_keys (dict_set k v d) = dict_keys d.
Proof.
  intros H. rewrite dict_keys_set.
  now rewrite (proj2 (existsb_eqb_In k (dict_keys d)) H).
Qed.

End ContainerFacts.

(** ** Parameter codec *)

Module CodecFacts.
Import Codec.
Section CodecFacts.

Variable A : Type.
Implicit Types (code : list (list A)) (items : dict Z) (d : dict (block A)).

Lemma hcat_slices code (a b c : Z) :
    (0 <= a <= b)%Z -> (b <= c)%Z ->
    hcat (slice_cols code a b) (slice_cols code b c) = slice_cols code a c.
  Proof.
    intros Hab Hbc. induction code as [|row code IH]; simpl.
    - reflexivity.
    - now rewrite py_slice_app, IH.
  Qed.

Lemma hcat_assoc (x y z : list (list A)) :
    hcat (hcat x y) z = hcat x (hcat y z).
  Proof.
    revert y z. induction x as [|rx x IH]; intros [|ry y] [|rz z]; simpl;
      try reflexivity.
    now rewrite IH, app_assoc.
  Qed.

Lemma hcat_empty_slice code (acc : list (list A)) (a : Z) :
    (0 <= a)%Z -> length acc = length code ->
    hcat acc (slice_cols code a a) = acc.
  Proof.
    intros Ha. revert code. induction acc as [|r acc IH]; intros [|row code] Hlen;
      simpl in *; try reflexivity; try discriminate.
    rewrite py_slice_empty, app_nil_r by assumption.
    f_equal. apply IH. congruence.
  Qed.

Lemma hcat_nil_rows code :
    hcat (repeat [] (length code)) code = code.
  Proof. induction code; simpl; congruence. Qed.

Lemma length_hcat (x y : list (list A)) :
    length x = length y -> length (hcat x y) = length x.
  Proof.
    revert y. induction x as [|rx x IH]; intros [|ry y] H; simpl in *;
      try reflexivity; try discriminate.
    f_equal. apply IH. congruence.
  Qed.

Lemma length_slice_cols code (a b : Z) :
    length (slice_cols code a b) = length code.
  Proof. apply length_map. Qed.

Lemma reshape_light_ok (t : list (list A)) :
    Forall (fun row => length row = 27) t ->
    reshape_light t = Ok (map (chunks 9 3) t).
  Proof.
    intros H. apply mapM_ok.
    eapply Forall_impl; [|exact H]. simpl. intros row ->. reflexivity.
  Qed.

Lemma reshape_light_err (t : list (list A)) :
    t <> [] -> Forall (fun row => length row <> 27) t ->
    reshape_light t = Err (RuntimeError "shape is invalid for input size").
  Proof.
    intros Hne H. destruct H as [|row t Hrow _]; [contradiction|].
    unfold reshape_light. simpl.
    destruct (Nat.eqb_spec (length row) 27); [contradiction | reflexivity].
  Qed.

Lemma flatten_reshaped (t : list (list A)) :
    Forall (fun row => length row = 27) t ->
    flatten_block (Light (map (chunks 9 3) t)) = t.
  Proof.
    intros H. unfold flatten_block. rewrite map_map.
    induction H as [|row t Hrow _ IH]; cbn [map].
    - reflexivity.
    - rewrite IH. f_equal.
      rewrite concat_chunks. apply firstn_all2. lia.
  Qed.

Lemma reshaped_shape (t : list (list A)) :
    Forall (fun row => length row = 27) t ->
    has_shape3 (map (chunks 9 3) t) (length t) 9 3.
  Proof.
    intros H. split; [apply length_map|].
    apply Forall_map. eapply Forall_impl; [|exact H].
    intros row Hrow. cbv beta in Hrow. apply chunks_shape. rewrite Hrow. lia.
  Qed.

(** Rows of the lighting slice when the tensor has [w] columns. *)
Lemma light_slice_rows code (w start : Z) :
    Forall (fun row => Z.of_nat (length row) = w) code ->
    (0 <= start)%Z ->
    Forall (fun row => Z.of_nat (length row) =
                       (Z.min (start + 27) w - Z.min start w)%Z)
           (slice_cols code start (start + 27)).
  Proof.
    intros Hw Hs. apply Forall_map.
    eapply Forall_impl; [|exact Hw]. simpl. intros row Hrow.
    rewrite py_slice_length by lia. now rewrite Hrow.
  Qed.

Lemma sum_widths_nonneg items :
    Forall (fun kv => (0 <= snd kv)%Z) items -> (0 <= sum_widths items)%Z.
  Proof.
    induction 1 as [|kv items Hkv _ IH]; simpl; lia.
  Qed.

Lemma light_offset_absent items (start : Z) :
    ~ In "light" (dict_keys items) -> light_offset items start = None.
  Proof.
    revert start. induction items as [|[key n] items IH]; intros start Hnot; simpl.
    - reflexivity.
    - destruct (String.eqb_spec key "light") as [->|Hk].
      + exfalso. apply Hnot. now left.
      + apply IH. intros Hin. apply Hnot. now right.
  Qed.

Lemma light_offset_fits items (start off : Z) :
    Forall (fun kv => (0 <= snd kv)%Z) items ->
    (forall n, In ("light", n) items -> n = 27%Z) ->
    light_offset items start = Some off ->
    (start <= off)%Z /\ (off + 27 <= start + sum_widths items)%Z.
  Proof.
    intros Hpos. revert start.
    induction Hpos as [|[key n] items Hn Hpos IH]; intros start H27 Hoff;
      simpl in *.
    - discriminate.
    - destruct (String.eqb_spec key "light") as [->|Hk].
      + injection Hoff as <-. rewrite (H27 n) by now left.
        pose proof (sum_widths_nonneg Hpos). lia.
      + destruct (IH (start + n)%Z) as [H1 H2]; [|assumption|lia].
        intros m Hm. apply H27. now right.
  Qed.

(** What one run of the loop does on a tensor with [w] columns, whatever
  [w] is, as long as the lighting slice is complete. *)
Lemma decompose_loop_spec code (w : Z) :
    Forall (fun row => Z.of_nat (length row) = w) code ->
    forall items start d,
      (0 <= start)%Z ->
      Forall (fun kv => (0 <= snd kv)%Z) items ->
      (forall n, In ("light", n) items -> n = 27%Z) ->
      NoDup (dict_keys items) ->
      (code = [] \/
       forall off, light_offset items start = Some off -> (off + 27 <= w)%Z) ->
      exists d',
        decompose_loop code items start d = Ok d' /\
        (forall k, ~ In k (dict_keys items) -> dict_get k d' = dict_get k d) /\
        (forall acc, length acc = length code ->
           recompose (dict_keys items) d' acc =
           Some (hcat acc (slice_cols code start (start + sum_widths items)))) /\
        (In "light" (dict_keys items) ->
           exists t, dict_get "light" d' = Some (Light t) /\
                     has_shape3 t (length code) 9 3).
  Proof.
    intros Hw items. induction items as [|[key n] rest IH];
      intros start d Hstart Hpos H27 Hnd Hfit.
    - exists d. simpl. repeat split; try tauto.
      intros acc Hacc. rewrite Z.add_0_r. now rewrite hcat_empty_slice.
    - inversion Hpos as [|? ? Hn Hpos']; subst. simpl in Hn.
      inversion Hnd as [|? ? Hfresh Hnd']; subst.
      assert (H27' : forall m, In ("light", m) rest -> m = 27%Z)
        by (intros m Hm; apply H27; now right).
      pose proof (sum_widths_nonneg Hpos') as Hsum.
      simpl decompose_loop.
      destruct (String.eqb_spec key "light") as [->|Hk].
      + assert (n = 27%Z) by (apply H27; now left). subst n.
        set (sl := slice_cols code start (start + 27)).
        assert (Hrows : Forall (fun row => length row = 27) sl).
        { destruct Hfit as [-> | Hfit]; [constructor|].
          specialize (Hfit start). simpl in Hfit.
          specialize (Hfit eq_refl).
          pose proof (light_slice_rows Hw Hstart) as Hl.
          eapply Forall_impl; [|exact Hl]. cbv beta. intros row Hrow. lia. }
        rewrite (reshape_light_ok Hrows). cbn [bind].
        set (d1 := dict_set "light" (Light (map (chunks (A:=A) 9 3) sl))
                            (dict_set "light" (Flat sl) d)).
        destruct (IH (start + 27)%Z d1) as (d' & Hrun & Hkeep & Hcat & _);
          try assumption; try lia.
        { right. intros off Hoff.
          rewrite light_offset_absent in Hoff by assumption. discriminate. }
        assert (Hlight : dict_get "light" d' =
                         Some (Light (map (chunks (A:=A) 9 3) sl))).
        { rewrite Hkeep by assumption. apply dict_get_set_same. }
        exists d'. split; [exact Hrun|]. split; [|split].
        * intros k Hk. simpl in Hk.
          rewrite Hkeep by tauto. unfold d1.
          rewrite !dict_get_set_other by tauto. reflexivity.
        * intros acc Hacc. cbn [dict_keys map fst recompose].
          fold (dict_keys rest). rewrite Hlight, (flatten_reshaped Hrows).
          rewrite Hcat.
          2:{ rewrite length_hcat; unfold sl; rewrite ?length_slice_cols; congruence. }
          rewrite hcat_assoc. unfold sl. rewrite hcat_slices by lia.
          do 3 f_equal. unfold sum_widths. cbn [fold_right snd]. lia.
        * intros _. eexists. split; [exact Hlight|].
          replace (length code) with (length sl) by apply length_slice_cols.
          now apply reshaped_shape.
      + set (sl := slice_cols code start (start + n)).
        set (d1 := dict_set key (Flat sl) d).
        destruct (IH (start + n)%Z d1) as (d' & Hrun & Hkeep & Hcat & Hsh);
          try assumption; try lia.
        { destruct Hfit as [-> | Hfit]; [now left | right].
          intros off Hoff. apply Hfit. simpl.
          destruct (String.eqb_spec key "light"); [contradiction | exact Hoff]. }
        exists d'. split; [exact Hrun|]. split; [|split].
        * intros k Hk0. simpl in Hk0.
          rewrite Hkeep by tauto. unfold d1.
          rewrite dict_get_set_other by tauto. reflexivity.
        * intros acc Hacc. cbn [dict_keys map fst recompose].
          fold (dict_keys rest).
          rewrite Hkeep by assumption. unfold d1 at 1.
          rewrite dict_get_set_same. cbn [flatten_block].
          rewrite Hcat.
          2:{ rewrite length_hcat; unfold sl; rewrite ?length_slice_cols; congruence. }
          rewrite hcat_assoc. unfold sl. rewrite hcat_slices by lia.
          do 3 f_equal. unfold sum_widths. cbn [fold_right snd]. lia.
        * intros Hin. apply Hsh. simpl in Hin. destruct Hin; [congruence | assumption].
  Qed.

(** The only failure of the loop: an incomplete lighting slice. *)
Lemma decompose_loop_light_short code (w : Z) :
    Forall (fun row => Z.of_nat (length row) = w) code ->
    code <> [] ->
    forall items start d off,
      (0 <= start)%Z ->
      Forall (fun kv => (0 <= snd kv)%Z) items ->
      (forall n, In ("light", n) items -> n = 27%Z) ->
      light_offset items start = Some off ->
      (w < off + 27)%Z ->
      decompose_loop code items start d =
      Err (RuntimeError "shape is invalid for input size").
  Proof.
    intros Hw Hne items. induction items as [|[key n] rest IH];
      intros start d off Hstart Hpos H27 Hoff Hshort; simpl in Hoff.
    - discriminate.
    - inversion Hpos as [|? ? Hn Hpos']; subst. simpl in Hn.
      simpl decompose_loop.
      destruct (String.eqb_spec key "light") as [->|Hk].
      + injection Hoff as <-.
        assert (n = 27%Z) by (apply H27; now left). subst n.
        rewrite reshape_light_err; [reflexivity | |].
        * destruct code; [contradiction | discriminate].
        * pose proof (light_slice_rows Hw Hstart) as Hl.
          eapply Forall_impl; [|exact Hl]. cbv beta. intros row Hrow. lia.
      + eapply IH; eauto; try lia.
        intros m Hm. apply H27. now right.
  Qed.

Lemma slice_all_columns code (w : Z) :
    Forall (fun row => Z.of_nat (length row) = w) code ->
    slice_cols code 0 w = code.
  Proof.
    induction 1 as [|row code Hrow _ IH]; simpl.
    - reflexivity.
    - rewrite IH. f_equal. rewrite py_slice_prefix by lia.
      apply firstn_all2. lia.
  Qed.

(** C1. For a flat tensor whose width is the sum of the widths of a valid
  block spec, [decompose_code] returns a dictionary; concatenating its
  blocks in spec order, the lighting block flattened back, gives the
  tensor again, and the lighting block has shape (batch, 9, 3). *)
Theorem decompose_code_roundtrip code (num_dict : dict Z) :
    valid_spec num_dict ->
    has_shape2 code (length code) (sum_widths num_dict) ->
    exists d,
      decompose_code code num_dict = Ok d /\
      recompose (dict_keys num_dict) d (repeat [] (length code)) = Some code /\
      (In "light" (dict_keys num_dict) ->
       exists t, dict_get "light" d = Some (Light t) /\
                 has_shape3 t (length code) 9 3).
  Proof.
    intros (Hnd & Hpos & H27) [_ Hw].
    destruct (@decompose_loop_spec code _ Hw num_dict 0%Z [])
      as (d & Hrun & _ & Hcat & Hlight); try assumption; try lia.
    { right. intros off Hoff.
      destruct (light_offset_fits _ Hpos H27 Hoff). lia. }
    exists d. split; [exact Hrun|]. split; [|exact Hlight].
    rewrite Hcat by apply repeat_length.
    rewrite Z.add_0_l, (slice_all_columns Hw). now rewrite hcat_nil_rows.
  Qed.

(** C2, as the code has it.  The total width is never compared with the
  sum of the declared widths: on a tensor of any width [w] the call
  returns the blocks that cover the leading columns (short or empty
  ones past the end of a narrow tensor), and it raises only where the
  lighting slice is incomplete and cannot be reshaped. *)
Theorem decompose_code_no_width_check code (num_dict : dict Z) (w : Z) :
    valid_spec num_dict ->
    has_shape2 code (length code) w ->
    ((code = [] \/
      forall off, light_offset num_dict 0 = Some off -> (off + 27 <= w)%Z) ->
     exists d,
       decompose_code code num_dict = Ok d /\
       recompose (dict_keys num_dict) d (repeat [] (length code)) =
       Some (slice_cols code 0 (sum_widths num_dict))) /\
    (code <> [] ->
     forall off, light_offset num_dict 0 = Some off -> (w < off + 27)%Z ->
     decompose_code code num_dict =
     Err (RuntimeError "shape is invalid for input size")).
  Proof.
    intros (Hnd & Hpos & H27) [_ Hw]. split.
    - intros Hfit.
      destruct (@decompose_loop_spec code _ Hw num_dict 0%Z [])
        as (d & Hrun & _ & Hcat & _); try assumption; try lia.
      exists d. split; [exact Hrun|].
      rewrite Hcat by apply repeat_length.
      rewrite Z.add_0_l. f_equal.
      rewrite <- (length_slice_cols code 0 (sum_widths num_dict)) at 1.
      apply hcat_nil_rows.
    - intros Hne off Hoff Hshort.
      eapply decompose_loop_light_short; eauto. lia.
  Qed.

(** The loop appends the keys of [items], in order, to those already
  stored. *)
Lemma decompose_loop_keys code :
  forall items start d0 d,
    decompose_loop code items start d0 = Ok d ->
    NoDup (dict_keys d0 ++ dict_keys items) ->
    dict_keys d = dict_keys d0 ++ dict_keys items.
Proof.
  induction items as [|[key n] rest IH]; intros start d0 d Hrun Hnd.
  - simpl in Hrun. injection Hrun as <-. simpl. now rewrite app_nil_r.
  - cbn [decompose_loop] in Hrun. cbn [dict_keys map fst] in *.
    assert (Hfresh : ~ In key (dict_keys d0)).
    { intros Hin. apply NoDup_remove_2 in Hnd. apply Hnd.
      apply in_or_app. now left. }
    assert (Hnd' : NoDup ((dict_keys d0 ++ [key]) ++ map fst rest)).
    { rewrite <- app_assoc. exact Hnd. }
    destruct (String.eqb key "light").
    + destruct (reshape_light _) as [r|e]; [|discriminate]. cbn [bind] in Hrun.
      apply IH in Hrun.
      * rewrite Hrun. rewrite dict_keys_set_present.
        -- rewrite dict_keys_set_fresh by assumption. now rewrite <- app_assoc.
        -- rewrite dict_keys_set_fresh by assumption.
           apply in_or_app. right. now left.
      * rewrite dict_keys_set_present.
        -- now rewrite dict_keys_set_fresh.
        -- rewrite dict_keys_set_fresh by assumption.
           apply in_or_app. right. now left.
    + apply IH in Hrun.
      * rewrite Hrun. rewrite dict_keys_set_fresh by assumption.
        now rewrite <- app_assoc.
      * now rewrite dict_keys_set_fresh.
Qed.

(** Entries under other keys are left alone. *)
Lemma decompose_loop_other code :
  forall items start d0 d,
    decompose_loop code items start d0 = Ok d ->
    forall k, ~ In k (dict_keys items) -> dict_get k d = dict_get k d0.
Proof.
  induction items as [|[key n] rest IH]; intros start d0 d Hrun k Hk.
  - simpl in Hrun. now injection Hrun as <-.
  - cbn [decompose_loop] in Hrun. cbn [dict_keys map fst] in Hk.
    assert (Hne : key <> k) by (intros ->; apply Hk; now left).
    assert (Hk' : ~ In k (dict_keys rest)) by (intros H; apply Hk; now right).
    destruct (String.eqb key "light").
    + destruct (reshape_light _) as [r|e]; [|discriminate]. cbn [bind] in Hrun.
      rewrite (IH _ _ _ Hrun k Hk').
      now rewrite !dict_get_set_other.
    + rewrite (IH _ _ _ Hrun k Hk').
      now rewrite dict_get_set_other.
Qed.

(** What the loop stores under each key. *)
Lemma decompose_loop_blocks code :
  forall items start d0 d,
    decompose_loop code items start d0 = Ok d ->
    NoDup (dict_keys items) ->
    forall key a b,
      columns_of key items start = Some (a, b) ->
      (key <> "light" -> dict_get key d = Some (Flat (slice_cols code a b))) /\
      (key = "light" ->
       exists t, reshape_light (slice_cols code a b) = Ok t /\
                 dict_get key d = Some (Light t)).
Proof.
  induction items as [|[k n] rest IH]; intros start d0 d Hrun Hnd key a b Hcol.
  - discriminate.
  - cbn [decompose_loop] in Hrun. cbn [columns_of] in Hcol.
    cbn [dict_keys map fst] in Hnd. inversion Hnd as [|? ? Hfresh Hnd']; subst.
    destruct (String.eqb_spec k key) as [->|Hne].
    + injection Hcol as <- <-.
      destruct (String.eqb_spec key "light") as [->|Hl].
      * destruct (reshape_light _) as [r|e] eqn:Hr; [|discriminate].
        cbn [bind] in Hrun. split; [congruence|]. intros _.
        exists r. split; [reflexivity|].
        rewrite (decompose_loop_other _ _ _ _ Hrun _ Hfresh).
        apply dict_get_set_same.
      * split; [|contradiction]. intros _.
        rewrite (decompose_loop_other _ _ _ _ Hrun _ Hfresh).
        apply dict_get_set_same.
    + destruct (String.eqb k "light").
      * destruct (reshape_light _) as [r|e]; [|discriminate]. cbn [bind] in Hrun.
        exact (IH _ _ _ Hrun Hnd' key a b Hcol).
      * exact (IH _ _ _ Hrun Hnd' key a b Hcol).
Qed.

(** The only way out of the loop other than its end. *)
Lemma decompose_loop_failure code :
  forall items start d0 e,
    decompose_loop code items start d0 = Err e ->
    e = RuntimeError "shape is invalid for input size" /\
    In "light" (dict_keys items) /\ code <> [].
Proof.
  induction items as [|[k n] rest IH]; intros start d0 e Hrun.
  - discriminate.
  - cbn [decompose_loop] in Hrun. cbn [dict_keys map fst].
    destruct (String.eqb_spec k "light") as [->|Hl].
    + destruct (reshape_light _) as [r|e'] eqn:Hr.
      * cbn [bind] in Hrun. destruct (IH _ _ _ Hrun) as (He & Hin & Hne).
        split; [exact He|]. split; [now right | exact Hne].
      * cbn [bind] in Hrun. injection Hrun as <-.
        split; [|split; [now left|]].
        -- unfold reshape_light in Hr. clear - Hr.
           revert Hr. generalize (slice_cols code start (start + n)).
           induction l as [|row l IHl]; [discriminate|]. cbn [mapM].
           destruct (Nat.eqb (length row) 27); cbn [bind].
           ++ destruct (mapM _ l) as [ys|e0]; cbn [bind]; [discriminate|].
              intros H. injection H as <-. now apply IHl.
           ++ intros H. now injection H as <-.
        -- intros ->. discriminate.
    + destruct (IH _ _ _ Hrun) as (He & Hin & Hne).
      split; [exact He|]. split; [now right | exact Hne].
Qed.

Lemma columns_of_app (key : string) (n : Z) (before after : dict Z) (start : Z) :
  ~ In key (dict_keys before) ->
  columns_of key (before ++ (key, n) :: after) start =
  Some ((start + sum_widths before)%Z, (start + sum_widths before + n)%Z).
Proof.
  revert start. induction before as [|[k m] before IH]; intros start Hk.
  - cbn [app columns_of sum_widths fold_right]. rewrite String.eqb_refl.
    now rewrite Z.add_0_r.
  - cbn [app columns_of]. cbn [dict_keys map fst] in Hk.
    destruct (String.eqb_spec k key) as [->|Hne]; [exfalso; apply Hk; now left|].
    rewrite IH by (intros H; apply Hk; now right).
    unfold sum_widths. cbn [fold_right snd]. do 2 f_equal; lia.
Qed.

(** X1. A successful call returns a dictionary with the keys of [num_dict],
  in the order of [num_dict]. *)
Theorem decompose_code_keys code (num_dict : dict Z) (d : dict (block A)) :
  NoDup (dict_keys num_dict) ->
  decompose_code code num_dict = Ok d ->
  dict_keys d = dict_keys num_dict.
Proof.
  intros Hnd Hrun.
  exact (decompose_loop_keys code num_dict 0%Z [] Hrun Hnd).
Qed.

(** X2. The block stored under a key is the slice of the columns that start
  at the sum of the widths declared before it, whatever the shape of the
  tensor and the sign of the widths; under the key [light] it is that
  slice reshaped to (batch, 9, 3). *)
Theorem decompose_code_blocks code (before after : dict Z) (key : string) (n : Z)
        (d : dict (block A)) :
  let num_dict := before ++ (key, n) :: after in
  let start := sum_widths before in
  NoDup (dict_keys num_dict) ->
  decompose_code code num_dict = Ok d ->
  (key <> "light" ->
   dict_get key d = Some (Flat (slice_cols code start (start + n)))) /\
  (key = "light" ->
   exists t, reshape_light (slice_cols code start (start + n)) = Ok t /\
             dict_get key d = Some (Light t)).
Proof.
  intros num_dict start Hnd Hrun.
  apply (decompose_loop_blocks code num_dict 0%Z [] Hrun Hnd).
  unfold num_dict. rewrite columns_of_app.
  - reflexivity.
  - unfold num_dict, dict_keys in Hnd. rewrite map_app in Hnd.
    cbn [map fst] in Hnd. apply NoDup_remove_2 in Hnd.
    intros H. apply Hnd. apply in_or_app. now left.
Qed.

(** X3. On a two-dimensional tensor [code] and a [num_dict] whose values are
  all integers, the inputs that the types of the model admit, the one
  exception [decompose_code] raises is the [RuntimeError] of the [reshape]
  of the lighting block, on a non-empty batch.  A one-dimensional tensor
  and a [num_dict] with an entry that is no integer, on which the program
  raises [IndexError] and [TypeError], are outside these types. *)
Theorem decompose_code_only_failure code (num_dict : dict Z) (e : error) :
  decompose_code code num_dict = Err e ->
  e = RuntimeError "shape is invalid for input size" /\
  In "light" (dict_keys num_dict) /\
  code <> [].
Proof. apply decompose_loop_failure. Qed.

End CodecFacts.

Lemma demo_spec_valid : valid_spec demo_spec.
  Proof.
    split; [|split].
    - repeat constructor; simpl; intuition discriminate.
    - repeat constructor; simpl; lia.
    - intros n [H|[H|[H|[]]]]; inversion H; reflexivity.
  Qed.

Lemma decompose_code_roundtrip_witness :
    exists d,
      decompose_code demo_code demo_spec = Ok d /\
      recompose (dict_keys demo_spec) d (repeat [] (length demo_code)) =
      Some demo_code /\
      (In "light" (dict_keys demo_spec) ->
       exists t, dict_get "light" d = Some (Light t) /\
                 has_shape3 t (length demo_code) 9 3).
  Proof.
    apply (@decompose_code_roundtrip Z demo_code demo_spec).
    - exact demo_spec_valid.
    - split; [reflexivity|]. repeat constructor.
  Defined.

(** A six-column tensor against a spec of total width three. *)
Lemma decompose_code_no_width_check_witness :
    (exists d,
       decompose_code [[1; 2; 3; 4; 5; 6]%Z] [("shape", 2%Z); ("cam", 1%Z)] = Ok d /\
       recompose ["shape"; "cam"] d [[]] = Some [[1; 2; 3]%Z]).
  Proof.
    apply (@decompose_code_no_width_check Z [[1; 2; 3; 4; 5; 6]%Z]
             [("shape", 2%Z); ("cam", 1%Z)] 6).
    - split; [|split].
      + repeat constructor; simpl; intuition discriminate.
      + repeat constructor; simpl; lia.
      + intros n [H|[H|[]]]; discriminate.
    - split; [reflexivity|]. repeat constructor.
    - right. simpl. discriminate.
  Defined.

(** C2 as stated fails: width 5 against declared widths summing to 3 is
  accepted, and the two trailing columns are dropped. *)
Lemma decompose_code_accepts_wrong_width :
    let code := [[1; 2; 3; 4; 5]%Z] in
    let num_dict := [("shape", 3%Z)] in
    has_shape2 code 1 5 /\
    sum_widths num_dict <> 5%Z /\
    decompose_code code num_dict = Ok [("shape", Flat [[1; 2; 3]%Z])].
  Proof.
    simpl. split; [|split].
    - split; [reflexivity | repeat constructor].
    - discriminate.
    - reflexivity.
  Qed.

Lemma decompose_code_keys_witness :
  exists d, decompose_code demo_code demo_spec = Ok d /\
            dict_keys d = ["shape"; "light"; "cam"].
Proof.
  eexists. split; [reflexivity|].
  apply (@decompose_code_keys Z demo_code demo_spec).
  - repeat constructor; simpl; intuition discriminate.
  - reflexivity.
Defined.

(** The camera block of the 32-column example: its last three columns. *)
Lemma decompose_code_blocks_witness :
  exists d, decompose_code demo_code demo_spec = Ok d /\
            dict_get "cam" d = Some (Flat [[29; 30; 31]%Z]).
Proof.
  eexists. split; [reflexivity|].
  refine (proj1 (@decompose_code_blocks Z demo_code
                   [("shape", 2%Z); ("light", 27%Z)] [] "cam" 3%Z _ _ _) _).
  - repeat constructor; simpl; intuition discriminate.
  - reflexivity.
  - discriminate.
Defined.

(** Three columns where the lighting block needs 27. *)
Lemma decompose_code_only_failure_witness :
  decompose_code [[1; 2; 3]%Z] [("light", 27%Z)] =
    Err (RuntimeError "shape is invalid for input size") /\
  In "light" (dict_keys [("light", 27%Z)]) /\
  [[1; 2; 3]%Z] <> [].
Proof.
  split; [reflexivity|].
  exact (proj2 (@decompose_code_only_failure Z [[1; 2; 3]%Z] [("light", 27%Z)]
                  _ eq_refl)).
Defined.

End CodecFacts.

(** ** Tensors given by their entries *)

Module TensorFacts.
Import Tensor.

Section Tab.

Context {A : Type}.

Lemma tab_S (n : nat) (f : nat -> A) :
    tab (S n) f = f 0 :: tab n (fun i => f (S i)).
  Proof.
    unfold tab. simpl. f_equal. rewrite <- seq_shift. now rewrite map_map.
  Qed.

Lemma length_tab (n : nat) (f : nat -> A) : length (tab n f) = n.
  Proof. unfold tab. now rewrite length_map, length_seq. Qed.

Lemma tab_ext (n : nat) (f g : nat -> A) :
    (forall i, i < n -> f i = g i) -> tab n f = tab n g.
  Proof.
    intros H. unfold tab. apply map_ext_in.
    intros i Hi. apply in_seq in Hi. apply H. lia.
  Qed.

Lemma nth_tab (n i : nat) (f : nat -> A) (d : A) :
    i < n -> nth i (tab n f) d = f i.
  Proof.
    intros Hi. unfold tab.
    rewrite (nth_indep _ d (f 0)) by now rewrite length_map, length_seq.
    rewrite map_nth. now rewrite seq_nth.
  Qed.

Lemma list_as_tab (l : list A) (d : A) :
    l = tab (length l) (fun i => nth i l d).
  Proof.
    induction l as [|x l IH]; [reflexivity|].
    simpl length. rewrite tab_S. simpl. now rewrite <- IH.
  Qed.

Lemma firstn_tab (k n : nat) (f : nat -> A) :
    firstn k (tab n f) = tab (Nat.min k n) f.
  Proof.
    revert n f. induction k as [|k IH]; intros [|n] f; try reflexivity.
    simpl Nat.min. rewrite !tab_S. simpl. now rewrite IH.
  Qed.

Lemma map_tab {B} (g : A -> B) (n : nat) (f : nat -> A) :
    map g (tab n f) = tab n (fun i => g (f i)).
  Proof. unfold tab. now rewrite map_map. Qed.

End Tab.

Section Broadcast.

Context {A B C : Type}.
Variable f : A -> B -> result C.

Lemma mapM_tab {X Y} (g : X -> result Y) (n : nat) (a : nat -> X) (c : nat -> Y) :
    (forall i, i < n -> g (a i) = Ok (c i)) ->
    mapM g (tab n a) = Ok (tab n c).
  Proof.
    revert a c. induction n as [|n IH]; intros a c H.
    - reflexivity.
    - rewrite !tab_S. simpl. rewrite H by lia. simpl.
      rewrite (IH _ (fun i => c (S i))); [reflexivity|].
      intros i Hi. apply H. lia.
  Qed.

Lemma zipM_tab (n : nat) (a : nat -> A) (b : nat -> B) (c : nat -> C) :
    (forall i, i < n -> f (a i) (b i) = Ok (c i)) ->
    zipM f (tab n a) (tab n b) = Ok (tab n c).
  Proof.
    revert a b c. induction n as [|n IH]; intros a b c H.
    - reflexivity.
    - rewrite !tab_S. simpl. rewrite H by lia. simpl.
      rewrite (IH _ _ (fun i => c (S i))); [reflexivity|].
      intros i Hi. apply H. lia.
  Qed.

Lemma bidx_one (i : nat) : bidx 1 i = 0.
  Proof. reflexivity. Qed.

Lemma bidx_same (n i : nat) : i < n -> bidx n i = i.
  Proof.
    intros Hi. unfold bidx. destruct (Nat.eqb_spec n 1); [lia | reflexivity].
  Qed.

Lemma broadcast_tab (n1 n2 n : nat) (a : nat -> A) (b : nat -> B) (c : nat -> C) :
    bdim n1 n2 n ->
    (forall i, i < n -> f (a (bidx n1 i)) (b (bidx n2 i)) = Ok (c i)) ->
    broadcast f (tab n1 a) (tab n2 b) = Ok (tab n c).
  Proof.
    intros [[-> ->] | [[-> ->] | [-> ->]]] H.
    - destruct n as [|[|n]].
      + reflexivity.
      + pose proof (H 0 (Nat.lt_0_succ 0)) as H0. cbn in H0 |- *.
        now rewrite H0.
      + change (zipM f (tab (S (S n)) a) (tab (S (S n)) b) = Ok (tab (S (S n)) c)).
        apply zipM_tab. intros i Hi. rewrite <- H by assumption.
        now rewrite !bidx_same.
    - change (mapM (f (a 0)) (tab n b) = Ok (tab n c)).
      apply mapM_tab. intros i Hi. rewrite <- H by assumption.
      destruct (Nat.eq_dec n 1) as [->|Hn].
      + now replace i with 0 by lia.
      + unfold bidx at 2. destruct (Nat.eqb_spec n 1); [contradiction | reflexivity].
    - destruct n as [|[|n]].
      + reflexivity.
      + pose proof (H 0 (Nat.lt_0_succ 0)) as H0. cbn in H0 |- *.
        now rewrite H0.
      + change (mapM (fun x => f x (b 0)) (tab (S (S n)) a) = Ok (tab (S (S n)) c)).
        apply mapM_tab. intros i Hi. rewrite <- H by assumption.
        now rewrite bidx_same.
  Qed.

End Broadcast.

Section Tensor4.

Implicit Types (t : T4) (f g : nat -> nat -> nat -> nat -> Qc).

Lemma tab4_ext (b c h w : nat) f g :
    (forall i j y x, i < b -> j < c -> y < h -> x < w -> f i j y x = g i j y x) ->
    tab4 b c h w f = tab4 b c h w g.
  Proof.
    intros E. unfold tab4.
    apply tab_ext; intros i Hi. apply tab_ext; intros j Hj.
    apply tab_ext; intros y Hy. apply tab_ext; intros x Hx. now apply E.
  Qed.

Lemma get4_tab4 (b c h w : nat) f (i j y x : nat) :
    i < b -> j < c -> y < h -> x < w ->
    get4 (tab4 b c h w f) i j y x = f i j y x.
  Proof.
    intros Hi Hj Hy Hx. unfold get4, tab4.
    now rewrite !nth_tab by assumption.
  Qed.

Lemma tab4_shape (b c h w : nat) f : has_shape4 (tab4 b c h w f) b c h w.
  Proof.
    unfold has_shape4, tab4. split; [apply length_tab|].
    unfold tab. apply Forall_map, Forall_forall. intros i _.
    split; [now rewrite length_map, length_seq|].
    apply Forall_map, Forall_forall. intros j _.
    split; [now rewrite length_map, length_seq|].
    apply Forall_map, Forall_forall. intros y _.
    now rewrite length_map, length_seq.
  Qed.

Lemma shape4_as_tab t (b c h w : nat) :
    has_shape4 t b c h w -> t = tab4 b c h w (get4 t).
  Proof.
    intros [Hb Himg]. unfold tab4, get4, T4, T3, T2, T1 in *.
    rewrite (list_as_tab t []) at 1. rewrite Hb.
    apply tab_ext; intros i Hi. rewrite <- Hb in Hi.
    destruct (proj1 (Forall_nth _ _) Himg i [] Hi) as [Hc Hch].
    rewrite (list_as_tab (nth i t []) []) at 1. rewrite Hc.
    apply tab_ext; intros j Hj. rewrite <- Hc in Hj.
    destruct (proj1 (Forall_nth _ _) Hch j [] Hj) as [Hh Hrow].
    rewrite (list_as_tab (nth j (nth i t []) []) []) at 1. rewrite Hh.
    apply tab_ext; intros y Hy. rewrite <- Hh in Hy.
    pose proof (proj1 (Forall_nth _ _) Hrow y [] Hy) as Hw.
    cbv beta in Hw.
    rewrite (list_as_tab (nth y (nth j (nth i t []) []) []) 0%Qc) at 1.
    now rewrite Hw.
  Qed.

Lemma lift4_tab (op : Qc -> Qc -> Qc)
        (b1 b2 b c1 c2 c h1 h2 h w1 w2 w : nat) f g :
    bdim b1 b2 b -> bdim c1 c2 c -> bdim h1 h2 h -> bdim w1 w2 w ->
    lift4 op (tab4 b1 c1 h1 w1 f) (tab4 b2 c2 h2 w2 g) =
    Ok (tab4 b c h w (fun i j y x =>
          op (f (bidx b1 i) (bidx c1 j) (bidx h1 y) (bidx w1 x))
             (g (bidx b2 i) (bidx c2 j) (bidx h2 y) (bidx w2 x)))).
  Proof.
    intros Hb Hc Hh Hw. unfold lift4, tab4.
    apply broadcast_tab; [exact Hb|]. intros i _.
    apply broadcast_tab; [exact Hc|]. intros j _.
    apply broadcast_tab; [exact Hh|]. intros y _.
    apply broadcast_tab; [exact Hw|]. intros x _. reflexivity.
  Qed.

Lemma channels3_tab4 (b c h w : nat) f :
    channels3 (tab4 b c h w f) = tab4 b (Nat.min 3 c) h w f.
  Proof.
    unfold channels3, tab4. rewrite map_tab.
    apply tab_ext; intros i _. apply firstn_tab.
  Qed.

Lemma one_minus_tab4 (b c h w : nat) f :
    one_minus (tab4 b c h w f) = tab4 b c h w (fun i j y x => (1 - f i j y x)%Qc).
  Proof.
    unfold one_minus, map4, tab4. rewrite map_tab.
    apply tab_ext; intros i _. rewrite map_tab.
    apply tab_ext; intros j _. rewrite map_tab.
    apply tab_ext; intros y _. now rewrite map_tab.
  Qed.

Lemma bdim_same (n : nat) : bdim n n n.
  Proof. left. now split. Qed.

Lemma bdim_left1 (n : nat) : bdim 1 n n.
  Proof. right. left. now split. Qed.

Lemma bdim_right1 (n : nat) : bdim n 1 n.
  Proof. right. right. now split. Qed.

End Tensor4.

(** Replace a tensor of known shape by the table of its entries. *)
Ltac as_tab H :=
  let E := fresh "E" in
  pose proof (shape4_as_tab H) as E;
  match type of E with
  | ?t = tab4 _ _ _ _ ?g =>
      let f := fresh "f" in
      let Hf := fresh "Hf" in
      remember g as f eqn:Hf in *; clear Hf; clear H; subst t
  end.

Ltac bidx_simpl :=
  repeat match goal with
         | H : (?i < ?n)%nat |- context [bidx ?n ?i] => rewrite (@bidx_same n i H)
         end;
  rewrite ?bidx_one.

End TensorFacts.

(** ** Rounding to nearest in float32 *)

Module Float32Facts.
Import SpecFloat Float32.
Local Open Scope Z_scope.

Lemma digits2_pos_bounds (p : positive) :
  2 ^ (Z.pos (digits2_pos p) - 1) <= Z.pos p < 2 ^ Z.pos (digits2_pos p).
Proof.
  induction p as [p IH|p IH|]; cbn [digits2_pos].
  - rewrite Pos2Z.inj_succ.
    replace (Z.succ (Z.pos (digits2_pos p)) - 1) with (Z.succ (Z.pos (digits2_pos p) - 1)) by lia.
    rewrite !Z.pow_succ_r by lia. lia.
  - rewrite Pos2Z.inj_succ.
    replace (Z.succ (Z.pos (digits2_pos p)) - 1) with (Z.succ (Z.pos (digits2_pos p) - 1)) by lia.
    rewrite !Z.pow_succ_r by lia. lia.
  - cbn. lia.
Qed.

Lemma shr_1_spec (R : shr_record) :
  0 <= shr_m R ->
  shr_m (shr_1 R) = shr_m R / 2 /\
  shr_r (shr_1 R) = Z.odd (shr_m R) /\
  shr_s (shr_1 R) = shr_r R || shr_s R.
Proof.
  destruct R as [[|[p|p|]|p] r s]; cbn [shr_m shr_r shr_s shr_1]; intros H;
    try lia; repeat split; try reflexivity.
  - rewrite Pos2Z.inj_xI. apply Z.div_unique with 1; lia.
  - rewrite Pos2Z.inj_xO. apply Z.div_unique with 0; lia.
Qed.

Lemma shifted_step (m k : Z) (R : shr_record) :
  0 <= m -> 0 <= k -> shifted m k R -> shifted m (k + 1) (shr_1 R).
Proof.
  intros Hm Hk [HR Hrs].
  assert (Hpos : 0 < 2 ^ k) by (apply Z.pow_pos_nonneg; lia).
  assert (H0 : 0 <= shr_m R) by (rewrite HR; apply Z.div_pos; lia).
  destruct (shr_1_spec R H0) as (E1 & E2 & E3).
  assert (Epow : 2 ^ (k + 1) = 2 ^ k * 2) by (rewrite Z.pow_add_r by lia; reflexivity).
  split.
  - rewrite E1, HR, Epow. now rewrite Z.div_div by lia.
  - rewrite E2, E3, Epow, HR. intros Hflag.
    rewrite Z.rem_mul_r by lia.
    pose proof (Z.mod_pos_bound m (2 ^ k) Hpos) as Hb1.
    pose proof (Z.mod_pos_bound (m / 2 ^ k) 2 ltac:(lia)) as Hb2.
    apply orb_true_iff in Hflag. destruct Hflag as [Hodd | Hold].
    + rewrite Zodd_mod in Hodd. apply Z.eqb_eq in Hodd. nia.
    + specialize (Hrs Hold). nia.
Qed.

Lemma shifted_iter (m : Z) (p : positive) :
  0 <= m ->
  forall (k : Z) (R : shr_record),
    0 <= k -> shifted m k R -> shifted m (k + Z.pos p) (iter_pos shr_1 p R).
Proof.
  intros Hm. induction p as [p IH|p IH|]; intros k R Hk HR; cbn [iter_pos].
  - replace (k + Z.pos p~1) with (k + 1 + Z.pos p + Z.pos p) by lia.
    apply IH; [lia|]. apply IH; [lia|]. now apply shifted_step.
  - replace (k + Z.pos p~0) with (k + Z.pos p + Z.pos p) by lia.
    apply IH; [lia|]. now apply IH.
  - now apply shifted_step.
Qed.

Lemma shifted_start (m : Z) : shifted m 0 (shr_record_of_loc m loc_Exact).
Proof.
  split; cbn; [now rewrite Z.div_1_r | discriminate].
Qed.

(** A shift of an exact record: the quotient, and flags that are set only
  when bits were lost. *)
Lemma shr_exact (m e n : Z) :
  0 <= m ->
  exists R,
    shr (shr_record_of_loc m loc_Exact) e n = (R, e + Z.max n 0) /\
    shifted m (Z.max n 0) R.
Proof.
  intros Hm. unfold shr. destruct n as [|p|p].
  - eexists. split; [rewrite Z.add_0_r; reflexivity | apply shifted_start].
  - eexists. split; [reflexivity|].
    replace (Z.max (Z.pos p) 0) with (0 + Z.pos p) by lia.
    apply shifted_iter; [assumption | lia | apply shifted_start].
  - eexists. split; [now rewrite Z.add_0_r | apply shifted_start].
Qed.

Lemma fexp32 (x : Z) : fexp prec emax x = Z.max (x - 24) (-149).
Proof. reflexivity. Qed.

(** The last step of a rounding, on a mantissa and an exponent that stand
  for a number of [0,1]. *)
Lemma normalize_unit (m e : Z) :
  0 <= m -> e <= 0 -> m <= 2 ^ (- e) ->
  in_unit
    (let '(mrs, e') := shr_fexp prec emax m e loc_Exact in
     match shr_m mrs with
     | Z0 => S754_zero false
     | Zpos m' => if e' <=? emax - prec
                  then S754_finite false m' e' else S754_infinity false
     | Zneg _ => S754_nan
     end) = true.
Proof.
  intros Hm He Hle. unfold shr_fexp.
  set (n := fexp prec emax (Zdigits2 m + e) - e).
  destruct (shr_exact e n Hm) as (R & -> & HR & _).
  assert (Hpos : 0 < 2 ^ Z.max n 0) by (apply Z.pow_pos_nonneg; lia).
  assert (Hq : 0 <= shr_m R) by (rewrite HR; apply Z.div_pos; lia).
  destruct (shr_m R) as [|q|q] eqn:Eq; [reflexivity | | lia].
  (* the exponent after the shift *)
  assert (Hd : Zdigits2 m + e <= 1).
  { destruct m as [|pm|pm]; [cbn; lia | | lia].
    cbn [Zdigits2]. pose proof (digits2_pos_bounds pm) as [Hlo _].
    assert (2 ^ (Z.pos (digits2_pos pm) - 1) <= 2 ^ (- e)) by lia.
    apply Z.pow_le_mono_r_iff in H; lia. }
  assert (He' : e + Z.max n 0 <= 0).
  { unfold n. rewrite fexp32. lia. }
  replace (e + Z.max n 0 <=? emax - prec) with true
    by (symmetry; apply Z.leb_le; unfold emax, prec; lia).
  cbv iota. cbn [in_unit]. apply andb_true_iff. split; [now apply Z.leb_le|].
  apply Z.leb_le. rewrite HR.
  replace (- (e + Z.max n 0)) with (- e - Z.max n 0) by lia.
  rewrite Z.pow_sub_r by lia.
  apply Z.div_le_mono; lia.
Qed.

(** Rounding to nearest keeps a number of [0,1] in [0,1]: 1 is a float. *)
Lemma round_unit (m : positive) (e : Z) :
  e <= 0 -> Z.pos m <= 2 ^ (- e) ->
  in_unit (binary_round_aux prec emax false (Z.pos m) e loc_Exact) = true.
Proof.
  intros He Hle. unfold binary_round_aux, shr_fexp at 1.
  set (n := fexp prec emax (Zdigits2 (Z.pos m) + e) - e).
  destruct (shr_exact e n (Pos2Z.is_nonneg m)) as (R & -> & HR & Hflags).
  assert (Hpos : 0 < 2 ^ Z.max n 0) by (apply Z.pow_pos_nonneg; lia).
  assert (Hq : 0 <= shr_m R) by (rewrite HR; apply Z.div_pos; lia).
  pose proof (digits2_pos_bounds m) as [Hlo _].
  assert (Hd : Z.pos (digits2_pos m) + e <= 1).
  { assert (2 ^ (Z.pos (digits2_pos m) - 1) <= 2 ^ (- e)) by lia.
    apply Z.pow_le_mono_r_iff in H; lia. }
  assert (He' : e + Z.max n 0 <= 0).
  { unfold n. rewrite fexp32. cbn [Zdigits2]. lia. }
  apply normalize_unit; [| exact He' |].
  - destruct R as [q r s]. cbn [shr_m] in *.
    destruct r, s; cbn [loc_of_shr_record round_nearest_even];
      try destruct (Z.even q); lia.
  - assert (Hsplit : 2 ^ (- e) = 2 ^ (- (e + Z.max n 0)) * 2 ^ Z.max n 0).
    { rewrite <- Z.pow_add_r by lia. f_equal. lia. }
    assert (Hle1 : shr_m R <= 2 ^ (- (e + Z.max n 0))).
    { rewrite HR. apply Z.div_le_upper_bound; [lia|]. rewrite Z.mul_comm. lia. }
    assert (Hlt : shr_r R || shr_s R = true ->
                  shr_m R + 1 <= 2 ^ (- (e + Z.max n 0))).
    { intros Hf. specialize (Hflags Hf).
      assert (Z.pos m <> 2 ^ (- (e + Z.max n 0)) * 2 ^ Z.max n 0).
      { intros E. apply Hflags. rewrite E. apply Z.mod_mul. lia. }
      assert (shr_m R < 2 ^ (- (e + Z.max n 0))); [|lia].
      rewrite HR. apply Z.div_lt_upper_bound; [lia|]. rewrite Z.mul_comm. lia. }
    destruct R as [q r s]. cbn [shr_m shr_r shr_s] in *.
    destruct r, s; cbn [loc_of_shr_record round_nearest_even];
      try destruct (Z.even q); try (apply Hlt; reflexivity); lia.
Qed.

Lemma mul_unit (x y : spec_float) :
  in_unit x = true -> in_unit y = true -> in_unit (mul x y) = true.
Proof.
  destruct x as [sx|sx| |[|] mx ex]; try discriminate;
    destruct y as [sy|sy| |[|] my ey]; try discriminate; try reflexivity.
  cbn [in_unit]. intros Hx Hy.
  apply andb_true_iff in Hx. destruct Hx as [Hex Hmx].
  apply andb_true_iff in Hy. destruct Hy as [Hey Hmy].
  apply Z.leb_le in Hex, Hmx, Hey, Hmy.
  unfold mul, SFmul. cbn [xorb]. apply round_unit; [lia|].
  rewrite Pos2Z.inj_mul.
  replace (- (ex + ey)) with (- ex + - ey) by lia.
  rewrite Z.pow_add_r by lia.
  apply Z.mul_le_mono_nonneg; lia.
Qed.


Lemma iter_xO (m d : positive) :
  Z.pos (Pos.iter xO m d) = Z.pos m * 2 ^ Z.pos d.
Proof.
  induction d as [|d IH] using Pos.peano_ind.
  - cbn. lia.
  - rewrite Pos.iter_succ, Pos2Z.inj_xO, IH, Pos2Z.inj_succ.
    rewrite Z.pow_succ_r by lia. lia.
Qed.

(** Alignment of a mantissa on a smaller exponent keeps the number. *)
Lemma shl_align_spec (m : positive) (e e' : Z) :
  exists m',
    shl_align m e e' = (m', Z.min e e') /\
    Z.pos m' = Z.pos m * 2 ^ (e - Z.min e e').
Proof.
  unfold shl_align. destruct (e' - e) as [|d|d] eqn:E.
  - exists m. replace (Z.min e e') with e by lia.
    rewrite Z.sub_diag. split; [reflexivity | cbn; lia].
  - exists m. replace (Z.min e e') with e by lia.
    rewrite Z.sub_diag. split; [reflexivity | cbn; lia].
  - exists (Pos.iter xO m d). replace (Z.min e e') with e' by lia.
    split; [reflexivity|]. rewrite iter_xO. f_equal. f_equal. lia.
Qed.

(** Rounding an integer multiple of [2^e] that stands for a number of
  [0,1]. *)
Lemma normalize_nonneg_unit (d e : Z) :
  0 <= d -> e <= 0 -> d <= 2 ^ (- e) ->
  in_unit (binary_normalize prec emax d e false) = true.
Proof.
  intros Hd He Hle. destruct d as [|dm|dm]; [reflexivity | | lia].
  cbn [binary_normalize]. unfold binary_round.
  destruct (shl_align_spec dm e (fexp prec emax (Z.pos (digits2_pos dm) + e)))
    as (mz & -> & Hmz).
  set (e2 := Z.min e (fexp prec emax (Z.pos (digits2_pos dm) + e))) in *.
  assert (He2 : e2 <= e) by (unfold e2; lia).
  apply round_unit; [lia|].
  rewrite Hmz.
  replace (- e2) with (- e + (e - e2)) by lia.
  rewrite Z.pow_add_r by lia.
  apply Z.mul_le_mono_nonneg_r; [apply Z.pow_nonneg; lia | exact Hle].
Qed.

Lemma one_in_unit : in_unit one = true.
Proof. reflexivity. Qed.

(** [1 - k] for a float [k] of [0,1]. *)
Lemma sub_unit (k : spec_float) :
  in_unit k = true -> in_unit (sub one k) = true.
Proof.
  destruct k as [s|s| |[|] mk ek]; try discriminate; [reflexivity|].
  cbn [in_unit]. intros Hk.
  apply andb_true_iff in Hk. destruct Hk as [Hek Hmk].
  apply Z.leb_le in Hek, Hmk.
  unfold sub, one, SFsub. cbn [cond_Zopp].
  set (ez := Z.min (-23) ek).
  destruct (shl_align_spec 8388608 (-23) ez) as (m1 & -> & Hm1).
  destruct (shl_align_spec mk ek ez) as (m2 & -> & Hm2).
  cbn [fst].
  replace (Z.min (-23) ez) with ez in * by (unfold ez; lia).
  replace (Z.min ek ez) with ez in * by (unfold ez; lia).
  assert (Hez : ez <= -23) by (unfold ez; lia).
  assert (E1 : Z.pos m1 = 2 ^ (- ez)).
  { rewrite Hm1. change 8388608 with (2 ^ 23).
    rewrite <- Z.pow_add_r by lia. f_equal. lia. }
  assert (E2 : Z.pos m2 <= 2 ^ (- ez)).
  { rewrite Hm2. replace (- ez) with (- ek + (ek - ez)) by lia.
    rewrite Z.pow_add_r by (unfold ez; lia).
    apply Z.mul_le_mono_nonneg_r; [apply Z.pow_nonneg; lia | exact Hmk]. }
  apply normalize_nonneg_unit; lia.
Qed.

(** What [in_unit] says of the number a float stands for. *)
Lemma in_unit_value (x : spec_float) :
  in_unit x = true -> (0 <= value x)%Qc /\ (value x <= 1)%Qc.
Proof.
  destruct x as [s|s| |[|] m e]; try discriminate.
  - intros _. split; discriminate.
  - cbn [in_unit value]. intros H.
    apply andb_true_iff in H. destruct H as [He Hm].
    apply Z.leb_le in He, Hm.
    assert (Hpos : (0 < 2 ^ (- e))%Z) by (apply Z.pow_pos_nonneg; lia).
    assert (Epow : ((2 # 1) ^ e == / inject_Z (2 ^ (- e)))%Q).
    { replace e with (- - e)%Z at 1 by lia.
      rewrite Qpower_opp. apply Qinv_comp.
      rewrite Zpower_Qpower by lia. reflexivity. }
    unfold Qcle. cbn [this Q2Qc]. rewrite !Qred_correct, Epow.
    change (this 0%Qc) with 0%Q. change (this 1%Qc) with 1%Q.
    rewrite Qmult_1_l.
    assert (H0 : (0 < inject_Z (2 ^ (- e)))%Q).
    { rewrite <- (Zlt_Qlt 0). exact Hpos. }
    split.
    + apply Qmult_le_0_compat.
      * rewrite <- (Zle_Qle 0). lia.
      * apply Qlt_le_weak, Qinv_lt_0_compat. exact H0.
    + apply Qle_shift_div_r; [exact H0|].
      rewrite Qmult_1_l. rewrite <- Zle_Qle. exact Hm.
Qed.

End Float32Facts.

(** ** Texture compositing *)

Module TextureFacts.
Import Tensor Texture TensorFacts.

Local Open Scope Qc_scope.

Lemma composite_mask (static_mask uv_gt_mask : T4) (b c h w : nat) :
    has_shape4 static_mask 1 1 h w ->
    has_shape4 uv_gt_mask b c h w ->
    tmul static_mask uv_gt_mask =
    Ok (tab4 b c h w (mask_at static_mask uv_gt_mask)).
  Proof.
    intros Hs Hv. unfold mask_at. as_tab Hs. as_tab Hv.
    unfold tmul.
    rewrite (lift4_tab _ _ _ (bdim_left1 b) (bdim_left1 c) (bdim_same h) (bdim_same w)).
    f_equal. apply tab4_ext. intros i j y x Hi Hj Hy Hx.
    bidx_simpl. rewrite ?get4_tab4 by lia. reflexivity.
  Qed.

Lemma composite_textured (static_mask uv_gt uv_gt_mask uv_texture : T4)
        (b h w : nat) :
    has_shape4 static_mask 1 1 h w ->
    has_shape4 uv_gt b 3 h w ->
    has_shape4 uv_gt_mask b 3 h w ->
    has_shape4 uv_texture b 3 h w ->
    composite true static_mask uv_gt uv_gt_mask uv_texture =
    Ok (tab4 b 3 h w (mask_at static_mask uv_gt_mask),
        tab4 b 3 h w (blend_at static_mask uv_gt uv_gt_mask uv_texture)).
  Proof.
    intros Hs Hg Hv Ht. unfold composite.
    rewrite (composite_mask Hs Hv). cbn [bind].
    unfold blend_at.
    generalize (mask_at static_mask uv_gt_mask) as m. intros m.
    as_tab Hg. as_tab Ht.
    rewrite !channels3_tab4, one_minus_tab4. cbn [Nat.min].
    unfold tmul, tadd.
    rewrite !(lift4_tab _ _ _ (bdim_same b) (bdim_same 3) (bdim_same h) (bdim_same w)).
    cbn [bind].
    rewrite !(lift4_tab _ _ _ (bdim_same b) (bdim_same 3) (bdim_same h) (bdim_same w)).
    cbn [bind]. do 2 f_equal.
    apply tab4_ext. intros i j y x Hi Hj Hy Hx.
    bidx_simpl. rewrite ?get4_tab4 by lia. reflexivity.
  Qed.

Lemma this_mult (a b : Qc) : (this (a * b) == this a * this b)%Q.
  Proof. apply Qred_correct. Qed.

Lemma this_plus (a b : Qc) : (this (a + b) == this a + this b)%Q.
  Proof. apply Qred_correct. Qed.

Lemma this_minus (a b : Qc) : (this (a - b) == this a - this b)%Q.
  Proof.
    unfold Qcminus. rewrite this_plus. unfold Qcopp. cbn [this Q2Qc].
    now rewrite Qred_correct.
  Qed.

(** Move an order goal on [Qc] to [Q]. *)
Ltac to_Q :=
  unfold Qcle, Qclt in *;
  rewrite ?this_plus, ?this_mult, ?this_minus, ?this_mult in *;
  change (this 0) with 0%Q in *; change (this 1) with 1%Q in *.

Lemma unit_interval_mul (a b : Qc) :
    0 <= a -> a <= 1 -> 0 <= b -> b <= 1 -> 0 <= a * b /\ a * b <= 1.
  Proof. intros. to_Q. nra. Qed.

Lemma blend_between (g t k : Qc) :
    0 <= k -> k <= 1 -> g <= t ->
    g <= g * k + t * (1 - k) /\ g * k + t * (1 - k) <= t.
  Proof. intros. to_Q. nra. Qed.

Lemma blend_between_rev (g t k : Qc) :
    0 <= k -> k <= 1 -> t <= g ->
    t <= g * k + t * (1 - k) /\ g * k + t * (1 - k) <= g.
  Proof. intros. to_Q. nra. Qed.

Lemma channels3_rgb (t : T4) (b h w : nat) :
    has_shape4 t b 3 h w -> channels3 t = t.
  Proof.
    intros H. rewrite (shape4_as_tab H) at 2.
    rewrite (shape4_as_tab H) at 1. apply channels3_tab4.
  Qed.

Lemma channel0_shape (t : T4) (b c h w : nat) :
    has_shape4 t b (S c) h w ->
    channel0 t = Ok (tab4 b 1 h w (get4 t)).
  Proof.
    intros H. as_tab H. unfold channel0, tab4.
    apply mapM_tab. intros i Hi. now rewrite tab_S.
  Qed.

(** C3, as the code has it.  Without the textured-albedo model the
  ground-truth texture is the sampled colour buffer restricted to three
  channels, at every texel and whatever the mask holds; the composite
  mask is still computed (and handed on to the renderer), it is not
  applied to the texture.  The same holds in [decode_coarse]. *)
Theorem composite_untextured (static_mask uv_gt uv_gt_mask uv_texture : T4)
          (b c h w : nat) :
    has_shape4 static_mask 1 1 h w ->
    has_shape4 uv_gt_mask b (S c) h w ->
    composite false static_mask uv_gt uv_gt_mask uv_texture =
      Ok (tab4 b (S c) h w (mask_at static_mask uv_gt_mask), channels3 uv_gt) /\
    composite_coarse false static_mask uv_gt uv_gt_mask uv_texture =
      Ok (tab4 b 1 h w (mask_at static_mask uv_gt_mask), channels3 uv_gt).
  Proof.
    intros Hs Hv. split.
    - unfold composite. now rewrite (composite_mask Hs Hv).
    - unfold composite_coarse. rewrite (channel0_shape Hv). cbn [bind].
      unfold composite.
      rewrite (composite_mask Hs (tab4_shape b 1 h w (get4 uv_gt_mask))).
      cbn [bind]. do 2 f_equal.
      apply tab4_ext. intros i j y x Hi Hj Hy Hx.
      unfold mask_at. now rewrite get4_tab4 by assumption.
  Qed.

(** The two extremes of the blend on RGB buffers: a composite mask of
  ones gives the sampled image restricted to its three colour channels, a
  composite mask of zeros gives the synthesized texture. *)
Lemma composite_mask_extremes (static_mask uv_gt uv_gt_mask uv_texture : T4)
          (b h w : nat) :
    has_shape4 static_mask 1 1 h w ->
    has_shape4 uv_gt b 3 h w ->
    has_shape4 uv_gt_mask b 3 h w ->
    has_shape4 uv_texture b 3 h w ->
    exists uv_face_eye_mask uv_texture_gt,
      tmul static_mask uv_gt_mask = Ok uv_face_eye_mask /\
      composite true static_mask uv_gt uv_gt_mask uv_texture =
        Ok (uv_face_eye_mask, uv_texture_gt) /\
      ((forall i j y x, (i < b)%nat -> (j < 3)%nat -> (y < h)%nat -> (x < w)%nat ->
                        get4 uv_face_eye_mask i j y x = 1) ->
       uv_texture_gt = channels3 uv_gt) /\
      ((forall i j y x, (i < b)%nat -> (j < 3)%nat -> (y < h)%nat -> (x < w)%nat ->
                        get4 uv_face_eye_mask i j y x = 0) ->
       uv_texture_gt = uv_texture).
  Proof.
    intros Hs Hg Hv Ht.
    exists (tab4 b 3 h w (mask_at static_mask uv_gt_mask)).
    exists (tab4 b 3 h w (blend_at static_mask uv_gt uv_gt_mask uv_texture)).
    split; [now apply composite_mask|].
    split; [now apply composite_textured|].
    split; intros Hm.
    - rewrite (channels3_rgb Hg).
      transitivity (tab4 b 3 h w (get4 uv_gt));
        [|symmetry; now apply shape4_as_tab].
      apply tab4_ext. intros i j y x Hi Hj Hy Hx.
      specialize (Hm i j y x Hi Hj Hy Hx). rewrite get4_tab4 in Hm by assumption.
      unfold blend_at. rewrite Hm. ring.
    - transitivity (tab4 b 3 h w (get4 uv_texture));
        [|symmetry; now apply shape4_as_tab].
      apply tab4_ext. intros i j y x Hi Hj Hy Hx.
      specialize (Hm i j y x Hi Hj Hy Hx). rewrite get4_tab4 in Hm by assumption.
      unfold blend_at. rewrite Hm. ring.
  Qed.

(** The blend of line 314 on a one-channel image: the sampled colour and
  the composite mask are broadcast over the three channels of the
  synthesized texture. *)
Lemma composite_textured_gray (static_mask uv_gt uv_gt_mask uv_texture : T4)
        (b h w : nat) :
    has_shape4 static_mask 1 1 h w ->
    has_shape4 uv_gt b 1 h w ->
    has_shape4 uv_gt_mask b 1 h w ->
    has_shape4 uv_texture b 3 h w ->
    composite true static_mask uv_gt uv_gt_mask uv_texture =
    Ok (tab4 b 1 h w (mask_at static_mask uv_gt_mask),
        tab4 b 3 h w (fun i j y x =>
          get4 uv_gt i 0 y x * mask_at static_mask uv_gt_mask i 0 y x
          + get4 uv_texture i j y x
            * (1 - mask_at static_mask uv_gt_mask i 0 y x))).
  Proof.
    intros Hs Hg Hv Ht. unfold composite.
    rewrite (composite_mask Hs Hv). cbn [bind].
    generalize (mask_at static_mask uv_gt_mask) as m. intros m.
    as_tab Hg. as_tab Ht.
    rewrite !channels3_tab4, one_minus_tab4. cbn [Nat.min].
    unfold tmul, tadd.
    rewrite (lift4_tab _ _ _ (bdim_same b) (bdim_same 1) (bdim_same h) (bdim_same w)).
    cbn [bind].
    rewrite (lift4_tab _ _ _ (bdim_same b) (bdim_right1 3) (bdim_same h) (bdim_same w)).
    cbn [bind].
    rewrite (lift4_tab _ _ _ (bdim_same b) (bdim_left1 3) (bdim_same h) (bdim_same w)).
    cbn [bind]. do 2 f_equal.
    apply tab4_ext. intros i j y x Hi Hj Hy Hx.
    bidx_simpl. cbn [bidx Nat.eqb]. rewrite ?get4_tab4 by lia. reflexivity.
  Qed.

(** C8, as the code has it.  In float32, on every texel: when the static
  mask and the validity are floats of [0,1], so are the composite mask and
  the weight [1 - mask] that line 314 gives to the synthesized colour;
  rounding to nearest does not take them out of [0,1].  In exact
  arithmetic, on the tensors: the composite mask holds values of [0,1],
  whatever the number of channels, and on an image of three channels or
  of one, where line 314 evaluates, every texel of the blend computed
  without rounding is a convex combination of the sampled and the
  synthesized colour: it lies between the two.  (On a one-channel image
  the sampled colour and the mask are broadcast over the three channels
  of the synthesized texture.)  The value that float32 stores for the
  blend is rounded at every operation and can leave that interval. *)
Theorem composite_convex (static_mask uv_gt uv_gt_mask uv_texture : T4)
        (b c h w : nat) :
  (forall s g v t : SpecFloat.spec_float,
      Float32.in_unit s = true -> Float32.in_unit v = true ->
      let k := fst (Float32.composite_texel s g v t) in
      let k' := Float32.sub Float32.one k in
      Float32.in_unit k = true /\ Float32.in_unit k' = true /\
      0 <= Float32.value k /\ Float32.value k <= 1 /\
      0 <= Float32.value k' /\ Float32.value k' <= 1) /\
  (has_shape4 static_mask 1 1 h w ->
   has_shape4 uv_gt_mask b c h w ->
   (forall y x, (y < h)%nat -> (x < w)%nat ->
                0 <= get4 static_mask 0 0 y x /\ get4 static_mask 0 0 y x <= 1) ->
   (forall i j y x, (i < b)%nat -> (j < c)%nat -> (y < h)%nat -> (x < w)%nat ->
                    0 <= get4 uv_gt_mask i j y x /\ get4 uv_gt_mask i j y x <= 1) ->
   exists uv_face_eye_mask,
     tmul static_mask uv_gt_mask = Ok uv_face_eye_mask /\
     has_shape4 uv_face_eye_mask b c h w /\
     (forall i j y x, (i < b)%nat -> (j < c)%nat -> (y < h)%nat -> (x < w)%nat ->
                      0 <= get4 uv_face_eye_mask i j y x /\
                      get4 uv_face_eye_mask i j y x <= 1) /\
     (c = 1%nat \/ c = 3%nat ->
      has_shape4 uv_gt b c h w ->
      has_shape4 uv_texture b 3 h w ->
      exists uv_texture_gt,
        composite true static_mask uv_gt uv_gt_mask uv_texture =
          Ok (uv_face_eye_mask, uv_texture_gt) /\
        has_shape4 uv_texture_gt b 3 h w /\
        forall i j y x, (i < b)%nat -> (j < 3)%nat -> (y < h)%nat -> (x < w)%nat ->
          let k := get4 uv_face_eye_mask i (bidx c j) y x in
          let s := get4 uv_gt i (bidx c j) y x in
          let t := get4 uv_texture i j y x in
          let o := get4 uv_texture_gt i j y x in
          o = s * k + t * (1 - k) /\
          (s <= t -> s <= o /\ o <= t) /\
          (t <= s -> t <= o /\ o <= s))).
Proof.
  split.
  { intros s g v t Hs Hv. cbv zeta. cbn [Float32.composite_texel fst].
    pose proof (Float32Facts.mul_unit s v Hs Hv) as Hk.
    pose proof (Float32Facts.sub_unit _ Hk) as Hk'.
    destruct (Float32Facts.in_unit_value _ Hk) as [H0 H1].
    destruct (Float32Facts.in_unit_value _ Hk') as [H0' H1'].
    repeat split; assumption. }
  intros Hs Hv Hs01 Hv01.
  assert (Hk : forall i j y x,
             (i < b)%nat -> (j < c)%nat -> (y < h)%nat -> (x < w)%nat ->
             0 <= mask_at static_mask uv_gt_mask i j y x /\
             mask_at static_mask uv_gt_mask i j y x <= 1).
  { intros i j y x Hi Hj Hy Hx.
    destruct (Hs01 y x Hy Hx) as [Hs0 Hs1].
    destruct (Hv01 i j y x Hi Hj Hy Hx) as [Hv0 Hv1].
    exact (unit_interval_mul Hs0 Hs1 Hv0 Hv1). }
  exists (tab4 b c h w (mask_at static_mask uv_gt_mask)).
  split; [now apply composite_mask|].
  split; [apply tab4_shape|].
  split.
  - intros i j y x Hi Hj Hy Hx. rewrite get4_tab4 by assumption. now apply Hk.
  - intros [-> | ->] Hg Ht.
    + eexists. split; [now apply composite_textured_gray|].
      split; [apply tab4_shape|].
      intros i j y x Hi Hj Hy Hx. cbv zeta. cbn [bidx Nat.eqb].
      rewrite !get4_tab4 by lia.
      destruct (Hk i 0%nat y x Hi Nat.lt_0_1 Hy Hx) as [Hk0 Hk1].
      repeat split;
        first [ now apply blend_between | now apply blend_between_rev ].
    + exists (tab4 b 3 h w (blend_at static_mask uv_gt uv_gt_mask uv_texture)).
      split; [now apply composite_textured|].
      split; [apply tab4_shape|].
      intros i j y x Hi Hj Hy Hx. cbv zeta. cbn [bidx Nat.eqb].
      rewrite !get4_tab4 by assumption.
      destruct (Hk i j y x Hi Hj Hy Hx) as [Hk0 Hk1].
      unfold blend_at.
      repeat split;
        first [ now apply blend_between | now apply blend_between_rev ].
Qed.

Ltac texel_bounds :=
  repeat match goal with
         | H : (_ < 1)%nat |- _ => apply Nat.lt_1_r in H; subst
         end.

Lemma composite_untextured_witness :
    composite false (plane half) (rgb 1 half 0) (rgb 1 1 1) (rgb 0 0 0) =
      Ok (tab4 1 3 1 1 (mask_at (plane half) (rgb 1 1 1)),
          channels3 (rgb 1 half 0)) /\
    composite_coarse false (plane half) (rgb 1 half 0) (rgb 1 1 1) (rgb 0 0 0) =
      Ok (tab4 1 1 1 1 (mask_at (plane half) (rgb 1 1 1)),
          channels3 (rgb 1 half 0)).
  Proof.
    apply (@composite_untextured (plane half) (rgb 1 half 0) (rgb 1 1 1)
                                 (rgb 0 0 0) 1 2 1 1);
      repeat constructor.
  Defined.

(** C3 as stated fails: a texel where the static mask is 0 keeps its
  sampled colour in [uv_texture_gt]. *)
Lemma untextured_colour_outside_mask :
    exists uv_face_eye_mask uv_texture_gt,
      composite false (plane 0) (rgb 1 half 0) (rgb 1 1 1) (rgb 0 0 0) =
        Ok (uv_face_eye_mask, uv_texture_gt) /\
      get4 uv_face_eye_mask 0 0 0 0 = 0 /\
      get4 uv_texture_gt 0 0 0 0 = 1 /\
      get4 uv_texture_gt 0 0 0 0 <> 0.
  Proof.
    eexists. eexists. split; [reflexivity|].
    split; [qc_eq|]. split; [reflexivity|]. discriminate.
  Qed.

Lemma composite_mask_extremes_witness :
    exists uv_face_eye_mask uv_texture_gt,
      tmul (plane 1) (rgb 1 1 1) = Ok uv_face_eye_mask /\
      composite true (plane 1) (rgb 1 half 0) (rgb 1 1 1) (rgb half half half) =
        Ok (uv_face_eye_mask, uv_texture_gt) /\
      ((forall i j y x, (i < 1)%nat -> (j < 3)%nat -> (y < 1)%nat -> (x < 1)%nat ->
                        get4 uv_face_eye_mask i j y x = 1) ->
       uv_texture_gt = channels3 (rgb 1 half 0)) /\
      ((forall i j y x, (i < 1)%nat -> (j < 3)%nat -> (y < 1)%nat -> (x < 1)%nat ->
                        get4 uv_face_eye_mask i j y x = 0) ->
       uv_texture_gt = rgb half half half).
  Proof.
    apply (@composite_mask_extremes (plane 1) (rgb 1 half 0) (rgb 1 1 1)
                                    (rgb half half half) 1 1 1);
      repeat constructor.
  Defined.

Lemma composite_convex_witness :
  (let k := fst (Float32.composite_texel Float32.one Float32.tenth Float32.tenth
                   Float32.tenth) in
   let k' := Float32.sub Float32.one k in
   Float32.in_unit k = true /\ Float32.in_unit k' = true /\
   0 <= Float32.value k /\ Float32.value k <= 1 /\
   0 <= Float32.value k' /\ Float32.value k' <= 1) /\
  exists uv_face_eye_mask,
    tmul (plane half) (plane 1) = Ok uv_face_eye_mask /\
    has_shape4 uv_face_eye_mask 1 1 1 1 /\
    (forall i j y x, (i < 1)%nat -> (j < 1)%nat -> (y < 1)%nat -> (x < 1)%nat ->
                     0 <= get4 uv_face_eye_mask i j y x /\
                     get4 uv_face_eye_mask i j y x <= 1) /\
    (1%nat = 1%nat \/ 1%nat = 3%nat ->
     has_shape4 (plane half) 1 1 1 1 ->
     has_shape4 (rgb 0 1 1) 1 3 1 1 ->
     exists uv_texture_gt,
       composite true (plane half) (plane half) (plane 1) (rgb 0 1 1) =
         Ok (uv_face_eye_mask, uv_texture_gt) /\
       has_shape4 uv_texture_gt 1 3 1 1 /\
       forall i j y x, (i < 1)%nat -> (j < 3)%nat -> (y < 1)%nat -> (x < 1)%nat ->
         let k := get4 uv_face_eye_mask i (bidx 1 j) y x in
         let s := get4 (plane half) i (bidx 1 j) y x in
         let t := get4 (rgb 0 1 1) i j y x in
         let o := get4 uv_texture_gt i j y x in
         o = s * k + t * (1 - k) /\
         (s <= t -> s <= o /\ o <= t) /\
         (t <= s -> t <= o /\ o <= s)).
Proof.
  destruct (@composite_convex (plane half) (plane half) (plane 1)
                              (rgb 0 1 1) 1 1 1 1) as [Hfloat Hexact].
  split.
  - apply Hfloat; reflexivity.
  - apply Hexact; try (repeat constructor; fail).
    + intros y x Hy Hx. texel_bounds. split; vm_compute; discriminate.
    + intros i j y x Hi Hj Hy Hx. texel_bounds. split; vm_compute; discriminate.
Defined.

(** The blend of a gray image and of a colour image at a mask of one
  half. *)
Lemma composite_demo :
  composite true (plane half) (plane half) (plane 1) (rgb 0 1 1) =
    Ok (plane half, rgb (Q2Qc (1 # 4)) (Q2Qc (3 # 4)) (Q2Qc (3 # 4))) /\
  composite true (plane half) (rgb 1 half 0) (rgb 1 1 1) (rgb 0 1 1) =
    Ok (rgb half half half, rgb half (Q2Qc (3 # 4)) half).
Proof. split; vm_compute; qc_eq. Qed.

(** C8 as stated fails in float32.  With a static mask of 1 and a validity
  of float32(0.1) the composite mask is float32(0.1); blending the sampled
  colour float32(0.1) with the synthesized colour float32(0.1), line 314
  stores 13421772 * 2^-27, one unit in the last place below both colours.
  Without rounding the blend of a colour with itself is that colour. *)
Lemma blend_rounds_below :
  let x := Float32.tenth in
  let v := Float32.value x in
  exists o,
    Float32.composite_texel Float32.one x x x = (x, o) /\
    o = SpecFloat.S754_finite false 13421772 (-27) /\
    0 <= v /\ v <= 1 /\
    Float32.value o < v /\
    composite true (plane 1) (rgb v v v) (rgb v v v) (rgb v v v) =
      Ok (rgb v v v, rgb v v v).
Proof.
  cbv zeta. eexists. split; [vm_compute; reflexivity|].
  split; [reflexivity|].
  split; [vm_compute; discriminate|]. split; [vm_compute; discriminate|].
  split; [vm_compute; reflexivity|].
  vm_compute. qc_eq.
Qed.

(** C4 on a sampled buffer with an alpha channel.  In [decode] the
  validity buffer keeps the four channels of the image, so the product
  with the three colour channels of line 314 raises, on a composite mask
  of ones as on any other; [decode_coarse], which first reduces the
  validity buffer to one channel, returns the three colour channels. *)
Theorem composite_alpha_channel :
  composite true (plane 1) (rgba 1 half 0 1) (rgba 1 1 1 1) (rgb half half half)
    = Err size_mismatch /\
  tmul (plane 1) (rgba 1 1 1 1) = Ok (rgba 1 1 1 1) /\
  exists uv_face_eye_mask,
    composite_coarse true (plane 1) (rgba 1 half 0 1) (rgba 1 1 1 1)
                     (rgb half half half)
    = Ok (uv_face_eye_mask, rgb 1 half 0).
Proof.
  split; [reflexivity|]. split; [unfold tmul, lift4; simpl; qc_eq|].
  eexists. unfold composite_coarse, composite, tmul, tadd, lift4. simpl.
  qc_eq.
Qed.

(** The blend with the validity buffer reduced to one channel, as
  [decode_coarse] has it. *)
Lemma composite_coarse_textured (static_mask uv_gt uv_gt_mask uv_texture : T4)
      (b c h w : nat) :
  has_shape4 static_mask 1 1 h w ->
  has_shape4 uv_gt b 3 h w ->
  has_shape4 uv_gt_mask b (S c) h w ->
  has_shape4 uv_texture b 3 h w ->
  composite_coarse true static_mask uv_gt uv_gt_mask uv_texture =
  Ok (tab4 b 1 h w (mask_at static_mask uv_gt_mask),
      tab4 b 3 h w (fun i j y x =>
        get4 uv_gt i j y x * mask_at static_mask uv_gt_mask i 0 y x
        + get4 uv_texture i j y x * (1 - mask_at static_mask uv_gt_mask i 0 y x))).
Proof.
  intros Hs Hg Hv Ht. unfold composite_coarse.
  rewrite (channel0_shape Hv). cbn [bind]. unfold composite.
  rewrite (composite_mask Hs (tab4_shape b 1 h w (get4 uv_gt_mask))). cbn [bind].
  replace (tab4 b 1 h w (mask_at static_mask (tab4 b 1 h w (get4 uv_gt_mask))))
    with (tab4 b 1 h w (mask_at static_mask uv_gt_mask)).
  2:{ apply tab4_ext. intros i j y x Hi Hj Hy Hx.
      unfold mask_at. now rewrite get4_tab4 by assumption. }
  generalize (mask_at static_mask uv_gt_mask) as m. intros m.
  as_tab Hg. as_tab Ht.
  rewrite !channels3_tab4, one_minus_tab4. cbn [Nat.min].
  unfold tmul, tadd.
  rewrite !(lift4_tab _ _ _ (bdim_same b) (bdim_right1 3) (bdim_same h) (bdim_same w)).
  cbn [bind].
  rewrite !(lift4_tab _ _ _ (bdim_same b) (bdim_same 3) (bdim_same h) (bdim_same w)).
  cbn [bind]. do 2 f_equal.
  apply tab4_ext. intros i j y x Hi Hj Hy Hx.
  bidx_simpl. rewrite ?get4_tab4 by lia. reflexivity.
Qed.

(** X5. On RGB buffers [decode] and [decode_coarse] build the same texture
  when the channels of the validity buffer are equal, as they are for the
  samples of an all-ones image; the mask of [decode_coarse] is channel 0 of
  the mask of [decode]. *)
Theorem composite_coarse_agrees (use_tex : bool)
        (static_mask uv_gt uv_gt_mask uv_texture : T4) (b h w : nat) :
  has_shape4 static_mask 1 1 h w ->
  has_shape4 uv_gt b 3 h w ->
  has_shape4 uv_gt_mask b 3 h w ->
  has_shape4 uv_texture b 3 h w ->
  (forall i j y x, (i < b)%nat -> (j < 3)%nat -> (y < h)%nat -> (x < w)%nat ->
                   get4 uv_gt_mask i j y x = get4 uv_gt_mask i 0 y x) ->
  exists mask mask_coarse uv_texture_gt,
    composite use_tex static_mask uv_gt uv_gt_mask uv_texture =
      Ok (mask, uv_texture_gt) /\
    composite_coarse use_tex static_mask uv_gt uv_gt_mask uv_texture =
      Ok (mask_coarse, uv_texture_gt) /\
    channel0 mask = Ok mask_coarse.
Proof.
  intros Hs Hg Hv Ht Hsame.
  assert (Hc0 : channel0 (tab4 b 3 h w (mask_at static_mask uv_gt_mask)) =
                Ok (tab4 b 1 h w (mask_at static_mask uv_gt_mask))).
  { rewrite (channel0_shape (tab4_shape b 3 h w _)). f_equal.
    apply tab4_ext. intros i j y x Hi Hj Hy Hx.
    rewrite get4_tab4 by lia. reflexivity. }
  destruct use_tex.
  - exists (tab4 b 3 h w (mask_at static_mask uv_gt_mask)).
    exists (tab4 b 1 h w (mask_at static_mask uv_gt_mask)).
    exists (tab4 b 3 h w (blend_at static_mask uv_gt uv_gt_mask uv_texture)).
    split; [now apply composite_textured|]. split; [|exact Hc0].
    rewrite (composite_coarse_textured Hs Hg Hv Ht). do 2 f_equal.
    apply tab4_ext. intros i j y x Hi Hj Hy Hx.
    unfold blend_at, mask_at. now rewrite (Hsame i j y x).
  - exists (tab4 b 3 h w (mask_at static_mask uv_gt_mask)).
    exists (tab4 b 1 h w (mask_at static_mask uv_gt_mask)).
    exists (channels3 uv_gt).
    split; [|split; [|exact Hc0]].
    + unfold composite. now rewrite (composite_mask Hs Hv).
    + unfold composite_coarse. rewrite (channel0_shape Hv). cbn [bind].
      unfold composite.
      rewrite (composite_mask Hs (tab4_shape b 1 h w (get4 uv_gt_mask))).
      cbn [bind]. do 2 f_equal.
      apply tab4_ext. intros i j y x Hi Hj Hy Hx.
      unfold mask_at. now rewrite get4_tab4 by assumption.
Qed.

Lemma composite_coarse_agrees_witness :
  exists mask mask_coarse uv_texture_gt,
    composite true (plane half) (rgb 1 half 0) (rgb 1 1 1) (rgb half half half) =
      Ok (mask, uv_texture_gt) /\
    composite_coarse true (plane half) (rgb 1 half 0) (rgb 1 1 1)
                     (rgb half half half) =
      Ok (mask_coarse, uv_texture_gt) /\
    channel0 mask = Ok mask_coarse.
Proof.
  apply (@composite_coarse_agrees true (plane half) (rgb 1 half 0) (rgb 1 1 1)
           (rgb half half half) 1 1 1);
    try (repeat constructor; fail).
  intros i j y x Hi Hj Hy Hx.
  destruct i as [|i]; [|lia]. destruct y as [|y]; [|lia]. destruct x as [|x]; [|lia].
  destruct j as [|[|[|j]]]; try lia; reflexivity.
Defined.

End TextureFacts.

(** ** Geometric projection *)

Module ProjectionFacts.
Import Tensor Projection.
Local Open Scope Qc_scope.

Section Lifting.

Context {A B : Type}.

Lemma mapM_related (f f' : A -> result B) (g : A -> A) (h : B -> B) (l : list A) :
    (forall x y, f x = Ok y -> f' (g x) = Ok (h y)) ->
    forall r, mapM f l = Ok r -> mapM f' (map g l) = Ok (map h r).
  Proof.
    intros Hrel. induction l as [|x l IH]; intros r Hr; simpl in *.
    - injection Hr as <-. reflexivity.
    - destruct (f x) as [y|] eqn:Hy; [|discriminate]. simpl in Hr.
      destruct (mapM f l) as [ys|] eqn:Hys; [|discriminate]. simpl in Hr.
      injection Hr as <-.
      rewrite (Hrel _ _ Hy). simpl. now rewrite (IH _ eq_refl).
  Qed.

Lemma mapM_repeat (f : A -> result B) (x : A) (y : B) (n : nat) :
    f x = Ok y -> mapM f (repeat x n) = Ok (repeat y n).
  Proof.
    intros H. induction n as [|n IH]; simpl.
    - reflexivity.
    - now rewrite H, IH.
  Qed.

End Lifting.

Lemma project_point_flip (tf sd : bool) (cam p q : T1) :
    nth 2 cam 0 = 0 ->
    project_point tf sd cam p = Ok q ->
    project_point tf sd cam (flip_point p) = Ok (flip_point q).
  Proof.
    intros Hty.
    destruct cam as [|s [|tx [|ty [|? ?]]]]; try discriminate.
    destruct p as [|x [|y [|z [|? ?]]]]; try discriminate.
    simpl in Hty. subst ty. simpl. intros H. injection H as <-.
    destruct tf; simpl.
    - replace (s * (- y + 0)) with (- (s * (y + 0))) by ring. reflexivity.
    - replace (s * - y + 0) with (- (s * y + 0)) by ring. reflexivity.
  Qed.

Lemma batch_orth_proj_flip (tf sd : bool) (X : T3) :
    forall (cam : T2) (r : T3),
      Forall (fun c => nth 2 c 0 = 0) cam ->
      batch_orth_proj tf sd X cam = Ok r ->
      batch_orth_proj tf sd (flip_vertical X) cam = Ok (flip_vertical r).
  Proof.
    unfold batch_orth_proj, flip_vertical.
    induction X as [|pts X IH]; intros [|c cam] r Hty Hr; simpl in *;
      try discriminate.
    - injection Hr as <-. reflexivity.
    - inversion Hty as [|? ? Hc Hcam]; subst.
      destruct (mapM (project_point tf sd c) pts) as [ps|] eqn:Hps;
        [|discriminate]. simpl in Hr.
      match type of Hr with
      | context [zipM ?f X cam] =>
          destruct (zipM f X cam) as [rs|] eqn:Hrs; [|discriminate]
      end.
      simpl in Hr. injection Hr as <-.
      rewrite (mapM_related (project_point tf sd c) (project_point tf sd c)
                            flip_point flip_point pts
                            (fun x y => @project_point_flip tf sd c x y Hc) Hps).
      simpl. now rewrite (IH cam rs Hcam Hrs).
  Qed.

Lemma negate_from1_flip (t : T3) :
    negate_from1 (flip_vertical t) = flip_vertical (negate_from1 t).
  Proof.
    unfold negate_from1, flip_vertical. rewrite !map_map.
    apply map_ext. intros pts. rewrite !map_map.
    apply map_ext. intros [|x [|y rest]]; reflexivity.
  Qed.

Lemma first2_flip (t : T3) :
    first2 (flip_vertical t) = flip_vertical (first2 t).
  Proof.
    unfold first2, flip_vertical. rewrite !map_map.
    apply map_ext. intros pts. rewrite !map_map.
    apply map_ext. intros [|x [|y rest]]; reflexivity.
  Qed.

Lemma project_origin (tf sd : bool) :
    project_point tf sd [1; 0; 0] [0; 0; 0] = Ok [0; 0; 0].
  Proof. destruct tf, sd; simpl; do 2 f_equal; qc_eq. Qed.

Lemma batch_orth_proj_origin (tf sd : bool) (b n : nat) :
    batch_orth_proj tf sd (constant_points b n [0; 0; 0]) (repeat [1; 0; 0] b) =
    Ok (constant_points b n [0; 0; 0]).
  Proof.
    unfold batch_orth_proj, constant_points.
    induction b as [|b IH]; cbn [repeat zipM].
    - reflexivity.
    - pose proof (mapM_repeat _ _ n (project_origin tf sd)) as E.
      unfold T3, T2, T1 in *. rewrite E, IH. reflexivity.
  Qed.

(** C6, as it holds.  With scale 1 and translation (0,0) the origin is
  projected to (0,0), in every batch; negating the vertical coordinate
  of the input negates the vertical coordinate of the output for every
  camera without vertical translation (the projection is affine in the
  input, linear only when [ty = 0]).  Both hold for either order of
  scale and translation and with or without scaling of the depth. *)
Theorem projection_origin_and_flip (tf sd : bool) :
    (forall b n,
        project_landmarks2d tf sd (constant_points b n [0; 0; 0]) (repeat [1; 0; 0] b)
        = Ok (constant_points b n [0; 0])) /\
    (forall (X : T3) (cam : T2) (r : T3),
        Forall (fun c => nth 2 c 0 = 0) cam ->
        project_points tf sd X cam = Ok r ->
        project_points tf sd (flip_vertical X) cam = Ok (flip_vertical r)) /\
    (forall (X : T3) (cam : T2) (r : T3),
        Forall (fun c => nth 2 c 0 = 0) cam ->
        project_landmarks2d tf sd X cam = Ok r ->
        project_landmarks2d tf sd (flip_vertical X) cam = Ok (flip_vertical r)).
  Proof.
    split; [|split].
    - intros b n. unfold project_landmarks2d.
      rewrite batch_orth_proj_origin. simpl. f_equal.
      unfold negate_from1, first2, constant_points.
      rewrite !map_repeat. simpl. do 3 f_equal. qc_eq.
    - intros X cam r Hty. unfold project_points.
      destruct (batch_orth_proj tf sd X cam) as [q|] eqn:Hq; [|discriminate].
      simpl. intros H. injection H as <-.
      rewrite (@batch_orth_proj_flip tf sd X cam q Hty Hq). simpl.
      now rewrite negate_from1_flip.
    - intros X cam r Hty. unfold project_landmarks2d.
      destruct (batch_orth_proj tf sd X cam) as [q|] eqn:Hq; [|discriminate].
      simpl. intros H. injection H as <-.
      rewrite (@batch_orth_proj_flip tf sd X cam q Hty Hq). simpl.
      now rewrite first2_flip, negate_from1_flip.
  Qed.

Lemma projection_origin_and_flip_witness :
    project_points true true (flip_vertical [[[1; two; 0]]]) [[two; 1; 0]] =
    Ok (flip_vertical [[[two + two; - (two + two); - 0]]]).
  Proof.
    apply (proj1 (proj2 (projection_origin_and_flip true true))).
    - repeat constructor.
    - simpl. qc_eq.
  Defined.

(** C6 as stated fails with a vertical translation: under camera
  (1, 0, 1) the point (0, 1, 0) goes to height -2 and the point
  (0, -1, 0) to height 0, not 2. *)
Lemma vertical_flip_fails_with_translation :
    ~ flip_commutes true true [[[0; 1; 0]]] [[1; 0; 1]] /\
    ~ flip_commutes true false [[[0; 1; 0]]] [[1; 0; 1]] /\
    ~ flip_commutes false true [[[0; 1; 0]]] [[1; 0; 1]] /\
    ~ flip_commutes false false [[[0; 1; 0]]] [[1; 0; 1]].
  Proof.
    repeat split; intros H; apply (f_equal vertical_of) in H;
      vm_compute in H; discriminate.
  Qed.

End ProjectionFacts.

(** ** Landmark visibility *)

Module VisibilityFacts.
Import Tensor Visibility TensorFacts.
Local Open Scope Qc_scope.

Lemma shape3_as_tab {A} (t : list (list (list A))) (b n c : nat) :
  has_shape3 t b n c ->
  t = tab b (fun i => tab n (fun k => nth k (nth i t []) [])) /\
  (forall i k, (i < b)%nat -> (k < n)%nat ->
               length (nth k (nth i t []) []) = c).
Proof.
  intros [Hb Hrows]. split.
  - rewrite (list_as_tab t []) at 1. rewrite Hb.
    apply tab_ext. intros i Hi. rewrite <- Hb in Hi.
    destruct (proj1 (Forall_nth _ _) Hrows i [] Hi) as [Hn _].
    rewrite (list_as_tab (nth i t []) []) at 1. now rewrite Hn.
  - intros i k Hi Hk. rewrite <- Hb in Hi.
    destruct (proj1 (Forall_nth _ _) Hrows i [] Hi) as [Hn Hc].
    rewrite <- Hn in Hk.
    exact (proj1 (Forall_nth _ _) Hc k [] Hk).
Qed.

Lemma tab_shape3 {A} (b n c : nat) (f : nat -> nat -> list A) :
  (forall i k, (i < b)%nat -> (k < n)%nat -> length (f i k) = c) ->
  has_shape3 (tab b (fun i => tab n (f i))) b n c.
Proof.
  intros Hf. split; [apply length_tab|].
  apply Forall_nth. intros i d Hi. rewrite length_tab in Hi.
  rewrite nth_tab by assumption. split; [apply length_tab|].
  apply Forall_nth. intros k d' Hk. rewrite length_tab in Hk.
  rewrite nth_tab by assumption. now apply Hf.
Qed.






End VisibilityFacts.

(** ** UV displacement to normals *)

Module NormalFacts.
Import Tensor Normal TensorFacts.
Local Open Scope Qc_scope.

Section Reshape.

Context {A : Type}.






End Reshape.






Lemma hd_tab {A} (n : nat) (f : nat -> A) (d : A) :
  (0 < n)%nat -> hd d (tab n f) = f 0%nat.
Proof.
  intros Hn. destruct n as [|n]; [lia|]. now rewrite tab_S.
Qed.

Lemma dims4_tab4 (b c h w : nat) (f : nat -> nat -> nat -> nat -> Qc) :
  (0 < b)%nat -> (0 < c)%nat -> (0 < h)%nat ->
  dims4 (tab4 b c h w f) = (b, c, h, w).
Proof.
  intros Hb Hc Hh. unfold dims4, tab4.
  rewrite !hd_tab by assumption. now rewrite !length_tab.
Qed.





Section Indexing.

Context {A : Type}.




End Indexing.














(** The raster of that call: the first texel, outside the mask, holds the
  coarse normal (0, 0, 1); the second, inside, holds what the collaborator
  returns for the position (1, 0, 0) moved by half the normal (0, 1, 0). *)
Lemma zero_displacement_demo :
  displacement2normal_coarse texel_atlas demo_vertex_normals [[[0; 1; 0]%Z]]
    [[[[0; 1]]]] [[Texture.half; Texture.half]] (tab4 1 1 1 2 (fun _ _ _ _ => 0))
    [[[0; 0; 0]; [1; 0; 0]]] [[[0; 0; 1]; [0; 1; 0]]]
  = Ok [[[[0; 1]]; [[0; Texture.half]]; [[1; 0]]]].
Proof. vm_compute. qc_eq. Qed.


Section Empty.

Context {A B C : Type}.
Variable f : A -> B -> result C.

Lemma broadcast_nil_l (ys : list B) (r : list C) :
  broadcast f [] ys = Ok r -> r = [].
Proof.
  unfold broadcast. destruct ys as [|y [|y' ys]]; cbn [mapM zipM].
  - now intros [= <-].
  - now intros [= <-].
  - discriminate.
Qed.

Lemma broadcast_nil_r (xs : list A) (r : list C) :
  broadcast f xs [] = Ok r -> r = [].
Proof.
  unfold broadcast. destruct xs as [|x [|x' xs]]; cbn [mapM zipM].
  - now intros [= <-].
  - now intros [= <-].
  - discriminate.
Qed.

End Empty.

Section Collaborators.

Variable world2uv_coarse : T3 -> T4.
Variable vertex_normals : T3 -> list (list (list Z)) -> T3.
Variable interpolate : T4 -> nat -> nat -> T4.
Variable dense_faces : list (list (list Z)).
Variable uv_face_eye_mask_coarse : T4.
Variable fixed_uv_dis : T2.
Variable uv_size : nat.

(** X6. An empty batch never gets through [displacement2normal]: where the
  broadcasts go through, [reshape([0, -1, 3])] raises. *)
Theorem displacement2normal_empty_batch (coarse_verts coarse_normals : T3) :
  exists e,
    displacement2normal world2uv_coarse vertex_normals interpolate dense_faces
      uv_face_eye_mask_coarse fixed_uv_dis uv_size [] coarse_verts coarse_normals
    = Err e.
Proof.
  unfold displacement2normal, displacement2normal_coarse. cbn [length].
  unfold tmul, tadd, lift4.
  repeat lazymatch goal with
    | |- context [bind (broadcast ?f ?xs ?ys) _] =>
        let H := fresh "H" in
        let e := fresh "e" in
        destruct (broadcast f xs ys) as [?r|e] eqn:H;
        [ try (apply broadcast_nil_l in H; subst);
          try (apply broadcast_nil_r in H; subst);
          cbn [bind]
        | now exists e ]
    end.
  eexists. reflexivity.
Qed.

(** X7. The displacement is read only where the face/eye mask is not zero:
  two fields that agree there give the same result. *)
Theorem displacement_outside_mask_ignored
        (uv_z uv_z' : T4) (coarse_verts coarse_normals : T3) (b h w : nat) :
  has_shape4 uv_face_eye_mask_coarse 1 1 h w ->
  has_shape4 uv_z b 1 h w ->
  has_shape4 uv_z' b 1 h w ->
  (forall i y x, (i < b)%nat -> (y < h)%nat -> (x < w)%nat ->
                 get4 uv_face_eye_mask_coarse 0 0 y x <> 0 ->
                 get4 uv_z i 0 y x = get4 uv_z' i 0 y x) ->
  displacement2normal world2uv_coarse vertex_normals interpolate dense_faces
    uv_face_eye_mask_coarse fixed_uv_dis uv_size uv_z coarse_verts coarse_normals =
  displacement2normal world2uv_coarse vertex_normals interpolate dense_faces
    uv_face_eye_mask_coarse fixed_uv_dis uv_size uv_z' coarse_verts coarse_normals.
Proof.
  intros Hm Hz Hz' Hsame.
  unfold displacement2normal, displacement2normal_coarse.
  rewrite (proj1 Hz), (proj1 Hz').
  assert (E : tmul uv_z uv_face_eye_mask_coarse = tmul uv_z' uv_face_eye_mask_coarse).
  { assert (Hsame' : forall i y x, (i < b)%nat -> (y < h)%nat -> (x < w)%nat ->
              get4 uv_z i 0 y x * get4 uv_face_eye_mask_coarse 0 0 y x =
              get4 uv_z' i 0 y x * get4 uv_face_eye_mask_coarse 0 0 y x).
    { intros i y x Hi Hy Hx.
      destruct (Qc_eq_dec (get4 uv_face_eye_mask_coarse 0 0 y x) 0) as [E0|Hne].
      - rewrite E0. ring.
      - now rewrite (Hsame i y x). }
    clear Hsame. as_tab Hm. as_tab Hz. as_tab Hz'.
    unfold tmul.
    rewrite !(lift4_tab _ _ _ (bdim_right1 b) (bdim_same 1) (bdim_same h) (bdim_same w)).
    f_equal. apply tab4_ext. intros i j y x Hi Hj Hy Hx.
    assert (j = 0)%nat as -> by lia.
    specialize (Hsame' i y x Hi Hy Hx).
    rewrite ?get4_tab4 in Hsame' by lia.
    bidx_simpl. cbn [bidx Nat.eqb]. exact Hsame'. }
  now rewrite E.
Qed.


End Collaborators.

Lemma displacement_outside_mask_ignored_witness :
  displacement2normal demo_world2uv demo_vertex_normals (fun t _ _ => t)
    [[[0; 0; 0]%Z]] [[[[0]]]] [[Q2Qc (1 # 2)]] 1 [[[[1]]]] [[[0; 0; 0]]] [[[0; 0; 1]]] =
  displacement2normal demo_world2uv demo_vertex_normals (fun t _ _ => t)
    [[[0; 0; 0]%Z]] [[[[0]]]] [[Q2Qc (1 # 2)]] 1 [[[[Q2Qc 2]]]] [[[0; 0; 0]]] [[[0; 0; 1]]].
Proof.
  apply (@displacement_outside_mask_ignored demo_world2uv demo_vertex_normals
           (fun t _ _ => t) [[[0; 0; 0]%Z]] [[[[0]]]] [[Q2Qc (1 # 2)]] 1
           [[[[1]]]] [[[[Q2Qc 2]]]] [[[0; 0; 0]]] [[[0; 0; 1]]] 1 1 1);
    try (repeat constructor; fail).
  intros i y x Hi Hy Hx Hm. exfalso. apply Hm.
  destruct y as [|y]; [|lia]. destruct x as [|x]; [|lia]. reflexivity.
Defined.


End NormalFacts.

(** ** Visualization composer *)

Module VisualizeFacts.
Import Tensor Visualize TensorFacts.




Lemma dims3_shape (t : T3) (c h w : nat) :
  (0 < c)%nat -> (0 < h)%nat -> has_shape3 t c h w -> dims3 t = (c, h, w).
Proof.
  intros Hc Hh [Hlen Hrows]. unfold dims3.
  destruct t as [|ch t]; [simpl in Hlen; lia|].
  inversion Hrows as [|? ? [Hch Hr] _]; subst.
  destruct ch as [|row ch]; [simpl in Hh; lia|].
  inversion Hr; subst. reflexivity.
Qed.

Lemma shape3_intro {A} (t : list (list (list A))) (b n c : nat) :
  length t = b ->
  (forall i, (i < b)%nat ->
             length (nth i t []) = n /\
             Forall (fun r => length r = c) (nth i t [])) ->
  has_shape3 t b n c.
Proof.
  intros Hb H. split; [exact Hb|].
  apply Forall_nth. intros i d Hi.
  rewrite (nth_indep t d [] Hi). apply H. lia.
Qed.

Lemma shape3_rows {A} (t : list (list (list A))) (b n c i : nat) :
  has_shape3 t b n c -> (i < b)%nat ->
  length (nth i t []) = n /\ Forall (fun r => length r = c) (nth i t []).
Proof.
  intros [Hb Hrows] Hi. rewrite <- Hb in Hi.
  exact (proj1 (Forall_nth _ _) Hrows i [] Hi).
Qed.

Lemma bgr_pixel_tab (c : nat) (f : nat -> Qc) :
  (3 <= c)%nat -> bgr_pixel (tab c f) = Ok [f 2%nat; f 1%nat; f 0%nat].
Proof.
  intros Hc. destruct c as [|[|[|c]]]; try lia.
  now rewrite !tab_S.
Qed.

Section Composer.

Variable interpolate : T4 -> Z -> Z -> result T4.
Variable make_grid : T4 -> result T3.



End Composer.

(** *** The layout of the image *)

Lemma tab_add {A} (n m : nat) (f : nat -> A) :
  tab (n + m) f = tab n f ++ tab m (fun i => f (n + i)%nat).
Proof.
  revert f. induction n as [|n IH]; intros f.
  - reflexivity.
  - cbn [Nat.add]. rewrite !tab_S, IH. reflexivity.
Qed.

Lemma pixels_app (a2 a1 a0 b2 b1 b0 : T1) :
  length a2 = length a0 -> length a1 = length a0 ->
  pixels (a2 ++ b2) (a1 ++ b1) (a0 ++ b0) = pixels a2 a1 a0 ++ pixels b2 b1 b0.
Proof.
  intros H2 H1. unfold pixels. rewrite length_app, tab_add. f_equal.
  - apply tab_ext. intros x Hx. now rewrite !app_nth1 by lia.
  - apply tab_ext. intros x Hx.
    rewrite <- H2 at 1. rewrite <- H1 at 1. now rewrite !app_nth2_plus.
Qed.

(** The image row of grids laid side by side. *)
Lemma pixels_concat (y : nat) (grids : list T3) :
  Forall (fun g => length (grid_row g 2 y) = length (grid_row g 0 y) /\
                   length (grid_row g 1 y) = length (grid_row g 0 y)) grids ->
  pixels (concat (map (fun g => grid_row g 2 y) grids))
         (concat (map (fun g => grid_row g 1 y) grids))
         (concat (map (fun g => grid_row g 0 y) grids))
  = concat (map (fun g => panel_row g y) grids).
Proof.
  induction 1 as [|g grids [H2 H1] _ IH]; cbn [map concat].
  - reflexivity.
  - rewrite pixels_app by assumption. now rewrite IH.
Qed.

Lemma shape3_row_length (g : T3) (c h w j y : nat) :
  has_shape3 g c h w -> (j < c)%nat -> (y < h)%nat ->
  length (grid_row g j y) = w.
Proof.
  intros Hg Hj Hy. exact (proj2 (VisibilityFacts.shape3_as_tab Hg) j y Hj Hy).
Qed.

Lemma shape3_height (g : T3) (c h w : nat) :
  has_shape3 g c h w -> (0 < c)%nat -> length (nth 0%nat g []) = h.
Proof.
  intros Hg Hc. exact (proj1 (shape3_rows Hg Hc)).
Qed.

(** Concatenation along the columns, row by row. *)
Lemma cat3_cols_rows (a g : T3) (c h wa wg : nat) :
  (0 < c)%nat -> (0 < h)%nat ->
  has_shape3 a c h wa -> has_shape3 g c h wg ->
  exists r, cat3 2 a g = Ok r /\ has_shape3 r c h (wa + wg) /\
            forall j y, (j < c)%nat -> (y < h)%nat ->
                        grid_row r j y = grid_row a j y ++ grid_row g j y.
Proof.
  intros Hc Hh Ha Hg. unfold cat3.
  rewrite (dims3_shape Hc Hh Ha), (dims3_shape Hc Hh Hg).
  cbn [Z.eqb Pos.eqb]. rewrite !Nat.eqb_refl. cbn [andb].
  destruct (VisibilityFacts.shape3_as_tab Ha) as [Ea La].
  destruct (VisibilityFacts.shape3_as_tab Hg) as [Eg Lg].
  exists (tab c (fun j => tab h (fun y =>
            nth y (nth j a []) [] ++ nth y (nth j g []) []))).
  unfold T3, T2, T1 in *. split; [|split].
  - rewrite Ea at 1. rewrite Eg at 1.
    apply zipM_tab. intros j Hj. apply zipM_tab. reflexivity.
  - apply VisibilityFacts.tab_shape3. intros j y Hj Hy.
    rewrite length_app, (La j y Hj Hy), (Lg j y Hj Hy). reflexivity.
  - intros j y Hj Hy. unfold grid_row, T3, T2, T1.
    now rewrite !nth_tab by assumption.
Qed.

Lemma cat_cols_fold (c gh : nat) (rest : list T3) :
  (0 < c)%nat -> (0 < gh)%nat ->
  Forall (fun g => exists w, has_shape3 g c gh w) rest ->
  forall (done : list T3) (acc : T3) (w : nat),
    has_shape3 acc c gh w ->
    (forall j y, (j < c)%nat -> (y < gh)%nat ->
                 grid_row acc j y = concat (map (fun g => grid_row g j y) done)) ->
    exists r w',
      fold_left (fun acc u => a <- acc ;; cat3 2 a u) rest (Ok acc) = Ok r /\
      has_shape3 r c gh w' /\
      forall j y, (j < c)%nat -> (y < gh)%nat ->
                  grid_row r j y =
                  concat (map (fun g => grid_row g j y) (done ++ rest)).
Proof.
  intros Hc Hgh Hrest.
  induction Hrest as [|g rest [wg Hg] _ IH]; intros done acc w Hacc Hrows.
  - exists acc, w. cbn [fold_left]. rewrite app_nil_r. auto.
  - cbn [fold_left bind].
    destruct (cat3_cols_rows Hc Hgh Hacc Hg) as (r & Hr & Sr & Rr).
    rewrite Hr.
    destruct (IH (done ++ [g]) r (w + wg)%nat Sr) as (r' & w' & Hf & Sr' & Rr').
    { intros j y Hj Hy. rewrite (Rr j y Hj Hy), (Hrows j y Hj Hy).
      rewrite map_app, concat_app. cbn [map concat]. now rewrite app_nil_r. }
    exists r', w'. split; [exact Hf|]. split; [exact Sr'|].
    intros j y Hj Hy. rewrite (Rr' j y Hj Hy). now rewrite <- app_assoc.
Qed.

(** [torch.cat(grids, 2)] on grids of one height: every row is the
  concatenation of the rows of the grids, in order. *)
Lemma torch_cat_cols (c gh : nat) (grids : list T3) :
  (0 < c)%nat -> (0 < gh)%nat -> grids <> [] ->
  Forall (fun g => exists w, has_shape3 g c gh w) grids ->
  exists r w,
    torch_cat grids 2 = Ok r /\ has_shape3 r c gh w /\
    forall j y, (j < c)%nat -> (y < gh)%nat ->
                grid_row r j y = concat (map (fun g => grid_row g j y) grids).
Proof.
  intros Hc Hgh Hne Hall. destruct grids as [|g rest]; [contradiction|].
  inversion Hall as [|? ? [w Hg] Hrest]; subst. unfold torch_cat.
  apply (cat_cols_fold Hc Hgh Hrest [g] Hg).
  intros j y Hj Hy. cbn [map concat]. now rewrite app_nil_r.
Qed.

(** Line 465 and 466 on a grid of three channels or more: the image of
  the grid. *)
Lemma grid_image (grid : T3) (c h w : nat) :
  (3 <= c)%nat -> (0 < h)%nat -> has_shape3 grid c h w ->
  exists grid_image,
    mapM (mapM bgr_pixel)
         (map (map (map (fun v => (v * Q2Qc 255)%Qc))) (transpose_120 grid))
    = Ok grid_image /\
    map (map (map (fun v => to_uint8 (clamp v)))) grid_image = panel grid.
Proof.
  intros Hc Hh Hgrid. unfold transpose_120.
  rewrite (dims3_shape (c := c) (h := h) (w := w)) by (assumption || lia).
  exists (tab h (fun y => tab w (fun x =>
            [(nth x (grid_row grid 2 y) 0 * Q2Qc 255)%Qc;
             (nth x (grid_row grid 1 y) 0 * Q2Qc 255)%Qc;
             (nth x (grid_row grid 0 y) 0 * Q2Qc 255)%Qc]))).
  split.
  - rewrite map_tab. apply mapM_tab. intros y Hy. rewrite map_tab.
    apply mapM_tab. intros x Hx. rewrite map_tab.
    now rewrite bgr_pixel_tab by assumption.
  - unfold panel. rewrite (shape3_height Hgrid) by lia.
    rewrite map_tab. apply tab_ext. intros y Hy.
    unfold panel_row, pixels.
    rewrite (shape3_row_length (j := 0) (y := y) Hgrid) by lia.
    rewrite map_tab. apply tab_ext. intros x Hx. reflexivity.
Qed.

Lemma dict_set_fresh_app {V} (k : string) (v : V) (d : dict V) :
  ~ In k (dict_keys d) -> dict_set k v d = d ++ [(k, v)].
Proof.
  induction d as [|[k' v'] d IH]; cbn [dict_set dict_keys map fst app]; intros H.
  - reflexivity.
  - destruct (String.eqb_spec k' k) as [->|Hne].
    + exfalso. apply H. now left.
    + f_equal. apply IH. intros Hin. apply H. now right.
Qed.

(** Image rows of grids stacked on top of each other. *)
Lemma stacked_rows_app (a2 a1 a0 b2 b1 b0 : T2) :
  length a2 = length a0 -> length a1 = length a0 ->
  tab (length (a0 ++ b0))
      (fun y => pixels (nth y (a2 ++ b2) []) (nth y (a1 ++ b1) [])
                       (nth y (a0 ++ b0) []))
  = tab (length a0) (fun y => pixels (nth y a2 []) (nth y a1 []) (nth y a0 []))
    ++ tab (length b0) (fun y => pixels (nth y b2 []) (nth y b1 []) (nth y b0 [])).
Proof.
  intros H2 H1. rewrite length_app, tab_add. f_equal.
  - apply tab_ext. intros y Hy. now rewrite !app_nth1 by lia.
  - apply tab_ext. intros y Hy.
    rewrite <- H2 at 1. rewrite <- H1 at 1. now rewrite !app_nth2_plus.
Qed.

Lemma stacked_rows_concat (grids : list T3) :
  Forall (fun g => length (nth 2%nat g []) = length (nth 0%nat g []) /\
                   length (nth 1%nat g []) = length (nth 0%nat g [])) grids ->
  tab (length (concat (map (fun g => nth 0%nat g []) grids)))
      (fun y => pixels (nth y (concat (map (fun g => nth 2%nat g []) grids)) [])
                       (nth y (concat (map (fun g => nth 1%nat g []) grids)) [])
                       (nth y (concat (map (fun g => nth 0%nat g []) grids)) []))
  = concat (map panel grids).
Proof.
  induction 1 as [|g grids [H2 H1] _ IH]; cbn [map concat].
  - reflexivity.
  - rewrite stacked_rows_app by assumption. now rewrite IH.
Qed.

Lemma shape3_channel_length (g : T3) (c h w j : nat) :
  has_shape3 g c h w -> (j < c)%nat -> length (nth j g []) = h.
Proof. intros Hg Hj. exact (proj1 (shape3_rows Hg Hj)). Qed.

(** Concatenation along the rows, channel by channel. *)
Lemma cat3_rows_channels (a g : T3) (c ha hg w : nat) :
  (0 < c)%nat -> (0 < ha)%nat -> (0 < hg)%nat ->
  has_shape3 a c ha w -> has_shape3 g c hg w ->
  exists r, cat3 1 a g = Ok r /\ has_shape3 r c (ha + hg) w /\
            forall j, (j < c)%nat -> nth j r [] = nth j a [] ++ nth j g [].
Proof.
  intros Hc Hha Hhg Ha Hg. unfold cat3.
  rewrite (dims3_shape Hc Hha Ha), (dims3_shape Hc Hhg Hg).
  cbn [Z.eqb Pos.eqb]. rewrite !Nat.eqb_refl. cbn [andb].
  exists (tab c (fun j => nth j a [] ++ nth j g [])).
  unfold T3, T2, T1 in *. split; [|split].
  - rewrite (list_as_tab a []) at 1. rewrite (list_as_tab g []) at 1.
    rewrite (proj1 Ha), (proj1 Hg). now apply zipM_tab.
  - apply shape3_intro; [apply length_tab|].
    intros j Hj. rewrite nth_tab by assumption.
    destruct (shape3_rows Ha Hj) as [La Fa].
    destruct (shape3_rows Hg Hj) as [Lg Fg].
    split; [rewrite length_app; congruence|].
    apply Forall_app. now split.
  - intros j Hj. now rewrite nth_tab by assumption.
Qed.

Lemma cat_rows_fold (c gw : nat) (rest : list T3) :
  (0 < c)%nat ->
  Forall (fun g => exists h, (0 < h)%nat /\ has_shape3 g c h gw) rest ->
  forall (done : list T3) (acc : T3) (h : nat),
    (0 < h)%nat -> has_shape3 acc c h gw ->
    (forall j, (j < c)%nat ->
               nth j acc [] = concat (map (fun g => nth j g []) done)) ->
    exists r h',
      fold_left (fun acc u => a <- acc ;; cat3 1 a u) rest (Ok acc) = Ok r /\
      (0 < h')%nat /\ has_shape3 r c h' gw /\
      forall j, (j < c)%nat ->
                nth j r [] = concat (map (fun g => nth j g []) (done ++ rest)).
Proof.
  intros Hc Hrest.
  induction Hrest as [|g rest (hg & Hhg & Hg) _ IH];
    intros done acc h Hh Hacc Hrows.
  - exists acc, h. cbn [fold_left]. rewrite app_nil_r. auto.
  - cbn [fold_left bind].
    destruct (cat3_rows_channels Hc Hh Hhg Hacc Hg) as (r & Hr & Sr & Rr).
    rewrite Hr.
    destruct (IH (done ++ [g]) r (h + hg)%nat ltac:(lia) Sr)
      as (r' & h' & Hf & Hh' & Sr' & Rr').
    { intros j Hj. rewrite (Rr j Hj), (Hrows j Hj).
      rewrite map_app, concat_app. cbn [map concat]. now rewrite app_nil_r. }
    exists r', h'. split; [exact Hf|]. split; [exact Hh'|]. split; [exact Sr'|].
    intros j Hj. rewrite (Rr' j Hj). now rewrite <- app_assoc.
Qed.

(** [torch.cat(grids, 1)] on grids of one width: every channel is the
  rows of the grids stacked in order. *)
Lemma torch_cat_rows (c gw : nat) (grids : list T3) :
  (0 < c)%nat -> grids <> [] ->
  Forall (fun g => exists h, (0 < h)%nat /\ has_shape3 g c h gw) grids ->
  exists r h,
    torch_cat grids 1 = Ok r /\ (0 < h)%nat /\ has_shape3 r c h gw /\
    forall j, (j < c)%nat ->
              nth j r [] = concat (map (fun g => nth j g []) grids).
Proof.
  intros Hc Hne Hall. destruct grids as [|g rest]; [contradiction|].
  inversion Hall as [|? ? (h & Hh & Hg) Hrest]; subst. unfold torch_cat.
  apply (cat_rows_fold Hc Hrest [g] Hh Hg).
  intros j Hj. cbn [map concat]. now rewrite app_nil_r.
Qed.

Section Layout.

Variable interpolate : T4 -> Z -> Z -> result T4.
Variable make_grid : T4 -> result T3.

(** The grids are stored in the order of the keys of [visdict]. *)
Lemma make_grids_values (size dim : Z) :
  forall (visdict : dict T4) (grids : list T3) (acc : dict T3),
    NoDup (dict_keys acc ++ dict_keys visdict) ->
    Forall2 (fun kv g => grid_of interpolate make_grid size dim (snd kv) = Ok g)
            visdict grids ->
    exists d, make_grids interpolate make_grid size dim visdict acc = Ok d /\
              map snd d = map snd acc ++ grids.
Proof.
  induction visdict as [|[key buf] visdict IH]; intros grids acc Hnd Hall.
  - inversion Hall; subst. exists acc. cbn [make_grids]. now rewrite app_nil_r.
  - inversion Hall as [|? g ? grids' Hg Hrest]; subst. cbn [snd] in Hg.
    cbn [make_grids]. rewrite Hg. cbn [bind].
    cbn [dict_keys map fst] in Hnd.
    assert (Hfresh : ~ In key (dict_keys acc)).
    { intros Hin. apply NoDup_remove_2 in Hnd. apply Hnd.
      apply in_or_app. now left. }
    rewrite (@dict_set_fresh_app _ key g acc Hfresh).
    destruct (IH grids' (acc ++ [(key, g)])) as (d & Hd & Hv).
    { unfold dict_keys. rewrite map_app. cbn [map fst].
      rewrite <- app_assoc. exact Hnd. }
    { exact Hrest. }
    exists d. split; [exact Hd|]. rewrite Hv, map_app. cbn [map snd].
    now rewrite <- app_assoc.
Qed.

Lemma Forall2_split {X Y} (P : X -> Y -> Prop) (Q : Y -> Prop)
      (xs : list X) (ys : list Y) :
  Forall2 (fun x y => P x y /\ Q y) xs ys ->
  Forall2 P xs ys /\ Forall Q ys.
Proof.
  induction 1 as [|x y xs ys [HP HQ] _ [IH1 IH2]]; split; constructor; auto.
Qed.

(** The image that [visualize] returns is the image of the concatenated
  grid. *)
Lemma visualize_panel (visdict : dict T4) (size dim : Z) (grids : list T3)
      (grid : T3) (c h w : nat) :
  dim = 1%Z \/ dim = 2%Z ->
  NoDup (dict_keys visdict) ->
  Forall2 (fun kv g => grid_of interpolate make_grid size dim (snd kv) = Ok g)
          visdict grids ->
  torch_cat grids dim = Ok grid ->
  (3 <= c)%nat -> (0 < h)%nat -> has_shape3 grid c h w ->
  visualize interpolate make_grid visdict size dim = Ok (panel grid).
Proof.
  intros Hdim Hnd Hall Hcat Hc Hh Hgrid. unfold visualize.
  replace (negb ((dim =? 1)%Z || (dim =? 2)%Z)) with false
    by (destruct Hdim; subst; reflexivity).
  destruct (make_grids_values size dim (@nil (string * T3)) Hnd Hall)
    as (d & -> & Hd).
  cbn [bind]. cbn [map app] in Hd. rewrite Hd, Hcat. cbn [bind].
  destruct (grid_image Hc Hh Hgrid) as (img & -> & Himg). cbn [bind].
  now rewrite Himg.
Qed.

(** X9. With the default selector 2 the buffers appear side by side, from
  left to right in the order of the keys of [visdict]: every row of the
  image is the concatenation of the rows of the images of the grids, each
  pixel holding the channels 2, 1, 0 of its grid scaled by 255, clamped
  and cast. *)
Theorem visualize_horizontal (visdict : dict T4) (size : Z) (grids : list T3)
        (c gh : nat) :
  NoDup (dict_keys visdict) -> visdict <> [] ->
  (3 <= c)%nat -> (0 < gh)%nat ->
  Forall2 (fun kv g => grid_of interpolate make_grid size 2 (snd kv) = Ok g /\
                       exists w, has_shape3 g c gh w) visdict grids ->
  visualize interpolate make_grid visdict size 2 =
  Ok (tab gh (fun y => concat (map (fun g => panel_row g y) grids))).
Proof.
  intros Hnd Hne Hc Hgh Hall.
  destruct (Forall2_split _ _ Hall) as [Hgrids Hshapes].
  assert (Hgne : grids <> []).
  { intros ->. inversion Hall; subst. contradiction. }
  destruct (@torch_cat_cols c gh grids ltac:(lia) Hgh Hgne Hshapes)
    as (r & w & Hcat & Sr & Rr).
  rewrite (@visualize_panel visdict size 2%Z grids r c gh w (or_intror eq_refl)
             Hnd Hgrids Hcat Hc Hgh Sr).
  f_equal. unfold panel. rewrite (shape3_height Sr) by lia.
  apply tab_ext. intros y Hy. unfold panel_row at 1.
  rewrite !Rr by lia. apply pixels_concat.
  eapply Forall_impl; [|exact Hshapes]. cbv beta. intros g [wg Hg].
  now rewrite !(shape3_row_length (y := y) Hg) by lia.
Qed.

(** X10. With the selector 1 the buffers appear one below the other, from top
  to bottom in the order of the keys of [visdict]. *)
Theorem visualize_vertical (visdict : dict T4) (size : Z) (grids : list T3)
        (c gw : nat) :
  NoDup (dict_keys visdict) -> visdict <> [] ->
  (3 <= c)%nat ->
  Forall2 (fun kv g => grid_of interpolate make_grid size 1 (snd kv) = Ok g /\
                       exists h, (0 < h)%nat /\ has_shape3 g c h gw)
          visdict grids ->
  visualize interpolate make_grid visdict size 1 =
  Ok (concat (map panel grids)).
Proof.
  intros Hnd Hne Hc Hall.
  destruct (Forall2_split _ _ Hall) as [Hgrids Hshapes].
  assert (Hgne : grids <> []).
  { intros ->. inversion Hall; subst. contradiction. }
  destruct (@torch_cat_rows c gw grids ltac:(lia) Hgne Hshapes)
    as (r & h & Hcat & Hh & Sr & Rr).
  rewrite (@visualize_panel visdict size 1%Z grids r c h gw (or_introl eq_refl)
             Hnd Hgrids Hcat Hc Hh Sr).
  f_equal. unfold panel at 1, panel_row, grid_row.
  rewrite !Rr by lia. apply stacked_rows_concat.
  eapply Forall_impl; [|exact Hshapes]. cbv beta. intros g (hg & _ & Hg).
  now rewrite !(shape3_channel_length Hg) by lia.
Qed.

(** X11. A square buffer is resized to [size] by [size], whichever the axis:
  the quotient of lines 460 and 462 is [size] itself.  Stated for
  products [n*size] of at most 2^53 in absolute value, which a double
  holds exactly: there the quotient the program computes in double
  precision is the exact one. *)
Theorem square_buffer_resized (size dim : Z) (buf : T4) (b c n : nat) :
  dim = 1%Z \/ dim = 2%Z ->
  (0 < b)%nat -> (0 < c)%nat -> (0 < n)%nat ->
  (Z.abs (Z.of_nat n * size) <= 2 ^ 53)%Z ->
  has_shape4 buf b c n n ->
  grid_of interpolate make_grid size dim buf =
  (resized <- interpolate buf size size ;; make_grid resized).
Proof.
  intros Hdim Hb Hc Hn _ Hbuf. unfold grid_of.
  replace (dims4 buf) with (b, c, n, n).
  2:{ rewrite (shape4_as_tab Hbuf). symmetry. now apply NormalFacts.dims4_tab4. }
  assert (Hq : scaled (Z.of_nat n) size (Z.of_nat n) = Ok size).
  { unfold scaled. destruct (Z.eqb_spec (Z.of_nat n) 0); [lia|].
    f_equal. rewrite Z.mul_comm. apply Z.quot_mul. lia. }
  destruct Hdim as [-> | ->]; cbn [Z.eqb Pos.eqb]; rewrite Hq; reflexivity.
Qed.

(** *** The pixels of the image *)












End Layout.

Lemma visualize_horizontal_witness :
  visualize demo_interpolate demo_make_grid demo_pair 1 2 =
  Ok (tab 1 (fun y => concat (map (fun g => panel_row g y)
                                  (map (fun kv => hd [] (snd kv)) demo_pair)))).
Proof.
  apply (@visualize_horizontal demo_interpolate demo_make_grid demo_pair 1%Z
           (map (fun kv => hd [] (snd kv)) demo_pair) 3%nat 1%nat).
  - repeat constructor; simpl; intuition discriminate.
  - discriminate.
  - lia.
  - lia.
  - repeat constructor; exists 1%nat; repeat constructor.
Defined.

Lemma visualize_vertical_witness :
  visualize demo_interpolate demo_make_grid demo_pair 1 1 =
  Ok (concat (map panel (map (fun kv => hd [] (snd kv)) demo_pair))).
Proof.
  apply (@visualize_vertical demo_interpolate demo_make_grid demo_pair 1%Z
           (map (fun kv => hd [] (snd kv)) demo_pair) 3%nat 1%nat).
  - repeat constructor; simpl; intuition discriminate.
  - discriminate.
  - lia.
  - repeat constructor; exists 1%nat; repeat constructor.
Defined.

Lemma square_buffer_resized_witness :
  grid_of demo_interpolate demo_make_grid 224 2 (snd (hd ("", []) demo_pair)) =
  (resized <- demo_interpolate (snd (hd ("", []) demo_pair)) 224 224 ;;
   demo_make_grid resized).
Proof.
  apply (@square_buffer_resized demo_interpolate demo_make_grid 224%Z 2%Z
           (snd (hd ("", []) demo_pair)) 1%nat 3%nat 1%nat).
  - now right.
  - lia.
  - lia.
  - lia.
  - vm_compute. discriminate.
  - repeat constructor.
Defined.


(** The two buffers composed: 2.0 and -1.0 are saturated, 0.5 becomes
  127, the channels come out in reverse order, and the second buffer
  stands to the right of the first, or below it. *)
Lemma visualize_demo :
  visualize demo_interpolate demo_make_grid demo_pair 1 2 =
    Ok [[[0; 127; 255]; [255; 255; 255]]]%Z /\
  visualize demo_interpolate demo_make_grid demo_pair 1 1 =
    Ok [[[0; 127; 255]]; [[255; 255; 255]]]%Z /\
  visualize demo_interpolate demo_make_grid demo_pair 1 3 =
    Err AssertionError.
Proof. repeat split; reflexivity. Qed.


End VisualizeFacts.

(** ** Local variables of [decode] *)

Module DecodeFacts.
Import Decode.

Section Frames.

Variable val : Type.
Variable call : string -> list val -> option val.
Variable unpack : nat -> val -> option (list val).

Local Abbreviation env := (env val).
Local Abbreviation M := (M val).

Lemma existsb_In (x : string) (ys : list string) :
  existsb (String.eqb x) ys = true -> In x ys.
Proof.
  intros H. apply existsb_exists in H as (y & Hy & Heq).
  apply String.eqb_eq in Heq. now subst.
Qed.

Lemma subset_In (xs ys : list string) (x : string) :
  subset xs ys = true -> In x xs -> In x ys.
Proof.
  unfold subset. rewrite forallb_forall. intros H Hx.
  apply existsb_In. now apply H.
Qed.

Lemma frame_weaken (b u b' u' : list string) (e : env) :
  subset b' b = true -> subset u' u = true ->
  frame b u e -> frame b' u' e.
Proof.
  intros Hb Hu [H1 H2]. rewrite Forall_forall in H1, H2.
  split; apply Forall_forall; intros x Hx.
  - apply H1. eapply subset_In; eassumption.
  - apply H2. eapply subset_In; eassumption.
Qed.

Lemma frame_store (b u : list string) (x : string) (v : val) (e : env) :
  frame b u e -> frame (x :: b) (without x u) (dict_set x v e).
Proof.
  intros [H1 H2]. rewrite Forall_forall in H1, H2. split.
  - constructor.
    + rewrite dict_get_set_same. discriminate.
    + apply Forall_forall. intros y Hy.
      destruct (String.eqb_spec x y) as [->|Hne].
      * rewrite dict_get_set_same. discriminate.
      * rewrite dict_get_set_other by assumption. now apply H1.
  - apply Forall_forall. intros y Hy.
    unfold without in Hy. apply filter_In in Hy as [Hy Hne].
    destruct (String.eqb_spec x y) as [|Hxy]; [discriminate|].
    rewrite dict_get_set_other by assumption. now apply H2.
Qed.

Lemma inter_subset_l (xs ys : list string) : subset (inter xs ys) xs = true.
Proof.
  unfold subset, inter. apply forallb_forall. intros x Hx.
  apply filter_In in Hx as [Hx _]. apply existsb_exists.
  exists x. split; [assumption | apply String.eqb_refl].
Qed.

Lemma inter_subset_r (xs ys : list string) : subset (inter xs ys) ys = true.
Proof.
  unfold subset, inter. apply forallb_forall. intros x Hx.
  now apply filter_In in Hx as [_ Hx].
Qed.

(** *** Rules *)

Lemma triple_seq {A} (P Q : env -> Prop) (R : A -> env -> Prop) E
      (s : M unit) (k : M A) :
  triple P s (fun _ => Q) E -> triple Q k R E -> triple P (seq s k) R E.
Proof.
  intros Hs Hk e He. unfold seq, mbind. specialize (Hs e He).
  destruct (s e) as [[[] e']|err]; [now apply Hk | exact Hs].
Qed.

Lemma triple_if {A} (P : env -> Prop) (Q : A -> env -> Prop) E (c : bool)
      (s1 s2 : M A) :
  triple P s1 Q E -> triple P s2 Q E -> triple P (if c then s1 else s2) Q E.
Proof. now destruct c. Qed.

Lemma triple_post {A} (P : env -> Prop) (Q Q' : A -> env -> Prop) E (m : M A) :
  triple P m Q E -> (forall a e, Q a e -> Q' a e) -> triple P m Q' E.
Proof.
  intros H HQ e He. specialize (H e He).
  destruct (m e) as [[a e']|err]; [now apply HQ | exact H].
Qed.

Lemma triple_join (P : env -> Prop) E (c : bool) (s1 s2 : M unit)
      (b1 u1 b2 u2 : list string) :
  triple P s1 (fun _ => frame b1 u1) E ->
  triple P s2 (fun _ => frame b2 u2) E ->
  triple P (if c then s1 else s2) (fun _ => frame (inter b1 b2) (inter u1 u2)) E.
Proof.
  intros H1 H2. apply triple_if.
  - eapply triple_post; [exact H1|]. intros t e.
    apply frame_weaken; apply inter_subset_l.
  - eapply triple_post; [exact H2|]. intros t e.
    apply frame_weaken; apply inter_subset_r.
Qed.

Lemma triple_skip (b u : list string) E :
  triple (frame b u) (@skip val) (fun _ => frame b u) E.
Proof. intros e He. exact He. Qed.

Lemma read_bound (b u : list string) (x : string) (e : env) :
  frame b u e -> In x b -> exists v, read x e = Ok (v, e).
Proof.
  intros [Hb _] Hx. rewrite Forall_forall in Hb. specialize (Hb x Hx).
  unfold read. destruct (dict_get x e) as [v|]; [now exists v | contradiction].
Qed.

Lemma read_all_bound (b u xs : list string) (e : env) :
  frame b u e -> subset xs b = true -> exists vs, read_all xs e = Ok (vs, e).
Proof.
  intros He. induction xs as [|x xs IH]; intros Hsub.
  - now exists [].
  - simpl in Hsub. apply andb_prop in Hsub as [Hx Hxs].
    destruct (read_bound x He (existsb_In _ _ Hx)) as [v Hv].
    destruct (IH Hxs) as [vs Hvs].
    exists (v :: vs). cbn [read_all]. unfold mbind. now rewrite Hv, Hvs.
Qed.

(** An expression over assigned names: it ends normally, or the callee
  raises. *)
Lemma triple_ext (b u : list string) E (f : string) (xs : list string) :
  subset xs b = true ->
  (forall args, call f args = None -> E (ExternalError f)) ->
  triple (frame b u) (ext call f xs) (fun _ => frame b u) E.
Proof.
  intros Hsub HE e He. unfold ext, mbind.
  destruct (read_all_bound xs He Hsub) as [vs ->].
  destruct (call f vs) as [v|] eqn:Hcall; [exact He | now apply (HE vs)].
Qed.

Lemma triple_read (b u : list string) E (x : string) :
  subset [x] b = true ->
  triple (frame b u) (@read val x) (fun _ => frame b u) E.
Proof.
  intros Hsub e He. simpl in Hsub. apply andb_prop in Hsub as [Hx _].
  destruct (read_bound x He (existsb_In _ _ Hx)) as [v ->]. exact He.
Qed.

Lemma triple_set (P : env -> Prop) (b u : list string) E (x : string)
      (expr : M val) :
  triple P expr (fun _ => frame b u) E ->
  triple P (set x expr) (fun _ => frame (x :: b) (without x u)) E.
Proof.
  intros H e He. unfold set, mbind, store. specialize (H e He).
  destruct (expr e) as [[v e']|err]; [now apply frame_store | exact H].
Qed.

Lemma triple_run (P Q : env -> Prop) E (expr : M val) :
  triple P expr (fun _ => Q) E -> triple P (run expr) (fun _ => Q) E.
Proof.
  intros H e He. unfold run, mbind, ret. specialize (H e He).
  now destruct (expr e) as [[v e']|err].
Qed.

Lemma frame_store_all (xs : list string) :
  forall (vs : list val) (b u : list string) (e : env),
    length vs = length xs ->
    frame b u e ->
    exists e', store_all xs vs e = Ok (tt, e') /\
               frame (xs ++ b) (fold_right without u xs) e'.
Proof.
  induction xs as [|x xs IH]; intros [|v vs] b u e Hlen He;
    try discriminate.
  - exists e. split; [reflexivity | exact He].
  - cbn [store_all]. unfold seq, mbind, store.
    destruct (IH vs (x :: b) (without x u) (dict_set x v e)) as (e' & Hrun & He').
    { simpl in Hlen. congruence. }
    { now apply frame_store. }
    exists e'. split; [exact Hrun|].
    destruct He' as [H1 H2]. rewrite Forall_forall in H1, H2.
    split; apply Forall_forall; intros y Hy.
    + apply H1. simpl in Hy. apply in_or_app.
      destruct Hy as [->|Hy]; [right; now left|].
      apply in_app_or in Hy as [Hy|Hy]; [now left | right; now right].
    + apply H2. cbn [fold_right] in Hy.
      unfold without in Hy at 1. apply filter_In in Hy as [Hy Hne].
      clear - Hy Hne. revert Hy. induction xs as [|z xs IHxs]; simpl.
      * intros Hy. unfold without. apply filter_In. now split.
      * unfold without at 1 3. rewrite !filter_In.
        intros [Hy Hz]. split; [now apply IHxs | exact Hz].
Qed.

Lemma triple_set_tuple (P : env -> Prop) (b u : list string) E
      (xs : list string) (expr : M val) :
  triple P expr (fun _ => frame b u) E ->
  (forall v, match unpack (length xs) v with
             | Some vs => length vs = length xs \/ E ValueError
             | None => E ValueError
             end) ->
  triple P (set_tuple unpack xs expr)
         (fun _ => frame (xs ++ b) (fold_right without u xs)) E.
Proof.
  intros H HE e He. unfold set_tuple, mbind. specialize (H e He).
  destruct (expr e) as [[v e']|err]; [|exact H].
  specialize (HE v). destruct (unpack (length xs) v) as [vs|]; [|exact HE].
  destruct (Nat.eqb_spec (length vs) (length xs)) as [Hlen|Hlen].
  - destruct (frame_store_all xs vs Hlen H) as (e'' & -> & He''). exact He''.
  - destruct HE as [HE|HE]; [contradiction | exact HE].
Qed.

(** An expression that reads a name known to be unassigned never ends
  normally. *)
Lemma triple_ext_unbound {A} (b u : list string) E (Q : A -> env -> Prop)
      (f : string) (before after : list string) (x : string) (k : val -> M A) :
  subset before b = true ->
  existsb (String.eqb x) u = true ->
  E (UnboundLocalError x) ->
  triple (frame b u) (mbind (ext call f (before ++ x :: after)) k) Q E.
Proof.
  intros Hsub Hx HE e He. unfold mbind, ext, mbind.
  assert (Hfail : read_all (before ++ x :: after) e = Err (UnboundLocalError x)).
  { clear k. induction before as [|y before IH].
    - cbn [app read_all]. unfold mbind, read.
      destruct He as [_ Hu]. rewrite Forall_forall in Hu.
      now rewrite (Hu x (existsb_In _ _ Hx)).
    - simpl in Hsub. apply andb_prop in Hsub as [Hy Hsub].
      destruct (read_bound y He (existsb_In _ _ Hy)) as [v Hv].
      cbn [app read_all]. unfold mbind. rewrite Hv. now rewrite (IH Hsub). }
  now rewrite Hfail.
Qed.

Lemma triple_set_unbound {A} (b u : list string) E (Q : A -> env -> Prop)
      (f y : string) (before after : list string) (x : string) (k : M A) :
  subset before b = true ->
  existsb (String.eqb x) u = true ->
  E (UnboundLocalError x) ->
  triple (frame b u) (seq (set y (ext call f (before ++ x :: after))) k) Q E.
Proof.
  intros Hsub Hx HE. unfold seq, set.
  intros e He.
  pose proof (@triple_ext_unbound unit b u E (fun _ _ => False) f before after x
                (store y) Hsub Hx HE e He) as H.
  unfold mbind in *.
  destruct (ext call f (before ++ x :: after) e) as [[v e']|err].
  - destruct (store y v e') as [[t e'']|err']; [contradiction | exact H].
  - exact H.
Qed.

(** *** Running the rules over the body *)

Ltac solve_raise :=
  first
    [ exact I
    | reflexivity
    | intros; exact I
    | match goal with
      | H : forall f args, call f args <> None |- _ =>
          let Hn := fresh in intros ? Hn; exfalso; exact (H _ _ Hn)
      end
    | unfold never_unbound; intros; discriminate ].

Ltac solve_unpack :=
  let v := fresh "v" in
  intros v;
  first
    [ match goal with
      | H : forall n v, exists vs, unpack n v = Some vs /\ length vs = n
        |- context [unpack ?n v] =>
          let vs := fresh in
          let E1 := fresh in
          let E2 := fresh in
          destruct (H n v) as (vs & E1 & E2); rewrite E1; left; exact E2
      end
    | destruct (unpack _ v); [right|]; solve_raise ].

(** Compute the two lists of names of the precondition. *)
Ltac normalize_frame :=
  lazymatch goal with
  | |- triple (frame ?b ?u) ?m ?Q ?E =>
      let b' := eval vm_compute in b in
      let u' := eval vm_compute in u in
      change (triple (frame b' u') m Q E)
  | |- _ => idtac
  end.

Ltac expression :=
  lazymatch goal with
  | |- triple _ (ext _ _ _) _ _ =>
      eapply triple_ext; [vm_compute; reflexivity | solve_raise]
  | |- triple _ (read _) _ _ =>
      eapply triple_read; vm_compute; reflexivity
  end.

Ltac statement :=
  lazymatch goal with
  | |- triple _ (set _ _) _ _ => eapply triple_set; expression
  | |- triple _ (run _) _ _ => eapply triple_run; expression
  | |- triple _ (set_tuple _ _ _) _ _ =>
      eapply triple_set_tuple; [expression | solve_unpack]
  | |- triple _ (@skip _) _ _ => eapply triple_skip
  | |- triple _ (if _ then _ else _) _ _ => eapply triple_join; statements
  | |- triple _ (seq _ _) _ _ => statements
  end
with statements :=
  normalize_frame;
  lazymatch goal with
  | |- triple _ (seq _ _) _ _ => eapply triple_seq; [statement | statements]
  | |- _ => statement
  end.

(** A block that ends in [return]. *)
Ltac returning :=
  normalize_frame;
  lazymatch goal with
  | |- triple _ (seq _ _) _ _ => eapply triple_seq; [statement | returning]
  | |- triple _ (if _ then _ else _) _ _ => eapply triple_if; returning
  | |- _ => eapply triple_post; [expression | intros; exact I]
  end.

Lemma entry_frame_ok (codedict iddict original_image tform : val) (u : list string) :
  inter u parameters = [] ->
  frame parameters u (entry_frame codedict iddict original_image tform).
Proof.
  intros Hu. split.
  - repeat constructor; discriminate.
  - apply Forall_forall. intros x Hx.
    destruct (dict_get x (entry_frame codedict iddict original_image tform))
      eqn:Hget; [|reflexivity].
    exfalso.
    assert (Hin : In x (inter u parameters)).
    { unfold inter. apply filter_In. split; [exact Hx|].
      unfold entry_frame in Hget. cbn [dict_get] in Hget.
      repeat match type of Hget with
             | (if String.eqb ?k x then _ else _) = _ =>
                 destruct (String.eqb_spec k x) as [<-|_]; [reflexivity|]
             end.
      discriminate. }
    rewrite Hu in Hin. contradiction.
Qed.

(** With rendering, no statement of [decode] reads an unassigned local. *)
Lemma decode_rendering_frame (fl : flags) :
  rendering fl = true ->
  triple (frame parameters []) (decode call unpack fl) (fun _ _ => True)
         never_unbound.
Proof.
  intros Hr.
  unfold decode, rendering_block, visualization_block. rewrite Hr.
  cbv iota.
  returning.
Qed.

(** The statements up to the call of [self.render] on line 341, which
  reads [uv_texture_gt]. *)
Ltac until_render :=
  normalize_frame;
  lazymatch goal with
  | |- triple _ (seq (set "ops" _) _) _ _ =>
      eapply triple_set_unbound
        with (before := ["verts"; "trans_verts"]) (x := "uv_texture_gt");
      [vm_compute; reflexivity | vm_compute; reflexivity | solve_raise]
  | |- triple _ (seq _ _) _ _ => eapply triple_seq; [statement | until_render]
  end.

(** Without rendering the visualization never returns. *)
Lemma decode_unrendered_frame (fl : flags) :
  rendering fl = false -> return_vis fl = true ->
  triple (frame parameters ["uv_texture_gt"]) (decode call unpack fl)
         (fun _ _ => False) (fun _ => True).
Proof.
  intros Hr Hv.
  unfold decode, visualization_block. rewrite Hr, Hv.
  cbv iota.
  until_render.
Qed.

(** When no callee raises, the exception is the unassigned local. *)
Lemma decode_unrendered_error (fl : flags) :
  (forall f args, call f args <> None) ->
  (forall n v, exists vs, unpack n v = Some vs /\ length vs = n) ->
  rendering fl = false -> return_vis fl = true ->
  triple (frame parameters ["uv_texture_gt"]) (decode call unpack fl)
         (fun _ _ => False)
         (fun err => err = UnboundLocalError "uv_texture_gt").
Proof.
  intros Hcall Hunpack Hr Hv.
  unfold decode, visualization_block. rewrite Hr, Hv.
  cbv iota.
  until_render.
Qed.

(** C10. A call of [decode] with [return_vis] and without [rendering]
  never returns: line 341 reads [uv_texture_gt], which only the rendering
  block assigns, and when no callee raises before that line the exception
  is the [UnboundLocalError] for that name.  With [rendering], no run of
  [decode] raises [UnboundLocalError], whatever the other options are and
  whatever the callees do. *)
Theorem decode_visualization_requires_rendering
        (fl : flags) (codedict iddict original_image tform : val) :
  let frame0 := entry_frame codedict iddict original_image tform in
  (rendering fl = false -> return_vis fl = true ->
   (exists err, decode call unpack fl frame0 = Err err) /\
   ((forall f args, call f args <> None) ->
    (forall n v, exists vs, unpack n v = Some vs /\ length vs = n) ->
    decode call unpack fl frame0 = Err (UnboundLocalError "uv_texture_gt"))) /\
  (rendering fl = true ->
   forall x, decode call unpack fl frame0 <> Err (UnboundLocalError x)).
Proof.
  intros frame0.
  assert (H0 : forall u, inter u parameters = [] -> frame parameters u frame0)
    by (intros u Hu; now apply entry_frame_ok).
  split.
  - intros Hr Hv. split.
    + pose proof (@decode_unrendered_frame fl Hr Hv frame0
                    (H0 ["uv_texture_gt"] eq_refl)) as H.
      destruct (decode call unpack fl frame0) as [[v e]|err];
        [contradiction | now exists err].
    + intros Hcall Hunpack.
      pose proof (@decode_unrendered_error fl Hcall Hunpack Hr Hv frame0
                    (H0 ["uv_texture_gt"] eq_refl)) as H.
      destruct (decode call unpack fl frame0) as [[v e]|err];
        [contradiction | now rewrite H].
  - intros Hr x Hx.
    pose proof (@decode_rendering_frame fl Hr frame0 (H0 [] eq_refl)) as H.
    rewrite Hx in H. exact (H x eq_refl).
Qed.

(** *** More rules *)

Lemma triple_bind {A B} (P : env -> Prop) (Q : A -> env -> Prop)
      (R : B -> env -> Prop) E (m : M A) (k : A -> M B) :
  triple P m Q E -> (forall a, triple (Q a) (k a) R E) ->
  triple P (mbind m k) R E.
Proof.
  intros Hm Hk e He. unfold mbind. specialize (Hm e He).
  destruct (m e) as [[a e']|err]; [now apply Hk | exact Hm].
Qed.

Lemma triple_ret {A} (P : env -> Prop) (Q : A -> env -> Prop) E (a : A) :
  (forall e, P e -> Q a e) -> triple P (@ret val A a) Q E.
Proof. intros H e He. now apply H. Qed.

(** [return x] for an assigned name. *)
Lemma triple_read_value (b u : list string) E (x : string) :
  subset [x] b = true ->
  triple (frame b u) (@read val x) (fun v e => dict_get x e = Some v) E.
Proof.
  intros Hsub e He. simpl in Hsub. apply andb_prop in Hsub as [Hx _].
  destruct He as [Hb _]. rewrite Forall_forall in Hb.
  specialize (Hb x (existsb_In _ _ Hx)). unfold read.
  destruct (dict_get x e) as [v|] eqn:Hg; [exact Hg | now elim Hb].
Qed.

(** The statements of a body up to its last one. *)
Ltac prefix :=
  normalize_frame;
  lazymatch goal with
  | |- triple _ (seq _ _) _ _ => eapply triple_seq; [statement | prefix]
  | |- _ => idtac
  end.

(** *** [decode] without the visualization block *)

Lemma decode_quiet_frame (fl : flags) :
  return_vis fl = false ->
  triple (frame parameters []) (decode call unpack fl)
         (fun v e => dict_get "opdict" e = Some v) never_unbound.
Proof.
  intros Hv. unfold decode, rendering_block. rewrite Hv. cbv iota.
  prefix. apply triple_read_value. vm_compute. reflexivity.
Qed.

Lemma decode_quiet_returns (fl : flags) :
  (forall f args, call f args <> None) ->
  (forall n v, exists vs, unpack n v = Some vs /\ length vs = n) ->
  return_vis fl = false ->
  triple (frame parameters []) (decode call unpack fl)
         (fun v e => dict_get "opdict" e = Some v) (fun _ => False).
Proof.
  intros Hcall Hunpack Hv. unfold decode, rendering_block. rewrite Hv. cbv iota.
  prefix. apply triple_read_value. vm_compute. reflexivity.
Qed.

Lemma decode_rendering_returns (fl : flags) :
  (forall f args, call f args <> None) ->
  (forall n v, exists vs, unpack n v = Some vs /\ length vs = n) ->
  rendering fl = true ->
  triple (frame parameters []) (decode call unpack fl)
         (fun _ _ => True) (fun _ => False).
Proof.
  intros Hcall Hunpack Hr.
  unfold decode, rendering_block, visualization_block. rewrite Hr. cbv iota.
  returning.
Qed.

(** X12. Without [return_vis] the body of [decode] reads no unassigned local,
  with or without [rendering], and when no callee raises it returns the
  value of [opdict]. *)
Theorem decode_without_visualization
        (fl : flags) (codedict iddict original_image tform : val) :
  let frame0 := entry_frame codedict iddict original_image tform in
  return_vis fl = false ->
  (forall x, decode call unpack fl frame0 <> Err (UnboundLocalError x)) /\
  ((forall f args, call f args <> None) ->
   (forall n v, exists vs, unpack n v = Some vs /\ length vs = n) ->
   exists v frame1,
     decode call unpack fl frame0 = Ok (v, frame1) /\
     dict_get "opdict" frame1 = Some v).
Proof.
  intros frame0 Hv.
  pose proof (@entry_frame_ok codedict iddict original_image tform [] eq_refl) as H0.
  split.
  - intros x Hx.
    pose proof (@decode_quiet_frame fl Hv frame0 H0) as H.
    rewrite Hx in H. exact (H x eq_refl).
  - intros Hcall Hunpack.
    pose proof (@decode_quiet_returns fl Hcall Hunpack Hv frame0 H0) as H.
    destruct (decode call unpack fl frame0) as [[v e]|err]; [|contradiction].
    now exists v, e.
Qed.

(** X13. When no callee raises, [decode] returns exactly when the options ask
  for rendering or do not ask for the visualization. *)
Theorem decode_returns_iff
        (fl : flags) (codedict iddict original_image tform : val) :
  (forall f args, call f args <> None) ->
  (forall n v, exists vs, unpack n v = Some vs /\ length vs = n) ->
  (exists v frame1,
      decode call unpack fl (entry_frame codedict iddict original_image tform)
      = Ok (v, frame1)) <->
  (rendering fl = true \/ return_vis fl = false).
Proof.
  intros Hcall Hunpack.
  set (frame0 := entry_frame codedict iddict original_image tform).
  assert (H0 : forall u, inter u parameters = [] -> frame parameters u frame0)
    by (intros u Hu; now apply entry_frame_ok).
  split.
  - intros (v & frame1 & Hrun).
    destruct (rendering fl) eqn:Hr; [now left|].
    destruct (return_vis fl) eqn:Hv; [|now right].
    exfalso.
    pose proof (@decode_unrendered_frame fl Hr Hv frame0
                  (H0 ["uv_texture_gt"] eq_refl)) as H.
    now rewrite Hrun in H.
  - intros [Hr|Hv].
    + pose proof (@decode_rendering_returns fl Hcall Hunpack Hr frame0
                    (H0 [] eq_refl)) as H.
      destruct (decode call unpack fl frame0) as [[v e]|err]; [|contradiction].
      now exists v, e.
    + pose proof (@decode_quiet_returns fl Hcall Hunpack Hv frame0
                    (H0 [] eq_refl)) as H.
      destruct (decode call unpack fl frame0) as [[v e]|err]; [|contradiction].
      now exists v, e.
Qed.

(** *** [decode_coarse] *)

Lemma coarse_entry_frame_ok
      (codedict iddict original_image tform
       pca_index pca_scale all_scale freeze_eyes : val) (u : list string) :
  inter u Coarse.parameters = [] ->
  frame Coarse.parameters u
        (Coarse.entry_frame codedict iddict original_image tform
                            pca_index pca_scale all_scale freeze_eyes).
Proof.
  intros Hu. split.
  - repeat constructor; discriminate.
  - apply Forall_forall. intros x Hx.
    destruct (dict_get x (Coarse.entry_frame codedict iddict original_image tform
                            pca_index pca_scale all_scale freeze_eyes))
      eqn:Hget; [|reflexivity].
    exfalso.
    assert (Hin : In x (inter u Coarse.parameters)).
    { unfold inter. apply filter_In. split; [exact Hx|].
      unfold Coarse.entry_frame in Hget. cbn [dict_get] in Hget.
      repeat match type of Hget with
             | (if String.eqb ?k x then _ else _) = _ =>
                 destruct (String.eqb_spec k x) as [<-|_]; [reflexivity|]
             end.
      discriminate. }
    rewrite Hu in Hin. contradiction.
Qed.

(** Without [return_vis] the end of the body is reached. *)
Lemma coarse_quiet_frame (fl : flags) :
  return_vis fl = false ->
  triple (frame Coarse.parameters []) (Coarse.decode_coarse call unpack fl)
         (fun r _ => r = None) never_unbound.
Proof.
  intros Hv. unfold Coarse.decode_coarse, Coarse.rendering_block.
  rewrite Hv. cbv iota.
  prefix. apply triple_ret. reflexivity.
Qed.

Lemma coarse_quiet_returns (fl : flags) :
  (forall f args, call f args <> None) ->
  (forall n v, exists vs, unpack n v = Some vs /\ length vs = n) ->
  return_vis fl = false ->
  triple (frame Coarse.parameters []) (Coarse.decode_coarse call unpack fl)
         (fun r _ => r = None) (fun _ => False).
Proof.
  intros Hcall Hunpack Hv. unfold Coarse.decode_coarse, Coarse.rendering_block.
  rewrite Hv. cbv iota.
  prefix. apply triple_ret. reflexivity.
Qed.

(** With rendering, no statement reads an unassigned local. *)
Lemma coarse_rendering_frame (fl : flags) :
  rendering fl = true ->
  triple (frame Coarse.parameters []) (Coarse.decode_coarse call unpack fl)
         (fun _ _ => True) never_unbound.
Proof.
  intros Hr. unfold Coarse.decode_coarse, Coarse.rendering_block.
  rewrite Hr. cbv iota.
  prefix. apply triple_if.
  - eapply triple_bind with (Q := fun _ _ => True).
    + unfold Coarse.visualization_block. returning.
    + intros a. now apply triple_ret.
  - now apply triple_ret.
Qed.

Lemma coarse_rendering_returns (fl : flags) :
  (forall f args, call f args <> None) ->
  (forall n v, exists vs, unpack n v = Some vs /\ length vs = n) ->
  rendering fl = true -> return_vis fl = true ->
  triple (frame Coarse.parameters []) (Coarse.decode_coarse call unpack fl)
         (fun r _ => exists v, r = Some v) (fun _ => False).
Proof.
  intros Hcall Hunpack Hr Hv. unfold Coarse.decode_coarse, Coarse.rendering_block.
  rewrite Hr, Hv. cbv iota.
  prefix.
  eapply triple_bind with (Q := fun _ _ => True).
  - unfold Coarse.visualization_block. returning.
  - intros a. apply triple_ret. intros e _. now exists a.
Qed.

(** Without rendering the visualization block stops at line 245. *)
Lemma coarse_unrendered_frame (fl : flags) :
  rendering fl = false -> return_vis fl = true ->
  triple (frame Coarse.parameters ["uv_texture_gt"])
         (Coarse.decode_coarse call unpack fl)
         (fun _ _ => False) (fun _ => True).
Proof.
  intros Hr Hv. unfold Coarse.decode_coarse. rewrite Hr, Hv. cbv iota.
  prefix.
  eapply triple_bind with (Q := fun _ _ => False).
  - unfold Coarse.visualization_block. until_render.
  - intros a e [].
Qed.

Lemma coarse_unrendered_error (fl : flags) :
  (forall f args, call f args <> None) ->
  (forall n v, exists vs, unpack n v = Some vs /\ length vs = n) ->
  rendering fl = false -> return_vis fl = true ->
  triple (frame Coarse.parameters ["uv_texture_gt"])
         (Coarse.decode_coarse call unpack fl)
         (fun _ _ => False)
         (fun err => err = UnboundLocalError "uv_texture_gt").
Proof.
  intros Hcall Hunpack Hr Hv. unfold Coarse.decode_coarse. rewrite Hr, Hv. cbv iota.
  prefix.
  eapply triple_bind with (Q := fun _ _ => False).
  - unfold Coarse.visualization_block. until_render.
  - intros a e [].
Qed.

(** X14. Without [return_vis] a call of [decode_coarse] never hands back a
  value: its only [return] sits in the visualization block, so the call
  reaches the end of the body and the caller gets [None], not [opdict].
  No local is read before it is assigned on that path. *)
Theorem decode_coarse_without_visualization
        (fl : flags)
        (codedict iddict original_image tform
         pca_index pca_scale all_scale freeze_eyes : val) :
  let frame0 := Coarse.entry_frame codedict iddict original_image tform
                                   pca_index pca_scale all_scale freeze_eyes in
  return_vis fl = false ->
  (forall v frame1,
      Coarse.decode_coarse call unpack fl frame0 <> Ok (Some v, frame1)) /\
  (forall x, Coarse.decode_coarse call unpack fl frame0 <> Err (UnboundLocalError x)) /\
  ((forall f args, call f args <> None) ->
   (forall n v, exists vs, unpack n v = Some vs /\ length vs = n) ->
   exists frame1, Coarse.decode_coarse call unpack fl frame0 = Ok (None, frame1)).
Proof.
  intros frame0 Hv.
  pose proof (@coarse_entry_frame_ok codedict iddict original_image tform
                pca_index pca_scale all_scale freeze_eyes [] eq_refl) as H0.
  pose proof (@coarse_quiet_frame fl Hv frame0 H0) as H.
  split; [|split].
  - intros v frame1 Hrun. rewrite Hrun in H. discriminate.
  - intros x Hx. rewrite Hx in H. exact (H x eq_refl).
  - intros Hcall Hunpack.
    pose proof (@coarse_quiet_returns fl Hcall Hunpack Hv frame0 H0) as H'.
    destruct (Coarse.decode_coarse call unpack fl frame0) as [[r e]|err];
      [|contradiction].
    exists e. now rewrite H'.
Qed.

(** X15. The visualization block of [decode_coarse] needs the rendering block:
  with [return_vis] and without [rendering] the call never returns, and
  when no callee raises the exception is the [UnboundLocalError] for
  [uv_texture_gt], read on line 245.  With [rendering] no run raises
  [UnboundLocalError], and when no callee raises a call with [return_vis]
  returns the pair built by its [return]. *)
Theorem decode_coarse_visualization_requires_rendering
        (fl : flags)
        (codedict iddict original_image tform
         pca_index pca_scale all_scale freeze_eyes : val) :
  let frame0 := Coarse.entry_frame codedict iddict original_image tform
                                   pca_index pca_scale all_scale freeze_eyes in
  let callees_return :=
      (forall f args, call f args <> None) /\
      (forall n v, exists vs, unpack n v = Some vs /\ length vs = n) in
  (rendering fl = false -> return_vis fl = true ->
   (exists err, Coarse.decode_coarse call unpack fl frame0 = Err err) /\
   (callees_return ->
    Coarse.decode_coarse call unpack fl frame0 =
    Err (UnboundLocalError "uv_texture_gt"))) /\
  (rendering fl = true ->
   (forall x, Coarse.decode_coarse call unpack fl frame0 <> Err (UnboundLocalError x)) /\
   (return_vis fl = true -> callees_return ->
    exists v frame1,
      Coarse.decode_coarse call unpack fl frame0 = Ok (Some v, frame1))).
Proof.
  intros frame0 callees_return.
  assert (H0 : forall u, inter u Coarse.parameters = [] ->
                         frame Coarse.parameters u frame0)
    by (intros u Hu; now apply coarse_entry_frame_ok).
  split.
  - intros Hr Hv. split.
    + pose proof (@coarse_unrendered_frame fl Hr Hv frame0
                    (H0 ["uv_texture_gt"] eq_refl)) as H.
      destruct (Coarse.decode_coarse call unpack fl frame0) as [[v e]|err];
        [contradiction | now exists err].
    + intros [Hcall Hunpack].
      pose proof (@coarse_unrendered_error fl Hcall Hunpack Hr Hv frame0
                    (H0 ["uv_texture_gt"] eq_refl)) as H.
      destruct (Coarse.decode_coarse call unpack fl frame0) as [[v e]|err];
        [contradiction | now rewrite H].
  - intros Hr. split.
    + intros x Hx.
      pose proof (@coarse_rendering_frame fl Hr frame0 (H0 [] eq_refl)) as H.
      rewrite Hx in H. exact (H x eq_refl).
    + intros Hv [Hcall Hunpack].
      pose proof (@coarse_rendering_returns fl Hcall Hunpack Hr Hv frame0
                    (H0 [] eq_refl)) as H.
      destruct (Coarse.decode_coarse call unpack fl frame0) as [[r e]|err];
        [|contradiction].
      destruct H as [v ->]. now exists v, e.
Qed.

End Frames.

Lemma decode_visualization_requires_rendering_witness :
  decode demo_call demo_unpack (demo_flags false) (entry_frame 0 0 0 0) =
  Err (UnboundLocalError "uv_texture_gt").
Proof.
  apply (proj1 (@decode_visualization_requires_rendering nat demo_call demo_unpack
                  (demo_flags false) 0 0 0 0)).
  - reflexivity.
  - reflexivity.
  - discriminate.
  - intros n v. exists (repeat 0 n). split; [reflexivity | apply repeat_length].
Defined.

(** With rendering the same call runs to its [return]. *)
Lemma decode_rendered_returns :
  exists frame1,
    decode demo_call demo_unpack (demo_flags true) (entry_frame 0 0 0 0) =
    Ok (0, frame1).
Proof. eexists. vm_compute. reflexivity. Qed.

Lemma demo_unpack_ok (n v : nat) :
  exists vs, demo_unpack n v = Some vs /\ length vs = n.
Proof. exists (repeat 0 n). split; [reflexivity | apply repeat_length]. Qed.

Lemma decode_without_visualization_witness :
  exists v frame1,
    decode demo_call demo_unpack (Coarse.demo_options false false)
           (entry_frame 0 0 0 0) = Ok (v, frame1) /\
    dict_get "opdict" frame1 = Some v.
Proof.
  apply (proj2 (@decode_without_visualization nat demo_call demo_unpack
                  (Coarse.demo_options false false) 0 0 0 0 eq_refl)).
  - discriminate.
  - exact demo_unpack_ok.
Defined.

Lemma decode_returns_iff_witness :
  exists v frame1,
    decode demo_call demo_unpack (Coarse.demo_options true true)
           (entry_frame 0 0 0 0) = Ok (v, frame1).
Proof.
  apply (proj2 (@decode_returns_iff nat demo_call demo_unpack
                  (Coarse.demo_options true true) 0 0 0 0
                  ltac:(discriminate) demo_unpack_ok)).
  left. reflexivity.
Defined.

Lemma decode_coarse_without_visualization_witness :
  exists frame1,
    Coarse.decode_coarse demo_call demo_unpack (Coarse.demo_options true false)
                         (Coarse.entry_frame 0 0 0 0 0 0 0 0) = Ok (None, frame1).
Proof.
  apply (proj2 (proj2 (@decode_coarse_without_visualization nat demo_call demo_unpack
                         (Coarse.demo_options true false) 0 0 0 0 0 0 0 0 eq_refl))).
  - discriminate.
  - exact demo_unpack_ok.
Defined.

Lemma decode_coarse_visualization_requires_rendering_witness :
  Coarse.decode_coarse demo_call demo_unpack (Coarse.demo_options false true)
                       (Coarse.entry_frame 0 0 0 0 0 0 0 0) =
  Err (UnboundLocalError "uv_texture_gt").
Proof.
  apply (proj1 (@decode_coarse_visualization_requires_rendering nat demo_call
                  demo_unpack (Coarse.demo_options false true) 0 0 0 0 0 0 0 0)).
  - reflexivity.
  - reflexivity.
  - split; [discriminate | exact demo_unpack_ok].
Defined.

End DecodeFacts.

(** ** Encoding *)

Module EncodeFacts.
Import Tensor Codec Encode CodecFacts.

Section Dicts.

Context {V W : Type}.
Variable f : V -> W.

Lemma dict_map_set (k : string) (v : V) (d : dict V) :
  dict_map f (dict_set k v d) = dict_set k (f v) (dict_map f d).
Proof.
  unfold dict_map.
  induction d as [|[k' v'] d IH]; cbn [dict_set map fst snd].
  - reflexivity.
  - destruct (String.eqb k' k); cbn [map fst snd]; [reflexivity|].
    f_equal. exact IH.
Qed.

Lemma dict_get_map (k : string) (d : dict V) :
  dict_get k (dict_map f d) = option_map f (dict_get k d).
Proof.
  unfold dict_map.
  induction d as [|[k' v'] d IH]; cbn [dict_get map fst snd].
  - reflexivity.
  - destruct (String.eqb k' k); [reflexivity | exact IH].
Qed.

Lemma dict_keys_map (d : dict V) : dict_keys (dict_map f d) = dict_keys d.
Proof.
  unfold dict_keys, dict_map. rewrite map_map. reflexivity.
Qed.

End Dicts.

Lemma dict_get_none {V} (k : string) (d : dict V) :
  dict_get k d = None <-> ~ In k (dict_keys d).
Proof.
  induction d as [|[k' v'] d IH]; cbn [dict_get dict_keys map fst].
  - tauto.
  - destruct (String.eqb_spec k' k) as [->|Hne].
    + split; [discriminate | intros H; exfalso; apply H; now left].
    + unfold dict_keys in IH. rewrite IH. simpl. tauto.
Qed.

Lemma reshape_light_value {A} (t : list (list A)) r :
  reshape_light t = Ok r -> r = map (chunks 9 3) t.
Proof.
  unfold reshape_light. revert r.
  induction t as [|row t IH]; intros r; cbn [mapM map].
  - now intros [= <-].
  - destruct (Nat.eqb (length row) 27); cbn [bind]; [|discriminate].
    destruct (mapM _ t) as [ys|e]; cbn [bind]; [|discriminate].
    intros [= <-]. f_equal. now apply IH.
Qed.

(** The views read back are the blocks of [decompose_code]. *)
Lemma decompose_views_agree (code : T2) :
  forall items start vd bd,
    dict_map (deref code) vd = of_blocks bd ->
    match decompose_views code items start vd with
    | Ok v => exists b, decompose_loop code items start bd = Ok b /\
                        dict_map (deref code) v = of_blocks b
    | Err e => decompose_loop code items start bd = Err e
    end.
Proof.
  induction items as [|[key n] rest IH]; intros start vd bd Hd.
  - cbn [decompose_views decompose_loop]. now exists bd.
  - cbn [decompose_views decompose_loop].
    destruct (String.eqb key "light").
    + destruct (reshape_light _) as [r|e] eqn:Hr; cbn [bind]; [|reflexivity].
      apply IH. unfold of_blocks in *. rewrite !dict_map_set, Hd.
      cbn [deref of_block]. now rewrite (reshape_light_value _ Hr).
    + apply IH. unfold of_blocks in *. now rewrite !dict_map_set, Hd.
Qed.

Lemma decompose_views_code (code : T2) (items : dict Z) :
  match decompose_views code items 0 [] with
  | Ok v => exists b, decompose_code code items = Ok b /\
                      dict_map (deref code) v = of_blocks b
  | Err e => decompose_code code items = Err e
  end.
Proof. now apply decompose_views_agree. Qed.

Section Splice.

Variable A : Type.
Implicit Types l vals : list A.

Lemma splice_length l vals (p q : nat) :
  p <= q <= length l -> length vals = q - p ->
  length (firstn p l ++ vals ++ skipn q l) = length l.
Proof.
  intros H Hv. rewrite !length_app, length_firstn, length_skipn. lia.
Qed.

Lemma splice_before l vals (p q u m : nat) :
  p <= length l -> u + m <= p ->
  firstn m (skipn u (firstn p l ++ vals ++ skipn q l)) = firstn m (skipn u l).
Proof.
  intros Hp Hu.
  rewrite skipn_app, length_firstn.
  replace (u - Nat.min p (length l)) with 0 by lia. cbn [skipn].
  rewrite firstn_app, length_skipn, length_firstn.
  replace (m - (Nat.min p (length l) - u)) with 0 by lia.
  cbn [firstn]. rewrite app_nil_r.
  rewrite skipn_firstn_comm, firstn_firstn.
  f_equal. lia.
Qed.

Lemma splice_after l vals (p q u : nat) :
  p <= q <= length l -> length vals = q - p -> q <= u ->
  skipn u (firstn p l ++ vals ++ skipn q l) = skipn u l.
Proof.
  intros H Hv Hu.
  rewrite app_assoc, skipn_app, length_app, length_firstn, Hv.
  rewrite (skipn_all2 (n := u)) by (rewrite length_app, length_firstn; lia).
  cbn [app]. rewrite skipn_skipn. f_equal. lia.
Qed.

Lemma splice_inside l vals (first p q : nat) :
  first <= p -> p <= q <= length l -> length vals = q - p ->
  firstn (q - first) (skipn first (firstn p l ++ vals ++ skipn q l)) =
  firstn (p - first) (skipn first l) ++ vals.
Proof.
  intros Hf H Hv.
  rewrite skipn_app, length_firstn.
  replace (first - Nat.min p (length l)) with 0 by lia. cbn [skipn].
  rewrite skipn_firstn_comm.
  rewrite app_assoc, firstn_app, length_app, length_firstn, length_skipn, Hv.
  replace (q - first - (Nat.min (p - first) (length l - first) + (q - p)))
    with 0 by lia.
  cbn [firstn]. rewrite app_nil_r.
  apply firstn_all2. rewrite length_app, length_firstn, length_skipn. lia.
Qed.

End Splice.

Lemma expand_to_same {A} (l : list A) : expand_to (length l) l = Ok l.
Proof.
  unfold expand_to. destruct l as [|x [|y l]]; try reflexivity.
  now rewrite Nat.eqb_refl.
Qed.

(** The positions of a row covered by the slice [s:e]. *)
Lemma py_slice_positions {A} (l : list A) (s e : Z) :
  (0 <= s <= e)%Z ->
  let len := Z.of_nat (length l) in
  let first := Z.to_nat (py_bound len s) in
  let n := Z.to_nat (py_bound len e - py_bound len s) in
  py_slice l s e = firstn n (skipn first l) /\
  first + n <= length l /\
  first = Nat.min (Z.to_nat s) (length l) /\
  first + n = Nat.min (Z.to_nat e) (length l).
Proof.
  intros H len first n. unfold first, n, len.
  rewrite !py_bound_nonneg by lia.
  split; [now rewrite py_slice_nonneg by lia|]. lia.
Qed.

Lemma length_from3_row {A} (l : list A) :
  length (py_slice l 3 (Z.of_nat (length l))) = length l - Nat.min 3 (length l).
Proof.
  rewrite py_slice_nonneg by lia.
  rewrite length_firstn, length_skipn. lia.
Qed.

(** One row of the write through [posecode[:, 3:]]. *)
Lemma write_row_spec (s e : Z) (row src : T1) :
  (0 <= s <= e)%Z ->
  length src = length (py_slice (py_slice row s e) 3
                         (Z.of_nat (length (py_slice row s e)))) ->
  exists new,
    write_row s e row src = Ok new /\
    length new = length row /\
    py_slice new s e = firstn 3 (py_slice row s e) ++ src /\
    (forall a b, (0 <= a <= b)%Z -> (b <= s \/ e <= a)%Z ->
                 py_slice new a b = py_slice row a b).
Proof.
  intros Hse Hsrc.
  destruct (py_slice_positions row Hse) as (Hslice & Hfit & Hfirst & Hlast).
  cbv zeta in *.
  set (len := Z.of_nat (length row)) in *.
  set (first := Z.to_nat (py_bound len s)) in *.
  set (n := Z.to_nat (py_bound len e - py_bound len s)) in *.
  assert (Hn : length (py_slice row s e) = n).
  { rewrite Hslice, length_firstn, length_skipn. lia. }
  rewrite length_from3_row, Hn in Hsrc.
  unfold write_row. fold len. fold first. fold n.
  rewrite <- Hsrc, expand_to_same. cbn [bind].
  set (k := Nat.min 3 n) in *.
  assert (Hlen : length (firstn (first + k) row ++ src ++ skipn (first + n) row)
                 = length row).
  { apply splice_length; lia. }
  eexists. split; [reflexivity|]. split; [exact Hlen|]. split.
  - destruct (@py_slice_positions _
                (firstn (first + k) row ++ src ++ skipn (first + n) row) s e Hse)
      as (Hslice' & _ & Hfirst' & Hlast').
    cbv zeta in *. rewrite Hlen in *. fold len in Hslice'. fold first in Hslice'.
    fold n in Hslice'. rewrite Hslice'.
    replace n with (first + n - first) at 1 by lia.
    rewrite splice_inside by lia.
    rewrite Hslice, firstn_firstn. f_equal. f_equal. lia.
  - intros a b Hab Hdis.
    rewrite !py_slice_nonneg by lia. rewrite Hlen. fold len.
    destruct Hdis as [Hb|Ha].
    + apply splice_before; lia.
    + rewrite splice_after by lia. reflexivity.
Qed.

(** The write through [posecode[:, 3:]] on the whole tensor: the view
  [s:e] keeps its first three columns and receives the source after
  them, and the columns outside the view keep their values. *)
Lemma write_from3_spec (s e : Z) :
  (0 <= s <= e)%Z ->
  forall (parameters src : T2),
    map (@length Qc) src = map (@length Qc) (from3 (slice_cols parameters s e)) ->
    exists written,
      write_from3 parameters s e src = Ok written /\
      slice_cols written s e = with_jaw (slice_cols parameters s e) src /\
      (forall a b, (0 <= a <= b)%Z -> (b <= s \/ e <= a)%Z ->
                   slice_cols written a b = slice_cols parameters a b).
Proof.
  intros Hse parameters src Hshape.
  assert (Hlen : length src = length parameters).
  { apply (f_equal (@length nat)) in Hshape.
    unfold from3, slice_cols in Hshape. now rewrite !length_map in Hshape. }
  unfold write_from3. rewrite <- Hlen, expand_to_same. cbn [bind].
  clear Hlen. revert src Hshape.
  induction parameters as [|row parameters IH]; intros [|a src] Hshape;
    try discriminate.
  - exists []. repeat split; reflexivity.
  - cbn [slice_cols from3 map] in Hshape. injection Hshape as Ha Hrest.
    destruct (write_row_spec row a Hse Ha) as (new & Hnew & _ & Hin & Hout).
    destruct (IH src Hrest) as (written & Hw & Hwin & Hwout).
    exists (new :: written). cbn [zipM]. rewrite Hnew. cbn [bind].
    rewrite Hw. cbn [bind]. split; [reflexivity|]. split.
    + cbn [slice_cols map with_jaw]. unfold slice_cols in Hwin.
      now rewrite Hin, Hwin.
    + intros a0 b0 Hab Hdis. cbn [slice_cols map].
      rewrite (Hout a0 b0 Hab Hdis).
      f_equal. exact (Hwout a0 b0 Hab Hdis).
Qed.

(** *** The layout of the blocks *)

Lemma columns_of_bounds (key : string) :
  forall (items : dict Z) (start a b : Z),
    Forall (fun kv => (0 <= snd kv)%Z) items ->
    columns_of key items start = Some (a, b) ->
    (start <= a <= b)%Z.
Proof.
  induction items as [|[k n] rest IH]; intros start a b Hpos Hcol.
  - discriminate.
  - inversion Hpos as [|? ? Hn Hpos']; subst. cbn [snd] in Hn.
    cbn [columns_of] in Hcol.
    destruct (String.eqb k key).
    + injection Hcol as <- <-. lia.
    + specialize (IH _ _ _ Hpos' Hcol). lia.
Qed.

Lemma columns_of_disjoint (k1 k2 : string) :
  forall (items : dict Z) (start a b s e : Z),
    Forall (fun kv => (0 <= snd kv)%Z) items ->
    k1 <> k2 ->
    columns_of k1 items start = Some (a, b) ->
    columns_of k2 items start = Some (s, e) ->
    (b <= s \/ e <= a)%Z.
Proof.
  induction items as [|[k n] rest IH]; intros start a b s e Hpos Hne H1 H2.
  - discriminate.
  - inversion Hpos as [|? ? Hn Hpos']; subst. cbn [snd] in Hn.
    cbn [columns_of] in H1, H2.
    destruct (String.eqb_spec k k1) as [->|N1];
      destruct (String.eqb_spec k1 k2) as [E|N2]; try contradiction.
    + injection H1 as <- <-.
      destruct (@columns_of_bounds _ _ _ _ _ Hpos' H2). lia.
    + destruct (String.eqb_spec k k2) as [->|N3].
      * injection H2 as <- <-.
        destruct (@columns_of_bounds _ _ _ _ _ Hpos' H1). lia.
      * eapply IH; eassumption.
Qed.

(** Entries of the view dictionary. *)
Lemma decompose_views_other (code : T2) :
  forall items start d0 d,
    decompose_views code items start d0 = Ok d ->
    forall k, ~ In k (dict_keys items) -> dict_get k d = dict_get k d0.
Proof.
  induction items as [|[key n] rest IH]; intros start d0 d Hrun k Hk.
  - simpl in Hrun. now injection Hrun as <-.
  - cbn [decompose_views] in Hrun. cbn [dict_keys map fst] in Hk.
    assert (Hne : key <> k) by (intros ->; apply Hk; now left).
    assert (Hk' : ~ In k (dict_keys rest)) by (intros H; apply Hk; now right).
    destruct (String.eqb key "light").
    + destruct (reshape_light _) as [r|e]; [|discriminate]. cbn [bind] in Hrun.
      rewrite (IH _ _ _ Hrun k Hk').
      now rewrite !dict_get_set_other.
    + rewrite (IH _ _ _ Hrun k Hk').
      now rewrite dict_get_set_other.
Qed.

Lemma decompose_views_get (code : T2) :
  forall items start d0 d,
    decompose_views code items start d0 = Ok d ->
    NoDup (dict_keys items) ->
    forall key a b,
      columns_of key items start = Some (a, b) ->
      dict_get key d =
      Some (if String.eqb key "light" then LightView a b else View a b).
Proof.
  induction items as [|[k n] rest IH]; intros start d0 d Hrun Hnd key a b Hcol.
  - discriminate.
  - cbn [decompose_views] in Hrun. cbn [columns_of] in Hcol.
    cbn [dict_keys map fst] in Hnd. inversion Hnd as [|? ? Hfresh Hnd']; subst.
    destruct (String.eqb_spec k key) as [->|Hne].
    + injection Hcol as <- <-.
      destruct (String.eqb key "light").
      * destruct (reshape_light _) as [r|e]; [|discriminate].
        cbn [bind] in Hrun.
        rewrite (decompose_views_other _ _ _ _ Hrun _ Hfresh).
        apply dict_get_set_same.
      * rewrite (decompose_views_other _ _ _ _ Hrun _ Hfresh).
        apply dict_get_set_same.
    + destruct (String.eqb k "light").
      * destruct (reshape_light _) as [r|e]; [|discriminate]. cbn [bind] in Hrun.
        exact (IH _ _ _ Hrun Hnd' key a b Hcol).
      * exact (IH _ _ _ Hrun Hnd' key a b Hcol).
Qed.

Lemma columns_of_none (key : string) (items : dict Z) (start : Z) :
  columns_of key items start = None <-> ~ In key (dict_keys items).
Proof.
  revert start. induction items as [|[k n] rest IH]; intros start;
    cbn [columns_of dict_keys map fst].
  - tauto.
  - destruct (String.eqb_spec k key) as [->|Hne].
    + split; [discriminate | intros H; exfalso; apply H; now left].
    + unfold dict_keys in IH. rewrite IH. simpl. tauto.
Qed.

(** Under the key [pose] the dictionary holds a plain view or nothing,
  before and after the stores of [images] and [detail]. *)
Lemma pose_entry (code : T2) (items : dict Z) (views : dict ref)
      (images : T4) (detail : option T2) :
  decompose_views code items 0 [] = Ok views ->
  let codedict := dict_set "images" (Images images) views in
  let codedict := match detail with
                  | Some dc => dict_set "detail" (Own dc) codedict
                  | None => codedict
                  end in
  dict_get "pose" codedict = None \/
  exists start stop, dict_get "pose" codedict = Some (View start stop).
Proof.
  intros Hv codedict codedict'.
  assert (E : dict_get "pose" codedict' = dict_get "pose" views).
  { unfold codedict', codedict. destruct detail;
      now rewrite !dict_get_set_other by discriminate. }
  rewrite E. clear E codedict codedict'.
  assert (H : forall its start d0 d,
             decompose_views code its start d0 = Ok d ->
             (dict_get "pose" d0 = None \/
              exists a b, dict_get "pose" d0 = Some (View a b)) ->
             dict_get "pose" d = None \/
             exists a b, dict_get "pose" d = Some (View a b)).
  { induction its as [|[key n] rest IH]; intros start d0 d Hrun H0.
    - cbn [decompose_views] in Hrun. now injection Hrun as <-.
    - cbn [decompose_views] in Hrun.
      destruct (String.eqb_spec key "light") as [->|Hl].
      + destruct (reshape_light _) as [r|e0]; [|discriminate].
        cbn [bind] in Hrun. apply (IH _ _ _ Hrun).
        now rewrite !dict_get_set_other by discriminate.
      + apply (IH _ _ _ Hrun).
        destruct (String.eqb_spec key "pose") as [->|Hp].
        * right. eexists. eexists. apply dict_get_set_same.
        * now rewrite dict_get_set_other by assumption. }
  apply (H _ _ _ _ Hv). now left.
Qed.

Lemma dict_get_some_in {V} (k : string) (v : V) (d : dict V) :
  dict_get k d = Some v -> In k (dict_keys d).
Proof.
  intros H. destruct (in_dec string_dec k (dict_keys d)) as [Hin|Hout];
    [exact Hin|].
  apply dict_get_none in Hout. congruence.
Qed.

Lemma decompose_views_ok (code : T2) (items : dict Z) (blocks : dict (block Qc)) :
  decompose_code code items = Ok blocks ->
  exists views,
    decompose_views code items 0 [] = Ok views /\
    dict_map (deref code) views = of_blocks blocks.
Proof.
  intros Hb. pose proof (decompose_views_code code items) as H.
  destruct (decompose_views code items 0 []) as [v|e].
  - destruct H as (b & Hb' & Hv). exists v. split; [reflexivity|]. congruence.
  - congruence.
Qed.

Lemma decompose_views_keys (code : T2) (items : dict Z) (views : dict ref) :
  NoDup (dict_keys items) ->
  decompose_views code items 0 [] = Ok views ->
  dict_keys views = dict_keys items.
Proof.
  intros Hnd Hv. pose proof (decompose_views_code code items) as H.
  rewrite Hv in H. destruct H as (b & Hb & Hmap).
  rewrite <- (dict_keys_map (deref code)), Hmap.
  unfold of_blocks. rewrite dict_keys_map.
  exact (decompose_loop_keys code items 0%Z [] Hb Hnd).
Qed.

Section Encode.

Variable E_flame : T4 -> result T2.
Variable E_detail : T4 -> result T2.
Variable batch_euler2axis : T2 -> result T2.
Variable param_dict : dict Z.

Local Abbreviation encode := (encode E_flame E_detail batch_euler2axis param_dict).

(** X16. Without the Euler branch nothing is written through a view, and
  [encode] is [decompose_code] on the output of the encoder followed by
  the stores of [images] and [detail]. *)
Theorem encode_without_euler (images : T4) (use_detail : bool) :
  encode false images use_detail =
  (parameters <- E_flame images ;;
   blocks <- decompose_code parameters param_dict ;;
   let codedict := dict_set "images" (Dim4 images) (of_blocks blocks) in
   if use_detail
   then detailcode <- E_detail images ;;
        Ok (dict_set "detail" (Dim2 detailcode) codedict)
   else Ok codedict).
Proof.
  unfold Encode.encode, Encode.encode_refs.
  destruct (E_flame images) as [parameters|e]; cbn [bind]; [|reflexivity].
  pose proof (decompose_views_code parameters param_dict) as H.
  destruct (decompose_views parameters param_dict 0 []) as [v|e]; cbn [bind].
  - destruct H as (b & -> & Hb). cbn [bind].
    destruct use_detail.
    + destruct (E_detail images) as [dc|e]; cbn [bind fst snd]; [|reflexivity].
      rewrite !dict_map_set. now rewrite Hb.
    + cbn [bind fst snd]. rewrite !dict_map_set. now rewrite Hb.
  - now rewrite H.
Qed.


(** X17. The keys of the dictionary of [encode], in order: the names of
  [param_dict], then [images], then [detail] and [euler_jaw_pose] when
  the options ask for them. *)
Theorem encode_keys (jaw_type_is_euler : bool) (images : T4) (use_detail : bool)
        (d : dict value) :
  NoDup (dict_keys param_dict) ->
  ~ In "images" (dict_keys param_dict) ->
  ~ In "detail" (dict_keys param_dict) ->
  ~ In "euler_jaw_pose" (dict_keys param_dict) ->
  encode jaw_type_is_euler images use_detail = Ok d ->
  dict_keys d =
  dict_keys param_dict ++ ["images"]
    ++ (if use_detail then ["detail"] else [])
    ++ (if jaw_type_is_euler then ["euler_jaw_pose"] else []).
Proof.
  intros Hnd Hi Hd He. unfold Encode.encode, Encode.encode_refs.
  destruct (E_flame images) as [parameters|e0]; cbn [bind]; [|discriminate].
  destruct (decompose_views parameters param_dict 0 []) as [views|e0] eqn:Hv;
    cbn [bind]; [|discriminate].
  pose proof (@decompose_views_keys _ _ _ Hnd Hv) as Hk.
  set (c1 := dict_set "images" (Images images) views).
  assert (K1 : dict_keys c1 = dict_keys param_dict ++ ["images"]).
  { unfold c1. rewrite dict_keys_set_fresh; rewrite Hk; [reflexivity | exact Hi]. }
  assert (Hstep : forall c2,
             dict_keys c2 = dict_keys param_dict ++ ["images"]
                              ++ (if use_detail then ["detail"] else []) ->
             (r <- (if jaw_type_is_euler
                    then match dict_get "pose" c2 with
                         | Some (View start stop) =>
                             axis <- batch_euler2axis
                                       (from3 (slice_cols parameters start stop)) ;;
                             parameters0 <- write_from3 parameters start stop axis ;;
                             Ok (parameters0,
                                 dict_set "euler_jaw_pose"
                                   (Own (from3 (slice_cols parameters start stop)))
                                   (dict_set "pose" (View start stop) c2))
                         | Some _ =>
                             Err (RuntimeError
                                    "codedict['pose'] is not a slice of parameters")
                         | None => Err (ExternalError "codedict['pose']")
                         end
                    else Ok (parameters, c2)) ;;
              Ok (dict_map (deref (fst r)) (snd r))) = Ok d ->
             dict_keys d =
             dict_keys param_dict ++ ["images"]
               ++ (if use_detail then ["detail"] else [])
               ++ (if jaw_type_is_euler then ["euler_jaw_pose"] else [])).
  { intros c2 K2. destruct jaw_type_is_euler.
    - destruct (dict_get "pose" c2) as [[start stop| | |]|] eqn:Hp;
        try discriminate.
      destruct (batch_euler2axis _) as [axis|e0]; cbn [bind]; [|discriminate].
      destruct (write_from3 _ _ _ _) as [p'|e0]; cbn [bind fst snd];
        [|discriminate].
      intros [= <-]. rewrite dict_keys_map.
      rewrite dict_keys_set_fresh.
      + rewrite dict_keys_set_present by (eapply dict_get_some_in; eassumption).
        rewrite K2. now rewrite <- !app_assoc.
      + rewrite dict_keys_set_present by (eapply dict_get_some_in; eassumption).
        rewrite K2. intros Hin.
        apply in_app_or in Hin as [Hin|Hin]; [contradiction|].
        destruct use_detail; simpl in Hin; intuition discriminate.
    - cbn [bind fst snd]. intros [= <-]. rewrite dict_keys_map, K2.
      now rewrite app_nil_r. }
  destruct use_detail.
  - destruct (E_detail images) as [dc|e0]; cbn [bind]; [|discriminate].
    apply Hstep. rewrite dict_keys_set_fresh.
    + rewrite K1. now rewrite <- app_assoc.
    + rewrite K1. intros Hin. apply in_app_or in Hin as [Hin|Hin];
        [contradiction | simpl in Hin; intuition discriminate].
  - cbn [bind]. apply Hstep. rewrite K1. now rewrite app_nil_r.
Qed.

(** X18. With the Euler jaw convention a block named [pose] is needed: without
  it no call returns, and when the encoders and the decomposition go
  through the exception is the one of the subscript [codedict['pose']]. *)
Theorem encode_euler_needs_pose (images : T4) (use_detail : bool) :
  ~ In "pose" (dict_keys param_dict) ->
  (forall d, encode true images use_detail <> Ok d) /\
  (forall parameters blocks,
      E_flame images = Ok parameters ->
      decompose_code parameters param_dict = Ok blocks ->
      (use_detail = true -> exists detailcode, E_detail images = Ok detailcode) ->
      encode true images use_detail = Err (ExternalError "codedict['pose']")).
Proof.
  intros Hp.
  assert (Hnone : forall parameters views,
             decompose_views parameters param_dict 0 [] = Ok views ->
             dict_get "pose" (dict_set "images" (Images images) views) = None /\
             forall dc, dict_get "pose"
                          (dict_set "detail" (Own dc)
                             (dict_set "images" (Images images) views)) = None).
  { intros parameters views Hv.
    pose proof (decompose_views_other _ _ _ _ Hv _ Hp) as H. cbn [dict_get] in H.
    split; [|intros dc]; rewrite !dict_get_set_other by discriminate; exact H. }
  split.
  - intros d. unfold Encode.encode, Encode.encode_refs.
    destruct (E_flame images) as [parameters|e0]; cbn [bind]; [|discriminate].
    destruct (decompose_views parameters param_dict 0 []) as [views|e0] eqn:Hv;
      cbn [bind]; [|discriminate].
    destruct (Hnone _ _ Hv) as [H1 H2].
    destruct use_detail.
    + destruct (E_detail images) as [dc|e0]; cbn [bind]; [|discriminate].
      rewrite H2. discriminate.
    + cbn [bind]. rewrite H1. discriminate.
  - intros parameters blocks Hf Hb Hdet.
    unfold Encode.encode, Encode.encode_refs. rewrite Hf. cbn [bind].
    destruct (decompose_views_ok _ _ Hb) as (views & Hv & _).
    rewrite Hv. cbn [bind].
    destruct (Hnone _ _ Hv) as [H1 H2].
    destruct use_detail.
    + destruct (Hdet eq_refl) as [dc ->]. cbn [bind]. now rewrite H2.
    + cbn [bind]. now rewrite H1.
Qed.

(** X19. The Euler branch writes the converted jaw pose through the view
  [posecode[:, 3:]] into the tensor of the encoder.  When the widths are
  sizes the blocks do not overlap, so in the dictionary returned the
  write shows in the block [pose] alone: it keeps its first three columns
  and holds the converted values after them, [euler_jaw_pose] holds the
  columns that were replaced, and every other block holds the columns of
  the encoder output that [decompose_code] gave it. *)
Theorem encode_euler (images : T4) (use_detail : bool)
        (parameters axis : T2) (blocks : dict (block Qc)) (s e : Z) :
  NoDup (dict_keys param_dict) ->
  Forall (fun kv => (0 <= snd kv)%Z) param_dict ->
  E_flame images = Ok parameters ->
  decompose_code parameters param_dict = Ok blocks ->
  (use_detail = true -> exists detailcode, E_detail images = Ok detailcode) ->
  columns_of "pose" param_dict 0 = Some (s, e) ->
  let posecode := slice_cols parameters s e in
  batch_euler2axis (from3 posecode) = Ok axis ->
  map (@length Qc) axis = map (@length Qc) (from3 posecode) ->
  exists d,
    encode true images use_detail = Ok d /\
    dict_get "pose" d = Some (Dim2 (with_jaw posecode axis)) /\
    dict_get "euler_jaw_pose" d = Some (Dim2 (from3 posecode)) /\
    dict_get "images" d = Some (Dim4 images) /\
    (forall key,
        key <> "pose" -> key <> "images" -> key <> "detail" ->
        key <> "euler_jaw_pose" ->
        dict_get key d = option_map of_block (dict_get key blocks)).
Proof.
  intros Hnd Hpos Hf Hb Hdet Hcol posecode Haxis Hshape.
  destruct (decompose_views_ok _ _ Hb) as (views & Hv & Hmap).
  destruct (@columns_of_bounds _ _ _ _ _ Hpos Hcol) as [Hs He].
  assert (Hse : (0 <= s <= e)%Z) by lia.
  destruct (@write_from3_spec _ _ Hse parameters axis Hshape)
    as (written & Hw & Hin & Hout).
  pose proof (@decompose_views_get _ _ _ _ _ Hv Hnd _ _ _ Hcol) as Hpose.
  cbn [String.eqb Ascii.eqb Bool.eqb] in Hpose.
  (* the dictionary before the Euler branch *)
  set (c2 := if use_detail
             then match E_detail images with
                  | Ok dc => dict_set "detail" (Own dc)
                               (dict_set "images" (Images images) views)
                  | Err _ => dict_set "images" (Images images) views
                  end
             else dict_set "images" (Images images) views).
  assert (Hc2 : forall key, key <> "images" -> key <> "detail" ->
                            dict_get key c2 = dict_get key views).
  { intros key H1 H2. unfold c2. destruct use_detail.
    - destruct (E_detail images); now rewrite !dict_get_set_other by congruence.
    - now rewrite dict_get_set_other by congruence. }
  assert (Hc2i : dict_get "images" c2 = Some (Images images)).
  { unfold c2. destruct use_detail.
    - destruct (E_detail images).
      + rewrite dict_get_set_other by discriminate. apply dict_get_set_same.
      + apply dict_get_set_same.
    - apply dict_get_set_same. }
  set (final := dict_set "euler_jaw_pose" (Own (from3 posecode))
                         (dict_set "pose" (View s e) c2)).
  assert (Hrun : encode true images use_detail =
                 Ok (dict_map (deref written) final)).
  { unfold Encode.encode, Encode.encode_refs. rewrite Hf. cbn [bind].
    rewrite Hv. cbn [bind]. unfold final, c2. destruct use_detail.
    - destruct (Hdet eq_refl) as [dc ->]. cbn [bind].
      rewrite !dict_get_set_other by discriminate. rewrite Hpose.
      fold posecode. rewrite Haxis. cbn [bind]. rewrite Hw. reflexivity.
    - cbn [bind].
      rewrite !dict_get_set_other by discriminate. rewrite Hpose.
      fold posecode. rewrite Haxis. cbn [bind]. rewrite Hw. reflexivity. }
  exists (dict_map (deref written) final).
  split; [exact Hrun|]. rewrite !dict_get_map. unfold final.
  split; [|split; [|split]].
  - rewrite dict_get_set_other by discriminate. rewrite dict_get_set_same.
    cbn [option_map deref]. now rewrite Hin.
  - now rewrite dict_get_set_same.
  - rewrite !dict_get_set_other by discriminate. now rewrite Hc2i.
  - intros key H1 H2 H3 H4. rewrite dict_get_map.
    rewrite !dict_get_set_other by congruence.
    rewrite Hc2 by assumption.
    assert (Hblocks : dict_get key (dict_map (deref parameters) views) =
                      option_map of_block (dict_get key blocks)).
    { rewrite Hmap. unfold of_blocks. apply dict_get_map. }
    rewrite dict_get_map in Hblocks. rewrite <- Hblocks.
    destruct (columns_of key param_dict 0) as [[a b]|] eqn:Hk.
    + rewrite (@decompose_views_get _ _ _ _ _ Hv Hnd _ _ _ Hk).
      destruct (@columns_of_bounds _ _ _ _ _ Hpos Hk) as [Ha Hab].
      assert (Hdis : (b <= s \/ e <= a)%Z)
        by exact (@columns_of_disjoint key "pose" _ _ _ _ _ _ Hpos H1 Hk Hcol).
      cbn [option_map]. f_equal.
      assert (Hab' : (0 <= a <= b)%Z) by lia.
      destruct (String.eqb key "light"); cbn [deref];
        now rewrite (Hout a b Hab' Hdis).
    + apply columns_of_none in Hk.
      rewrite (@decompose_views_other _ _ _ _ _ Hv _ Hk). reflexivity.
Qed.

End Encode.

Lemma demo_param_dict_keys : NoDup (dict_keys demo_param_dict).
Proof. repeat constructor; simpl; intuition discriminate. Qed.

Lemma encode_keys_witness :
  exists d,
    Encode.encode demo_E_flame demo_E_detail demo_euler2axis demo_param_dict
                  true demo_images true = Ok d /\
    dict_keys d = ["shape"; "pose"; "images"; "detail"; "euler_jaw_pose"].
Proof.
  eexists. split; [reflexivity|].
  apply (@encode_keys demo_E_flame demo_E_detail demo_euler2axis demo_param_dict
           true demo_images true).
  - exact demo_param_dict_keys.
  - simpl; intuition discriminate.
  - simpl; intuition discriminate.
  - simpl; intuition discriminate.
  - reflexivity.
Defined.

(** No block [pose] in the configuration. *)
Lemma encode_euler_needs_pose_witness :
  Encode.encode demo_E_flame demo_E_detail demo_euler2axis [("shape", 2%Z)]
                true demo_images true
  = Err (ExternalError "codedict['pose']").
Proof.
  refine (proj2 (@encode_euler_needs_pose demo_E_flame demo_E_detail
                   demo_euler2axis [("shape", 2%Z)] demo_images true _)
            demo_parameters [("shape", Flat (slice_cols demo_parameters 0 2))]
            eq_refl eq_refl _).
  - simpl; intuition discriminate.
  - intros _. eexists. reflexivity.
Defined.

(** The block [pose] of the example covers the columns 2 to 7: 2, 3, 4
  stay and 5, 6, 7 are replaced. *)
Lemma encode_euler_witness :
  exists d,
    Encode.encode demo_E_flame demo_E_detail demo_euler2axis demo_param_dict
                  true demo_images true = Ok d /\
    dict_get "pose" d =
      Some (Dim2 (with_jaw (slice_cols demo_parameters 2 8)
                           (map (map Qcopp)
                                (from3 (slice_cols demo_parameters 2 8))))).
Proof.
  edestruct (@encode_euler demo_E_flame demo_E_detail demo_euler2axis
               demo_param_dict demo_images true demo_parameters
               (map (map Qcopp) (from3 (slice_cols demo_parameters 2 8)))
               [("shape", Flat (slice_cols demo_parameters 0 2));
                ("pose", Flat (slice_cols demo_parameters 2 8))] 2 8)
    as (d & Hrun & Hpose & _).
  - exact demo_param_dict_keys.
  - repeat constructor; simpl; lia.
  - reflexivity.
  - reflexivity.
  - intros _. eexists. reflexivity.
  - reflexivity.
  - reflexivity.
  - reflexivity.
  - exists d. split; [exact Hrun | exact Hpose].
Defined.

End EncodeFacts.

(** ** The entry point *)

Module RunFacts.
Import Tensor Codec Decode Encode Run EncodeFacts.

Section Steps.

Variable val : Type.
Variable call : string -> list val -> option val.

Lemma seq_set_ok {A} (x : string) (expr : M val val) (k : M val A)
      (e e' : env val) (v : val) :
  expr e = Ok (v, e') -> seq (set x expr) k e = k (dict_set x v e').
Proof. intros H. unfold seq, set, mbind, store. now rewrite H. Qed.

Lemma seq_set_err {A} (x : string) (expr : M val val) (k : M val A)
      (e : env val) (err : error) :
  expr e = Err err -> seq (set x expr) k e = Err err.
Proof. intros H. unfold seq, set, mbind. now rewrite H. Qed.

Lemma ext_one (f x : string) (e : env val) (a : val) :
  dict_get x e = Some a ->
  ext call f [x] e =
  match call f [a] with
  | Some v => Ok (v, e)
  | None => Err (ExternalError f)
  end.
Proof.
  intros H. unfold ext, read_all, mbind, read, ret, raise. rewrite H.
  now destruct (call f [a]).
Qed.

End Steps.

Section Entries.

Variable E_flame : T4 -> result T2.
Variable E_detail : T4 -> result T2.
Variable batch_euler2axis : T2 -> result T2.
Variable param_dict : dict Z.
Variable jaw_type_is_euler : bool.

Local Abbreviation encode :=
  (encode E_flame E_detail batch_euler2axis param_dict jaw_type_is_euler).

(** What [encode] stores under [images], and the keys it never stores. *)
Lemma encode_entries (images : T4) (use_detail : bool) (d : dict value) :
  encode images use_detail = Ok d ->
  dict_get "images" d = Some (Dim4 images) /\
  (forall k, ~ In k (dict_keys param_dict) ->
             k <> "images" -> k <> "detail" -> k <> "euler_jaw_pose" ->
             dict_get k d = None).
Proof.
  unfold Encode.encode, Encode.encode_refs.
  destruct (E_flame images) as [parameters|e0]; cbn [bind]; [|discriminate].
  destruct (decompose_views parameters param_dict 0 []) as [views|e0] eqn:Hv;
    cbn [bind]; [|discriminate].
  set (c1 := dict_set "images" (Images images) views).
  assert (Hc1 : dict_get "images" c1 = Some (Images images))
    by apply dict_get_set_same.
  assert (Hn1 : forall k, ~ In k (dict_keys param_dict) -> k <> "images" ->
                          dict_get k c1 = None).
  { intros k Hk Hne. unfold c1. rewrite dict_get_set_other by congruence.
    now rewrite (@decompose_views_other _ _ _ _ _ Hv _ Hk). }
  assert (Hstep : forall c2,
             dict_get "images" c2 = Some (Images images) ->
             (forall k, ~ In k (dict_keys param_dict) ->
                        k <> "images" -> k <> "detail" -> dict_get k c2 = None) ->
             (r <- (if jaw_type_is_euler
                    then match dict_get "pose" c2 with
                         | Some (View start stop) =>
                             axis <- batch_euler2axis
                                       (from3 (slice_cols parameters start stop)) ;;
                             parameters0 <- write_from3 parameters start stop axis ;;
                             Ok (parameters0,
                                 dict_set "euler_jaw_pose"
                                   (Own (from3 (slice_cols parameters start stop)))
                                   (dict_set "pose" (View start stop) c2))
                         | Some _ =>
                             Err (RuntimeError
                                    "codedict['pose'] is not a slice of parameters")
                         | None => Err (ExternalError "codedict['pose']")
                         end
                    else Ok (parameters, c2)) ;;
              Ok (dict_map (deref (fst r)) (snd r))) = Ok d ->
             dict_get "images" d = Some (Dim4 images) /\
             (forall k, ~ In k (dict_keys param_dict) ->
                        k <> "images" -> k <> "detail" -> k <> "euler_jaw_pose" ->
                        dict_get k d = None)).
  { intros c2 Hi Hn. destruct jaw_type_is_euler.
    - destruct (dict_get "pose" c2) as [[start stop| | |]|] eqn:Hp;
        try discriminate.
      destruct (batch_euler2axis _) as [axis|e0]; cbn [bind]; [|discriminate].
      destruct (write_from3 _ _ _ _) as [p'|e0]; cbn [bind fst snd];
        [|discriminate].
      intros [= <-]. split.
      + rewrite dict_get_map, !dict_get_set_other by discriminate.
        now rewrite Hi.
      + intros k Hk H1 H2 H3. rewrite dict_get_map.
        rewrite dict_get_set_other by congruence.
        destruct (string_dec k "pose") as [->|Hpose].
        * rewrite (Hn "pose" Hk H1 H2) in Hp. discriminate.
        * rewrite dict_get_set_other by congruence.
          now rewrite (Hn k Hk H1 H2).
    - cbn [bind fst snd]. intros [= <-]. split.
      + rewrite dict_get_map. now rewrite Hi.
      + intros k Hk H1 H2 H3. rewrite dict_get_map. now rewrite (Hn k Hk H1 H2). }
  destruct use_detail.
  - destruct (E_detail images) as [dc|e0]; cbn [bind]; [|discriminate].
    apply Hstep.
    + rewrite dict_get_set_other by discriminate. exact Hc1.
    + intros k Hk H1 H2. rewrite dict_get_set_other by congruence.
      now apply Hn1.
  - cbn [bind]. apply Hstep; [exact Hc1|]. intros k Hk H1 _. now apply Hn1.
Qed.

End Entries.

Section Run.

Variable opaque : Type.
Variable none : opaque.
Variable load : string -> result T4.
Variable E_flame : T4 -> result T2.
Variable E_detail : T4 -> result T2.
Variable batch_euler2axis : T2 -> result T2.
Variable param_dict : dict Z.
Variable jaw_type_is_euler : bool.
Variable cfg_use_tex : bool.
Variable extern : string -> list (object opaque) -> option (object opaque).
Variable unpack : nat -> object opaque -> option (list (object opaque)).

Local Abbreviation run :=
  (run none load E_flame E_detail batch_euler2axis param_dict jaw_type_is_euler
       cfg_use_tex extern unpack).

(** The dictionary of [encode] has no entry [hr_images], which [decode]
  reads on line 258. *)
Lemma decode_after_encode (images : T4) (codedict : dict value) :
  ~ In "hr_images" (dict_keys param_dict) ->
  Encode.encode E_flame E_detail batch_euler2axis param_dict jaw_type_is_euler
                images true = Ok codedict ->
  decode (Run.call extern) unpack (default_flags cfg_use_tex codedict)
         (entry_frame (Codedict codedict) (Other none) (Other none) (Other none))
  = Err (ExternalError "codedict['hr_images']").
Proof.
  intros Hk Henc.
  destruct (encode_entries _ _ _ _ _ _ _ Henc) as [Hi Hn].
  specialize (Hn "hr_images" Hk ltac:(discriminate) ltac:(discriminate)
                 ltac:(discriminate)).
  unfold decode.
  erewrite seq_set_ok.
  2:{ rewrite (@ext_one _ _ _ "codedict" _ (Codedict codedict)) by reflexivity.
      cbn [Run.call String.eqb Ascii.eqb Bool.eqb]. rewrite Hi. reflexivity. }
  apply seq_set_err.
  rewrite (@ext_one _ _ _ "codedict" _ (Codedict codedict)) by reflexivity.
  cbn [Run.call String.eqb Ascii.eqb Bool.eqb]. rewrite Hn. reflexivity.
Qed.

(** X20. [run] hands the dictionary of [encode] to [decode], whose second
  statement reads [codedict['hr_images']]: unless the configuration names
  a parameter block [hr_images], no call of [run] returns, and when the
  image loads and [encode] returns the exception is the one raised
  inside that subscript. *)
Theorem run_never_returns (imagepath : string) :
  ~ In "hr_images" (dict_keys param_dict) ->
  (forall r, run imagepath <> Ok r) /\
  (forall images codedict,
      load imagepath = Ok images ->
      Encode.encode E_flame E_detail batch_euler2axis param_dict
                    jaw_type_is_euler images true = Ok codedict ->
      run imagepath = Err (ExternalError "codedict['hr_images']")).
Proof.
  intros Hk. split.
  - intros r. unfold Run.run.
    destruct (load imagepath) as [images|e0]; cbn [bind]; [|discriminate].
    destruct (Encode.encode _ _ _ _ _ images true) as [codedict|e0] eqn:Henc;
      cbn [bind]; [|discriminate].
    rewrite (decode_after_encode _ Hk Henc). discriminate.
  - intros images codedict Hl Henc. unfold Run.run. rewrite Hl. cbn [bind].
    rewrite Henc. cbn [bind].
    now rewrite (decode_after_encode _ Hk Henc).
Qed.

End Run.

Lemma run_never_returns_witness :
  Run.run tt demo_load demo_E_flame demo_E_detail demo_euler2axis demo_param_dict
          true true demo_extern demo_unpack "image.png"
  = Err (ExternalError "codedict['hr_images']").
Proof.
  refine (proj2 (@run_never_returns unit tt demo_load demo_E_flame demo_E_detail
                   demo_euler2axis demo_param_dict true true demo_extern
                   demo_unpack "image.png" _) demo_images _ eq_refl eq_refl).
  simpl; intuition discriminate.
Defined.

End RunFacts.
